(** * BusTub buffer pool: LRU replacer, buffer pool manager instance,
      parallel buffer pool manager

    A shallow embedding of [src/buffer/lru_replacer.cpp],
    [src/buffer/buffer_pool_manager_instance.cpp] and
    [src/buffer/parallel_buffer_pool_manager.cpp], and the properties of
    the buffer pool that follow from the code.

    Conventions of the embedding.
    - Page identifiers ([page_id_t]) are integers; frame identifiers
      ([frame_id_t]) are indices into the frame array and are natural
      numbers.
    - [size_t] arithmetic is written out with its wrap-around (modulo
      2^64) where the code subtracts.
    - The page table ([std::unordered_map]) is a [gmap]; the frame array
      is a list read with [!!] and written with [<[_:=_]>].
    - Operations run one at a time, as the latch of the instance makes
      them; the latch is part of the state, so that a second [lock] by
      the thread that holds it is seen.
    - An operation that does not return (a loop that never ends, a
      re-acquired [std::mutex], a failed [assert], an index outside its
      array) yields [Stuck]. *)

From stdpp Require Import base option list gmap fin_maps.
From Stdlib Require Import ZArith Lia.

Local Open Scope Z_scope.

(** ** Identifiers and constants *)

(** Modelled from the spec: [page_id_t] and [frame_id_t] are declared
    in [common/config.h], which is not among the sources.  Section 3 of
    the spec: a page identifier is an integer that the allocator keeps
    advancing; a frame identifier is dense in [0, pool_size).  The
    embedding takes [Z] for the first and [nat] for the second, and no
    wrap-around of either is modelled. *)
Abbreviation page_id_t := Z (only parsing).
Abbreviation frame_id_t := nat (only parsing).

(** Modelled from the spec: [INVALID_PAGE_ID] is declared in
    [common/config.h], which is not among the sources; section 6 of the
    spec names -1 as the usual sentinel, and [FindReplacePolicy] uses -1
    for "no page". *)
Definition INVALID_PAGE_ID : page_id_t := -1.

(** Width of [size_t]: unsigned arithmetic wraps modulo [2^64]. *)
Definition size_t_wrap (z : Z) : Z := z mod 2 ^ 64.

(** ** The LRU replacer, [lru_replacer.cpp] *)

Module LRUReplacer.

(** The members of [LRUReplacer] are declared in [lru_replacer.h], which
    is not among the sources; the code uses [capacity], [lru], [hashMap]
    and [latch_].  [Unpin] calls [Victim] while it holds [latch_], so
    the latch is taken to allow that, and is not part of the state.

    [lru] is the [std::list] of candidates: its head is the front (most
    recently unpinned), its last element the back.  [hashMap] maps a
    frame to the iterator of its node in [lru]; the embedding keeps its
    set of keys, and [lru.erase(hashMap[f])] removes the node that holds
    [f]. *)
Record t : Type := mk {
  capacity : Z;
  lru : list frame_id_t;
  hashMap : gset nat
}.

(** [LRUReplacer::LRUReplacer(num_pages)] *)
Definition init (num_pages : Z) : t := mk num_pages [] ∅.

(** [hashMap.find(frame_id) != hashMap.end()] *)
Definition contains (r : t) (frame_id : frame_id_t) : bool :=
  bool_decide (frame_id ∈ hashMap r).

(** [lru.erase(it)] for the node holding [frame_id]. *)
Fixpoint erase_node (frame_id : frame_id_t) (l : list frame_id_t) : list frame_id_t :=
  match l with
  | [] => []
  | x :: l' => if decide (x = frame_id) then l' else x :: erase_node frame_id l'
  end.

(** [Victim]: the result is the out-parameter ([None] for [false]). *)
Definition Victim (r : t) : option frame_id_t * t :=
  match last (lru r) with
  | None => (None, r)
  | Some frame_id =>
      (Some frame_id,
       mk (capacity r) (removelast (lru r)) (hashMap r ∖ {[frame_id]}))
  end.

(** [Pin] *)
Definition Pin (frame_id : frame_id_t) (r : t) : t :=
  if contains r frame_id
  then mk (capacity r) (erase_node frame_id (lru r)) (hashMap r ∖ {[frame_id]})
  else r.

(** The loop of [Unpin]:
    [while (lru.size() >= capacity - 1) Victim(&lru_element);]
    with [capacity - 1] computed in [size_t].  [None]: the fuel ran out. *)
Fixpoint unpin_loop (fuel : nat) (r : t) : option t :=
  match fuel with
  | O => None
  | S fuel' =>
      if bool_decide (size_t_wrap (capacity r - 1) ≤ Z.of_nat (length (lru r)))
      then unpin_loop fuel' (Victim r).2
      else Some r
  end.

(** [Unpin].  The loop removes one candidate per round while there is
    one, so [length (lru r) + 1] rounds are enough whenever it ends
    ([unpin_loop_enough]); [None] stands for a loop that never ends
    ([Unpin_None_diverges]). *)
Definition Unpin (frame_id : frame_id_t) (r : t) : option t :=
  if contains r frame_id then Some r
  else
    match unpin_loop (S (length (lru r))) r with
    | None => None
    | Some r' =>
        Some (mk (capacity r') (frame_id :: lru r') ({[frame_id]} ∪ hashMap r'))
    end.

(** [Size] *)
Definition Size (r : t) : nat := length (lru r).

(** The replacer that holds the candidates [l], front first. *)
Definition of_list (cap : Z) (l : list frame_id_t) : t :=
  mk cap l (list_to_set l).

(** The index agrees with the list: each candidate once, and the keys
    of [hashMap] are the elements of [lru]. *)
Definition synced (r : t) : Prop :=
  NoDup (lru r) ∧ hashMap r = list_to_set (lru r).

End LRUReplacer.

(** ** Pages and the disk manager *)

(** Modelled from the spec: [PAGE_SIZE] is declared in
    [common/config.h], which is not among the sources; section 6 of the
    spec gives 4096. *)
Definition PAGE_SIZE : nat := 4096.

Abbreviation page_data := (list Byte.byte) (only parsing).

Definition zero_page : list Byte.byte := replicate PAGE_SIZE Byte.x00.

(** Modelled from the spec: the class [Page] is declared in
    [storage/page/page.h], which is not among the sources.  Section 3 of
    the spec: a byte block with the page identifier it holds, a pin
    count (a non-negative integer) and a dirty flag; the code reads and
    writes the members [data_], [page_id_], [pin_count_] and
    [is_dirty_].  The pin count moves by one at a time; its overflow is
    outside the embedding. *)
Record Page : Type := mkPage {
  data_ : page_data;
  page_id_ : page_id_t;
  pin_count_ : Z;
  is_dirty_ : bool
}.

(** A frame as [new Page[pool_size_]] leaves it: no page, not pinned,
    clean, zeroed. *)
Definition new_Page : Page := mkPage zero_page INVALID_PAGE_ID 0 false.

(** What an operation does to the disk manager and to the page table
    entries, in program order. *)
Inductive event : Type :=
  | EvWritePage (page_id : page_id_t) (data : page_data)
  | EvReadPage (page_id : page_id_t)
  | EvDeallocatePage (page_id : page_id_t)
  | EvTableErase (page_id : page_id_t).

(** Modelled from the spec: [DiskManager] is not among the sources.
    Section 6: [read_page], [write_page], [deallocate_page] on whole
    pages; a read returns the bytes of the latest write of that page
    (scenario S3), zeroes where there is none. *)
Definition disk_contents (tr : list event) (page_id : page_id_t) : page_data :=
  foldl (fun acc e =>
           match e with
           | EvWritePage p d => if decide (p = page_id) then d else acc
           | _ => acc
           end) zero_page tr.

(** ** The buffer pool manager instance,
       [buffer_pool_manager_instance.cpp] *)

(** The members the code uses.  [pool_size_] is a [size_t];
    [num_instances_] and [instance_index_] are [uint32_t]. *)
Record BufferPoolManagerInstance : Type := mkBPI {
  pool_size_ : nat;
  num_instances_ : Z;
  instance_index_ : Z;
  next_page_id_ : page_id_t;
  pages_ : list Page;
  replacer_ : LRUReplacer.t;
  free_list_ : list frame_id_t;
  page_table_ : gmap Z nat;
  (** [std::mutex latch_]: [true] while it is held. *)
  latch_ : bool;
  (** The history of the calls made to the disk manager and of the
      erasures from the page table. *)
  trace_ : list event
}.

Abbreviation BPI := BufferPoolManagerInstance (only parsing).

Definition set_next_page_id (v : page_id_t) (s : BPI) : BPI :=
  mkBPI (pool_size_ s) (num_instances_ s) (instance_index_ s) v (pages_ s)
        (replacer_ s) (free_list_ s) (page_table_ s) (latch_ s) (trace_ s).
Definition set_pages (v : list Page) (s : BPI) : BPI :=
  mkBPI (pool_size_ s) (num_instances_ s) (instance_index_ s) (next_page_id_ s) v
        (replacer_ s) (free_list_ s) (page_table_ s) (latch_ s) (trace_ s).
Definition set_replacer (v : LRUReplacer.t) (s : BPI) : BPI :=
  mkBPI (pool_size_ s) (num_instances_ s) (instance_index_ s) (next_page_id_ s) (pages_ s)
        v (free_list_ s) (page_table_ s) (latch_ s) (trace_ s).
Definition set_free_list (v : list frame_id_t) (s : BPI) : BPI :=
  mkBPI (pool_size_ s) (num_instances_ s) (instance_index_ s) (next_page_id_ s) (pages_ s)
        (replacer_ s) v (page_table_ s) (latch_ s) (trace_ s).
Definition set_page_table (v : gmap Z nat) (s : BPI) : BPI :=
  mkBPI (pool_size_ s) (num_instances_ s) (instance_index_ s) (next_page_id_ s) (pages_ s)
        (replacer_ s) (free_list_ s) v (latch_ s) (trace_ s).
Definition set_latch (v : bool) (s : BPI) : BPI :=
  mkBPI (pool_size_ s) (num_instances_ s) (instance_index_ s) (next_page_id_ s) (pages_ s)
        (replacer_ s) (free_list_ s) (page_table_ s) v (trace_ s).
Definition set_trace (v : list event) (s : BPI) : BPI :=
  mkBPI (pool_size_ s) (num_instances_ s) (instance_index_ s) (next_page_id_ s) (pages_ s)
        (replacer_ s) (free_list_ s) (page_table_ s) (latch_ s) v.

(** *** Outcomes *)

Inductive fault : Type :=
  | Deadlock        (* [latch_] locked again by the thread that holds it *)
  | Diverges        (* a loop that never ends *)
  | AssertFailed    (* a failed [assert] *)
  | OutOfBounds     (* an index outside its array *)
  | DivisionByZero. (* [%] by zero *)

Inductive result (S A : Type) : Type :=
  | Ret (a : A) (s : S)
  | Stuck (why : fault).
Arguments Ret {S A} a s.
Arguments Stuck {S A} why.

(** The operations of an instance: functions of its state. *)
Definition M (A : Type) : Type :=
  BufferPoolManagerInstance -> result BufferPoolManagerInstance A.

#[global] Instance M_ret : MRet M := fun A a s => Ret a s.
#[global] Instance M_bind : MBind M := fun A B k m s =>
  match m s with
  | Ret a s' => k a s'
  | Stuck w => Stuck w
  end.

Definition get : M BufferPoolManagerInstance := fun s => Ret s s.
Definition modify (f : BufferPoolManagerInstance -> BufferPoolManagerInstance) : M unit :=
  fun s => Ret tt (f s).
Definition stuck {A : Type} (w : fault) : M A := fun _ => Stuck w.

(** [latch_.lock()] and [latch_.unlock()]; a [std::lock_guard] is a
    [lock] at its declaration and an [unlock] at every return. *)
Definition lock : M unit :=
  fun s => if latch_ s then Stuck Deadlock else Ret tt (set_latch true s).
Definition unlock : M unit := modify (set_latch false).

(** [pages_[frame_id]], read and written in place. *)
Definition page (frame_id : frame_id_t) : M Page :=
  fun s => match pages_ s !! frame_id with
           | Some pg => Ret pg s
           | None => Stuck OutOfBounds
           end.
Definition update_page (frame_id : frame_id_t) (f : Page -> Page) : M unit :=
  pg ← page frame_id;
  modify (fun s => set_pages (<[frame_id := f pg]> (pages_ s)) s).

Definition emit (e : event) : M unit :=
  modify (fun s => set_trace (trace_ s ++ [e]) s).

(** [page_table_.erase(page_id)] *)
Definition table_erase (page_id : page_id_t) : M unit :=
  emit (EvTableErase page_id);;
  modify (fun s => set_page_table (delete page_id (page_table_ s)) s).
(** [page_table_[page_id] = frame_id] *)
Definition table_set (page_id : page_id_t) (frame_id : frame_id_t) : M unit :=
  modify (fun s => set_page_table (<[page_id := frame_id]> (page_table_ s)) s).

Definition replacer_Pin (frame_id : frame_id_t) : M unit :=
  modify (fun s => set_replacer (LRUReplacer.Pin frame_id (replacer_ s)) s).
Definition replacer_Unpin (frame_id : frame_id_t) : M unit :=
  fun s => match LRUReplacer.Unpin frame_id (replacer_ s) with
           | Some r => Ret tt (set_replacer r s)
           | None => Stuck Diverges
           end.

(** *** The operations *)

(** The search of [FindReplacePolicy]:
    [for (auto &p : page_table_) if (p.second == *frame_id) { replace_frame_id = p.first; break; }]
    starting from [replace_frame_id = -1].  The order of iteration of a
    [std::unordered_map] is not specified; the embedding uses that of
    [map_to_list]. *)
Definition find_page_of (m : gmap Z nat) (frame_id : frame_id_t) : Z :=
  match list_find (fun p : Z * nat => p.2 = frame_id) (map_to_list m) with
  | Some (_, (pid, _)) => pid
  | None => -1
  end.

(** [FindReplacePolicy]: the result is the out-parameter ([None] for
    [false]). *)
Definition FindReplacePolicy : M (option frame_id_t) :=
  s ← get;
  match free_list_ s with
  | frame_id :: rest =>
      modify (set_free_list rest);;
      mret (Some frame_id)
  | [] =>
      match LRUReplacer.Victim (replacer_ s) with
      | (Some frame_id, r) =>
          modify (set_replacer r);;
          s1 ← get;
          let replace_frame_id := find_page_of (page_table_ s1) frame_id in
          if decide (replace_frame_id ≠ -1) then
            replace_page ← page frame_id;
            (if is_dirty_ replace_page then
               emit (EvWritePage (page_id_ replace_page) (data_ replace_page));;
               update_page frame_id (fun pg =>
                 mkPage (data_ pg) (page_id_ pg) 0 (is_dirty_ pg))
             else mret tt);;
            table_erase (page_id_ replace_page);;
            mret (Some frame_id)
          else mret None
      | (None, _) => mret None
      end
  end.

(** [FlushPgImp] *)
Definition FlushPgImp (page_id : page_id_t) : M bool :=
  lock;;
  s ← get;
  match page_table_ s !! page_id with
  | None => unlock;; mret false
  | Some flush_fid =>
      if decide (page_id = INVALID_PAGE_ID) then unlock;; mret false
      else
        pg ← page flush_fid;
        emit (EvWritePage page_id (data_ pg));;
        unlock;; mret true
  end.

(** [FlushAllPgsImp]: the loop over the frames [0 .. pool_size_ - 1]. *)
Fixpoint FlushAllPgs_loop (frames : list frame_id_t) : M unit :=
  match frames with
  | [] => mret tt
  | i :: rest =>
      pg ← page i;
      FlushPgImp (page_id_ pg);;
      FlushAllPgs_loop rest
  end.
Definition FlushAllPgsImp : M unit :=
  s ← get;
  FlushAllPgs_loop (seq 0 (pool_size_ s)).

(** [ValidatePageId] and [AllocatePage] *)
Definition ValidatePageId (page_id : page_id_t) : M unit :=
  s ← get;
  if decide (page_id `mod` num_instances_ s = instance_index_ s)
  then mret tt else stuck AssertFailed.
Definition AllocatePage : M page_id_t :=
  s ← get;
  let next_page_id := next_page_id_ s in
  modify (set_next_page_id (next_page_id_ s + num_instances_ s));;
  ValidatePageId next_page_id;;
  mret next_page_id.

(** Modelled from the spec: [DeallocatePage] is defined in
    [buffer_pool_manager_instance.h], which is not among the sources;
    section 4.2 of the spec: deallocate on disk
    ([disk_manager.deallocate_page]). *)
Definition DeallocatePage (page_id : page_id_t) : M unit :=
  emit (EvDeallocatePage page_id).

(** The first loop of [NewPgImp]: [is_all] stays [true] when no frame in
    [0 .. pool_size_ - 1] has pin count 0. *)
Fixpoint all_pinned_loop (frames : list frame_id_t) : M bool :=
  match frames with
  | [] => mret true
  | i :: rest =>
      pg ← page i;
      if decide (pin_count_ pg = 0) then mret false else all_pinned_loop rest
  end.

(** [NewPgImp]: the result is the new page id (the out-parameter) and
    the frame of the returned [Page *]; [None] for [nullptr]. *)
Definition NewPgImp : M (option (page_id_t * frame_id_t)) :=
  lock;;
  new_page_id ← AllocatePage;
  s ← get;
  is_all ← all_pinned_loop (seq 0 (pool_size_ s));
  if (is_all : bool) then unlock;; mret None
  else
    victim ← FindReplacePolicy;
    match victim with
    | None => unlock;; mret None
    | Some victim_fid =>
        update_page victim_fid (fun pg =>
          mkPage (data_ pg) new_page_id (pin_count_ pg + 1) (is_dirty_ pg));;
        replacer_Pin victim_fid;;
        table_set new_page_id victim_fid;;
        update_page victim_fid (fun pg =>
          mkPage (data_ pg) (page_id_ pg) (pin_count_ pg) false);;
        victim_page ← page victim_fid;
        emit (EvWritePage (page_id_ victim_page) (data_ victim_page));;
        unlock;; mret (Some (new_page_id, victim_fid))
    end.

(** [FetchPgImp]: the result is the frame of the returned [Page *];
    [None] for [nullptr]. *)
Definition FetchPgImp (page_id : page_id_t) : M (option frame_id_t) :=
  lock;;
  s ← get;
  match page_table_ s !! page_id with
  | Some frame_id =>
      update_page frame_id (fun pg =>
        mkPage (data_ pg) (page_id_ pg) (pin_count_ pg + 1) (is_dirty_ pg));;
      replacer_Pin frame_id;;
      unlock;; mret (Some frame_id)
  | None =>
      victim ← FindReplacePolicy;
      match victim with
      | None => unlock;; mret None
      | Some replace_frame_id =>
          replacePage ← page replace_frame_id;
          (if is_dirty_ replacePage then
             emit (EvWritePage (page_id_ replacePage) (data_ replacePage))
           else mret tt);;
          table_erase (page_id_ replacePage);;
          table_set page_id replace_frame_id;;
          emit (EvReadPage page_id);;
          s1 ← get;
          update_page replace_frame_id (fun pg =>
            mkPage (disk_contents (trace_ s1) page_id) page_id (pin_count_ pg + 1) false);;
          replacer_Pin replace_frame_id;;
          unlock;; mret (Some replace_frame_id)
      end
  end.

(** [DeletePgImp] *)
Definition DeletePgImp (page_id : page_id_t) : M bool :=
  lock;;
  s ← get;
  match page_table_ s !! page_id with
  | None => unlock;; mret true
  | Some frame_id =>
      pg ← page frame_id;
      if decide (pin_count_ pg > 0) then unlock;; mret false
      else
        (if is_dirty_ pg then FlushPgImp page_id;; mret tt else mret tt);;
        DeallocatePage page_id;;
        table_erase page_id;;
        update_page frame_id (fun pg => mkPage (data_ pg) INVALID_PAGE_ID 0 false);;
        modify (fun s => set_free_list (free_list_ s ++ [frame_id]) s);;
        unlock;; mret true
  end.

(** [UnpinPgImp] *)
Definition UnpinPgImp (page_id : page_id_t) (is_dirty : bool) : M bool :=
  lock;;
  s ← get;
  match page_table_ s !! page_id with
  | None => unlock;; mret false
  | Some unpinned_fid =>
      (if is_dirty then
         update_page unpinned_fid (fun pg =>
           mkPage (data_ pg) (page_id_ pg) (pin_count_ pg) true)
       else mret tt);;
      unpinned_page ← page unpinned_fid;
      if decide (pin_count_ unpinned_page = 0) then
        replacer_Unpin unpinned_fid;;
        unlock;; mret false
      else
        update_page unpinned_fid (fun pg =>
          mkPage (data_ pg) (page_id_ pg) (pin_count_ pg - 1) (is_dirty_ pg));;
        unpinned_page' ← page unpinned_fid;
        (if decide (pin_count_ unpinned_page' = 0) then replacer_Unpin unpinned_fid
         else mret tt);;
        unlock;; mret true
  end.

(** The constructor
    [BufferPoolManagerInstance(pool_size, num_instances, instance_index, ...)];
    [None] when one of its two assertions fails. *)
Definition create (pool_size : nat) (num_instances instance_index : Z)
  : option BufferPoolManagerInstance :=
  if decide (num_instances > 0 ∧ instance_index < num_instances) then
    Some (mkBPI pool_size num_instances instance_index instance_index
                (replicate pool_size new_Page)
                (LRUReplacer.init (Z.of_nat pool_size))
                (seq 0 pool_size) ∅ false [])
  else None.

(** ** Scripts of operations *)

(** The public operations of one instance, and a write by a caller
    through the [Page *] it was handed. *)
Inductive op : Type :=
  | OpFetch (page_id : page_id_t)
  | OpNew
  | OpUnpin (page_id : page_id_t) (is_dirty : bool)
  | OpFlush (page_id : page_id_t)
  | OpDelete (page_id : page_id_t)
  | OpFlushAll
  | OpClientWrite (frame_id : frame_id_t) (data : page_data).

Inductive answer : Type :=
  | AFrame (r : option frame_id_t)
  | ANew (r : option (page_id_t * frame_id_t))
  | ABool (b : bool)
  | AUnit.

Definition client_write (frame_id : frame_id_t) (data : page_data) : M unit :=
  modify (fun s =>
    match pages_ s !! frame_id with
    | Some pg =>
        set_pages (<[frame_id := mkPage data (page_id_ pg) (pin_count_ pg) (is_dirty_ pg)]>
                     (pages_ s)) s
    | None => s
    end).

Definition exec (o : op) : M answer :=
  match o with
  | OpFetch p => r ← FetchPgImp p; mret (AFrame r)
  | OpNew => r ← NewPgImp; mret (ANew r)
  | OpUnpin p d => b ← UnpinPgImp p d; mret (ABool b)
  | OpFlush p => b ← FlushPgImp p; mret (ABool b)
  | OpDelete p => b ← DeletePgImp p; mret (ABool b)
  | OpFlushAll => FlushAllPgsImp;; mret AUnit
  | OpClientWrite f d => client_write f d;; mret AUnit
  end.

Fixpoint run (ops : list op) : M (list answer) :=
  match ops with
  | [] => mret []
  | o :: rest => a ← exec o; l ← run rest; mret (a :: l)
  end.

(** The states an instance goes through: what the constructor builds
    from a [size_t] pool size and [uint32_t] instance numbers, and what
    an operation that returns leaves. *)
Inductive reachable : BufferPoolManagerInstance -> Prop :=
  | reachable_create pool_size num_instances instance_index s :
      Z.of_nat pool_size < 2 ^ 64 ->
      0 ≤ instance_index ->
      create pool_size num_instances instance_index = Some s ->
      reachable s
  | reachable_exec o s a s' :
      reachable s -> exec o s = Ret a s' -> reachable s'.


(** The candidates of the replacer of an instance. *)
Definition candidates (s : BufferPoolManagerInstance) : list frame_id_t :=
  LRUReplacer.lru (replacer_ s).

(** A script run on a fresh instance. *)
Definition boot (pool_size : nat) (num_instances instance_index : Z) (ops : list op)
  : result BufferPoolManagerInstance (list answer) :=
  match create pool_size num_instances instance_index with
  | Some s => run ops s
  | None => Stuck AssertFailed
  end.


(** ** The state invariant *)

(** What holds of the frames, the page table, the free list and the
    replacer of an instance between two operations. *)
Record consistent (s : BufferPoolManagerInstance) : Prop := mkConsistent {
  (* the frame array has [pool_size_] frames *)
  c_length : length (pages_ s) = pool_size_ s;
  (* the replacer was built with the pool size, a [size_t] *)
  c_capacity : LRUReplacer.capacity (replacer_ s) = Z.of_nat (pool_size_ s)
               ∧ Z.of_nat (pool_size_ s) < 2 ^ 64;
  (* the allocator stays in the residue class of the instance *)
  c_alloc : 0 < num_instances_ s
            ∧ 0 ≤ instance_index_ s < num_instances_ s
            ∧ next_page_id_ s `mod` num_instances_ s = instance_index_ s
            ∧ instance_index_ s ≤ next_page_id_ s;
  (* free frames are distinct, unpinned, and no page maps to them *)
  c_free_NoDup : NoDup (free_list_ s);
  c_free : ∀ f, f ∈ free_list_ s ->
             (∃ pg, pages_ s !! f = Some pg ∧ pin_count_ pg = 0)
             ∧ ∀ p, page_table_ s !! p ≠ Some f;
  (* a page table entry names a frame that holds that page *)
  c_table : ∀ p f, page_table_ s !! p = Some f ->
              ∃ pg, pages_ s !! f = Some pg ∧ page_id_ pg = p;
  (* the index of the replacer agrees with its list *)
  c_synced : LRUReplacer.synced (replacer_ s);
  (* candidates are not pinned *)
  c_lru : ∀ f, f ∈ LRUReplacer.lru (replacer_ s) ->
            ∃ pg, pages_ s !! f = Some pg ∧ pin_count_ pg = 0;
  (* pin counts are not negative *)
  c_pin : ∀ f pg, pages_ s !! f = Some pg -> 0 ≤ pin_count_ pg;
  (* in a pool of one frame the replacer stays empty and a resident
     page is pinned: the [Unpin] that would make it a candidate never
     returns *)
  c_one : pool_size_ s = 1%nat ->
          LRUReplacer.lru (replacer_ s) = []
          ∧ ∀ p f pg, page_table_ s !! p = Some f -> pages_ s !! f = Some pg ->
                      1 ≤ pin_count_ pg
}.

(** The state [FindReplacePolicy] leaves when it evicts the page of
    frame [f], the victim, whose contents are [pg]. *)
Definition evict_state (s : BufferPoolManagerInstance) (f : frame_id_t)
    (pg : Page) : BufferPoolManagerInstance :=
  let s1 := set_replacer (LRUReplacer.Victim (replacer_ s)).2 s in
  let s2 :=
    if is_dirty_ pg then
      set_pages (<[f := mkPage (data_ pg) (page_id_ pg) 0 (is_dirty_ pg)]> (pages_ s1))
        (set_trace (trace_ s1 ++ [EvWritePage (page_id_ pg) (data_ pg)]) s1)
    else s1 in
  set_page_table (delete (page_id_ pg) (page_table_ s2))
    (set_trace (trace_ s2 ++ [EvTableErase (page_id_ pg)]) s2).

(** A frame that [FindReplacePolicy] has handed out: it is neither in
    the free list nor in the page table, and not pinned. *)
Definition taken (f : frame_id_t) (s : BufferPoolManagerInstance) : Prop :=
  (f ∉ free_list_ s)
  ∧ (∀ p, page_table_ s !! p ≠ Some f)
  ∧ ∃ pg, pages_ s !! f = Some pg ∧ pin_count_ pg = 0.

(** The invariant between two operations: the latch is free. *)
Definition wf (s : BufferPoolManagerInstance) : Prop :=
  consistent s ∧ latch_ s = false.

(** The state a script leaves on a fresh instance, when every operation
    of it returns. *)
Definition state_after (pool_size : nat) (num_instances instance_index : Z)
    (ops : list op) : option BufferPoolManagerInstance :=
  match create pool_size num_instances instance_index with
  | Some s => match run ops s with Ret _ s' => Some s' | Stuck _ => None end
  | None => None
  end.

(** ** The parallel buffer pool manager,
       [parallel_buffer_pool_manager.cpp] *)

Module Parallel.

(** [buffer_vec_] holds the instances themselves: the vector owns them,
    and nothing else reaches them.  [num_instances_] and [start_index_]
    are [size_t]. *)
Record t : Type := mk {
  num_instances_ : Z;
  pool_size_ : nat;
  buffer_vec_ : list BufferPoolManagerInstance;
  start_index_ : Z;
  latch_ : bool
}.

Definition PM (A : Type) : Type := t -> result t A.

(** The constructor: instance [i] is built with
    [(pool_size, num_instances, i)].  [start_index_] is initialised in
    [parallel_buffer_pool_manager.h], which is not among the sources: it
    is an argument here. *)
Fixpoint create_instances (pool_size : nat) (num_instances : Z) (indices : list nat)
  : option (list BufferPoolManagerInstance) :=
  match indices with
  | [] => Some []
  | i :: rest =>
      match create pool_size num_instances (Z.of_nat i),
            create_instances pool_size num_instances rest with
      | Some s, Some l => Some (s :: l)
      | _, _ => None
      end
  end.
Definition create (num_instances pool_size : nat) (start_index : Z) : option t :=
  match create_instances pool_size (Z.of_nat num_instances) (seq 0 num_instances) with
  | Some l => Some (mk (Z.of_nat num_instances) pool_size l start_index false)
  | None => None
  end.

(** [GetPoolSize] *)
Definition GetPoolSize (p : t) : Z := num_instances_ p.

(** [GetBufferPoolManager]: [page_id % num_instances_] is computed in
    [size_t], the result is stored in a [u_int32_t] and indexes
    [buffer_vec_]; the result here is the index and the instance. *)
Definition GetBufferPoolManager (page_id : page_id_t) (p : t)
  : result t (nat * BufferPoolManagerInstance) :=
  if decide (num_instances_ p = 0) then Stuck DivisionByZero
  else
    let buffer_id :=
      Z.to_nat ((size_t_wrap page_id `mod` num_instances_ p) `mod` 2 ^ 32) in
    match buffer_vec_ p !! buffer_id with
    | Some s => Ret (buffer_id, s) p
    | None => Stuck OutOfBounds
    end.

(** A call of an operation of instance [k], which changes that
    instance in place. *)
Definition on_instance {A : Type} (k : nat) (m : M A) : PM A :=
  fun p =>
    match buffer_vec_ p !! k with
    | Some s =>
        match m s with
        | Ret a s' =>
            Ret a (mk (num_instances_ p) (pool_size_ p) (<[k := s']> (buffer_vec_ p))
                      (start_index_ p) (latch_ p))
        | Stuck w => Stuck w
        end
    | None => Stuck OutOfBounds
    end.

(** The four routed operations: the instance found is never null, so
    each of them is the call on that instance. *)
Definition routed {A : Type} (page_id : page_id_t) (m : M A) : PM A :=
  fun p =>
    match GetBufferPoolManager page_id p with
    | Ret (k, _) p' => on_instance k m p'
    | Stuck w => Stuck w
    end.
Definition FetchPgImp (page_id : page_id_t) : PM (option frame_id_t) :=
  routed page_id (FetchPgImp page_id).
Definition UnpinPgImp (page_id : page_id_t) (is_dirty : bool) : PM bool :=
  routed page_id (UnpinPgImp page_id is_dirty).
Definition FlushPgImp (page_id : page_id_t) : PM bool :=
  routed page_id (FlushPgImp page_id).
Definition DeletePgImp (page_id : page_id_t) : PM bool :=
  routed page_id (DeletePgImp page_id).

(** [NewPgImp]: at most [num_instances_] rounds, each on the instance
    [start_index_ % num_instances_], after which [start_index_] moves
    on by one; the first page obtained ends the loop. *)
Fixpoint NewPg_loop (rounds : nat) : PM (option (page_id_t * frame_id_t)) :=
  match rounds with
  | O => fun p => Ret None p
  | S rounds' => fun p =>
      if decide (num_instances_ p = 0) then Stuck DivisionByZero
      else
        let index := Z.to_nat (start_index_ p `mod` num_instances_ p) in
        match on_instance index NewPgImp p with
        | Ret page p1 =>
            let p2 := mk (num_instances_ p1) (pool_size_ p1) (buffer_vec_ p1)
                         ((start_index_ p1 + 1) `mod` num_instances_ p1) (latch_ p1) in
            match page with
            | Some _ => Ret page p2
            | None => NewPg_loop rounds' p2
            end
        | Stuck w => Stuck w
        end
  end.
Definition NewPgImp : PM (option (page_id_t * frame_id_t)) :=
  fun p =>
    if latch_ p then Stuck Deadlock
    else
      let locked := mk (num_instances_ p) (pool_size_ p) (buffer_vec_ p)
                       (start_index_ p) true in
      match NewPg_loop (Z.to_nat (num_instances_ p)) locked with
      | Ret page p' =>
          Ret page (mk (num_instances_ p') (pool_size_ p') (buffer_vec_ p')
                       (start_index_ p') false)
      | Stuck w => Stuck w
      end.

(** [FlushAllPgsImp] *)
Fixpoint FlushAll_loop (indices : list nat) : PM unit :=
  match indices with
  | [] => fun p => Ret tt p
  | k :: rest => fun p =>
      match on_instance k FlushAllPgsImp p with
      | Ret _ p' => FlushAll_loop rest p'
      | Stuck w => Stuck w
      end
  end.
Definition FlushAllPgsImp : PM unit :=
  fun p => FlushAll_loop (seq 0 (length (buffer_vec_ p))) p.

End Parallel.

(** ** Scripts of replacer calls *)




(** [Unpin] of each frame of a list, in order. *)
Fixpoint unpin_all (frames : list frame_id_t) (r : LRUReplacer.t)
  : option LRUReplacer.t :=
  match frames with
  | [] => Some r
  | f :: rest =>
      match LRUReplacer.Unpin f r with
      | Some r' => unpin_all rest r'
      | None => None
      end
  end.

(** [n] calls of [Victim] in a row, with their results. *)
Fixpoint victims (n : nat) (r : LRUReplacer.t)
  : list (option frame_id_t) * LRUReplacer.t :=
  match n with
  | O => ([], r)
  | S n' =>
      let v := LRUReplacer.Victim r in
      let rest := victims n' v.2 in
      (v.1 :: rest.1, rest.2)
  end.

(** ** What a flush writes *)

(** The call of [WritePage] that [FlushPgImp page_id] makes: none when
    the page is not resident or is the sentinel. *)
Definition flush_event (s : BufferPoolManagerInstance) (page_id : page_id_t)
  : list event :=
  match page_table_ s !! page_id with
  | Some flush_fid =>
      if decide (page_id = INVALID_PAGE_ID) then []
      else
        match pages_ s !! flush_fid with
        | Some pg => [EvWritePage page_id (data_ pg)]
        | None => []
        end
  | None => []
  end.

(** The calls of [WritePage] of [FlushAllPgsImp] over the frames
    [frames]: for each frame, that of [FlushPgImp] on the page
    identifier the frame holds. *)
Definition flush_events (s : BufferPoolManagerInstance) (frames : list frame_id_t)
  : list event :=
  concat ((fun i => match pages_ s !! i with
                    | Some pg => flush_event s (page_id_ pg)
                    | None => []
                    end) <$> frames).

(** ** What no operation writes *)

(** The pool size and the instance numbers of two states agree. *)
Definition same_static (s s' : BufferPoolManagerInstance) : Prop :=
  pool_size_ s' = pool_size_ s
  ∧ num_instances_ s' = num_instances_ s
  ∧ instance_index_ s' = instance_index_ s.

(** ** Scripts of operations on a parallel pool *)

(** The public operations of the pool, and a write by a caller through
    the [Page *] it was handed by instance [instance]. *)
Inductive pool_op : Type :=
  | PoolFetch (page_id : page_id_t)
  | PoolNew
  | PoolUnpin (page_id : page_id_t) (is_dirty : bool)
  | PoolFlush (page_id : page_id_t)
  | PoolDelete (page_id : page_id_t)
  | PoolFlushAll
  | PoolClientWrite (instance : nat) (frame_id : frame_id_t) (data : page_data).

Definition answered {S A : Type} (f : A -> answer) (r : result S A) : result S answer :=
  match r with
  | Ret a s => Ret (f a) s
  | Stuck w => Stuck w
  end.

Definition pool_exec (o : pool_op) : Parallel.PM answer :=
  fun P =>
    match o with
    | PoolFetch p => answered AFrame (Parallel.FetchPgImp p P)
    | PoolNew => answered ANew (Parallel.NewPgImp P)
    | PoolUnpin p d => answered ABool (Parallel.UnpinPgImp p d P)
    | PoolFlush p => answered ABool (Parallel.FlushPgImp p P)
    | PoolDelete p => answered ABool (Parallel.DeletePgImp p P)
    | PoolFlushAll => answered (fun _ => AUnit) (Parallel.FlushAllPgsImp P)
    | PoolClientWrite k f d =>
        match Parallel.buffer_vec_ P !! k with
        | Some _ => answered (fun _ => AUnit) (Parallel.on_instance k (client_write f d) P)
        | None => Ret AUnit P
        end
    end.

(** The states a pool goes through: what the constructor builds for a
    number of instances that its [int] loop counter can reach, and what
    an operation that returns leaves. *)
Inductive pool_reachable : Parallel.t -> Prop :=
  | pool_reachable_create num_instances pool_size start_index P :
      0 < Z.of_nat num_instances < 2 ^ 31 ->
      Z.of_nat pool_size < 2 ^ 64 ->
      0 ≤ start_index < 2 ^ 64 ->
      Parallel.create num_instances pool_size start_index = Some P ->
      pool_reachable P
  | pool_reachable_exec o P a P' :
      pool_reachable P -> pool_exec o P = Ret a P' -> pool_reachable P'.

(** The index [GetBufferPoolManager] computes for a page identifier. *)
Definition route (P : Parallel.t) (page_id : page_id_t) : nat :=
  Z.to_nat (size_t_wrap page_id `mod` Parallel.num_instances_ P).

(** What holds of a pool between two operations. *)
Record pool_consistent (P : Parallel.t) : Prop := mkPoolConsistent {
  (* as many instances as the constructor was asked for *)
  pc_count : 0 < Parallel.num_instances_ P < 2 ^ 31;
  pc_length : Z.of_nat (length (Parallel.buffer_vec_ P)) = Parallel.num_instances_ P;
  pc_start : 0 ≤ Parallel.start_index_ P < 2 ^ 64;
  (* instance [k] is well formed and knows its index *)
  pc_instance : ∀ k s, Parallel.buffer_vec_ P !! k = Some s ->
      wf s
      ∧ num_instances_ s = Parallel.num_instances_ P
      ∧ instance_index_ s = Z.of_nat k
      ∧ pool_size_ s = Parallel.pool_size_ P;
  (* a page is resident in the instance it is routed to *)
  pc_routed : ∀ k s p f, Parallel.buffer_vec_ P !! k = Some s ->
      page_table_ s !! p = Some f -> p < 2 ^ 64 -> route P p = k
}.

Definition pool_wf (P : Parallel.t) : Prop :=
  pool_consistent P ∧ Parallel.latch_ P = false.

Fixpoint pool_run (ops : list pool_op) : Parallel.PM (list answer) :=
  fun P =>
    match ops with
    | [] => Ret [] P
    | o :: rest =>
        match pool_exec o P with
        | Ret a P1 =>
            match pool_run rest P1 with
            | Ret l P2 => Ret (a :: l) P2
            | Stuck w => Stuck w
            end
        | Stuck w => Stuck w
        end
    end.

(** The state a script leaves on a fresh pool, when every operation of
    it returns. *)
Definition pool_state_after (num_instances pool_size : nat) (start_index : Z)
    (ops : list pool_op) : option Parallel.t :=
  match Parallel.create num_instances pool_size start_index with
  | Some P => match pool_run ops P with Ret _ P' => Some P' | Stuck _ => None end
  | None => None
  end.

(** [next_page_id_] moved on by one allocation. *)
Definition skip_page_id (s : BufferPoolManagerInstance) : BufferPoolManagerInstance :=
  set_next_page_id (next_page_id_ s + num_instances_ s) s.

(** An instance after [FlushAllPgsImp]. *)
Definition flushed (s : BufferPoolManagerInstance) : BufferPoolManagerInstance :=
  set_trace (trace_ s ++ flush_events s (seq 0 (pool_size_ s))) s.

(** * Properties of the replacer *)

Module LRUFacts.
Import LRUReplacer.

Section Victim.

Lemma last_removelast {A} (l : list A) x :
  last l = Some x -> l = removelast l ++ [x].
Proof.
  intros H. apply last_Some in H as [l' ->].
  by rewrite removelast_last.
Qed.

Lemma removelast_take {A} (l : list A) : removelast l = take (pred (length l)) l.
Proof. apply removelast_firstn_len. Qed.

Lemma list_to_set_snoc_remove (l : list nat) f :
  f ∉ l -> (list_to_set (l ++ [f]) : gset nat) ∖ {[f]} = list_to_set l.
Proof.
  intros Hf. apply set_eq. intros x.
  rewrite elem_of_difference, !elem_of_list_to_set, elem_of_app,
    list_elem_of_singleton, elem_of_singleton.
  split; [intros [[?|?] ?]; done|].
  intros Hx. split; [by left|]. intros ->. done.
Qed.

Lemma synced_of_list c l : NoDup l -> synced (of_list c l).
Proof. by split. Qed.

Lemma synced_elem r f : synced r -> f ∈ hashMap r ↔ f ∈ lru r.
Proof. intros [_ ->]. apply elem_of_list_to_set. Qed.

Lemma contains_true r f : synced r -> contains r f = true ↔ f ∈ lru r.
Proof.
  intros Hs. unfold contains. rewrite bool_decide_eq_true. by apply synced_elem.
Qed.

Lemma contains_false r f : synced r -> contains r f = false ↔ f ∉ lru r.
Proof.
  intros Hs. unfold contains. rewrite bool_decide_eq_false.
  by rewrite synced_elem.
Qed.

(** The victim is the back of the list: among the candidates, the one
    whose [Unpin] is the oldest; the others stay as they are. *)
Lemma Victim_back c l f :
  f ∉ l -> Victim (of_list c (l ++ [f])) = (Some f, of_list c l).
Proof.
  intros Hf. unfold Victim, of_list; simpl. rewrite last_snoc.
  by rewrite removelast_last, list_to_set_snoc_remove.
Qed.

Lemma Victim_empty r : lru r = [] -> Victim r = (None, r).
Proof. intros H. unfold Victim. by rewrite H. Qed.

Lemma Victim_capacity r : capacity (Victim r).2 = capacity r.
Proof. unfold Victim. by destruct (last (lru r)). Qed.

Lemma Victim_lru r : lru (Victim r).2 = removelast (lru r).
Proof.
  unfold Victim. destruct (last (lru r)) eqn:E; simpl; [done|].
  apply last_None in E. by rewrite E.
Qed.

Lemma Victim_some r f r' :
  Victim r = (Some f, r') -> lru r = lru r' ++ [f] ∧ r' = (Victim r).2.
Proof.
  intros H. rewrite H. split; [|done]. revert H.
  unfold Victim. destruct (last (lru r)) eqn:E; [|done].
  intros [= <- <-]. simpl. by apply last_removelast.
Qed.

Lemma Victim_none r r' : Victim r = (None, r') -> lru r = [] ∧ r' = r.
Proof.
  unfold Victim. destruct (last (lru r)) eqn:E; [done|].
  intros [= <-]. split; [by apply last_None|done].
Qed.

Lemma Victim_synced r : synced r -> synced (Victim r).2.
Proof.
  intros [Hnd Hmap]. unfold Victim.
  destruct (last (lru r)) as [f|] eqn:E; simpl; [|done].
  apply last_Some in E as [l E]. rewrite E in Hnd.
  apply NoDup_app in Hnd as (Hnd & Hsep & _).
  split; simpl; rewrite ?Hmap, E, ?removelast_last; [done|].
  apply list_to_set_snoc_remove. intros Hf.
  apply (Hsep f Hf). by apply list_elem_of_singleton.
Qed.

End Victim.

Section Loop.

Lemma unpin_loop_capacity fuel r r' :
  unpin_loop fuel r = Some r' -> capacity r' = capacity r.
Proof.
  revert r. induction fuel as [|fuel IH]; intros r; simpl; [done|].
  case_bool_decide as Hge.
  - intros Hloop. apply IH in Hloop. by rewrite Victim_capacity in Hloop.
  - by intros [= <-].
Qed.

Lemma unpin_loop_synced fuel r r' :
  synced r -> unpin_loop fuel r = Some r' -> synced r'.
Proof.
  revert r. induction fuel as [|fuel IH]; intros r Hs; simpl; [done|].
  case_bool_decide as Hge.
  - apply IH. by apply Victim_synced.
  - by intros [= <-].
Qed.

(** With a threshold above zero the loop ends within
    [length (lru r) + 1] rounds and keeps the front of the list. *)
Lemma unpin_loop_spec fuel r :
  0 < size_t_wrap (capacity r - 1) ->
  (length (lru r) < fuel)%nat ->
  ∃ r', unpin_loop fuel r = Some r'
        ∧ lru r' = take (Z.to_nat (size_t_wrap (capacity r - 1)) - 1) (lru r).
Proof.
  intros Hthr. revert r Hthr.
  induction fuel as [|fuel IH]; intros r Hthr Hlen; [lia|].
  simpl. case_bool_decide as Hge.
  - destruct (IH (Victim r).2) as (r' & Hloop & Hlru).
    + by rewrite Victim_capacity.
    + rewrite Victim_lru, removelast_take, length_take. lia.
    + exists r'. split; [done|]. rewrite Hlru.
      rewrite Victim_capacity, Victim_lru, removelast_take, take_take.
      f_equal. rewrite Nat.min_l; [done|]. unfold size_t_wrap in *. lia.
  - exists r. split; [done|]. rewrite take_ge; [done|].
    unfold size_t_wrap in *; lia.
Qed.

(** More fuel never changes a result. *)
Lemma unpin_loop_enough fuel fuel' r r' :
  unpin_loop fuel r = Some r' -> (fuel ≤ fuel')%nat -> unpin_loop fuel' r = Some r'.
Proof.
  revert fuel' r. induction fuel as [|fuel IH]; intros fuel' r; simpl; [done|].
  intros H Hle. destruct fuel' as [|fuel']; [lia|]. simpl.
  case_bool_decide; [|done]. apply IH; [done|lia].
Qed.

(** With threshold zero ([capacity = 1]) the loop never ends: [Victim]
    on the empty list changes nothing and the test stays true. *)
Lemma unpin_loop_diverges fuel r :
  size_t_wrap (capacity r - 1) = 0 -> unpin_loop fuel r = None.
Proof.
  revert r. induction fuel as [|fuel IH]; intros r Hthr; simpl; [done|].
  rewrite bool_decide_eq_true_2 by lia.
  apply IH. by rewrite Victim_capacity.
Qed.

Lemma size_t_wrap_nonneg z : 0 ≤ size_t_wrap z.
Proof. unfold size_t_wrap. apply Z.mod_pos_bound. lia. Qed.

End Loop.

Section Unpin.

Lemma Unpin_present f r : f ∈ hashMap r -> Unpin f r = Some r.
Proof. intros H. unfold Unpin, contains. by rewrite bool_decide_eq_true_2. Qed.

Lemma Unpin_absent f r :
  f ∉ hashMap r -> 0 < size_t_wrap (capacity r - 1) ->
  ∃ r0,
    unpin_loop (S (length (lru r))) r = Some r0
    ∧ lru r0 = take (Z.to_nat (size_t_wrap (capacity r - 1)) - 1) (lru r)
    ∧ Unpin f r = Some (mk (capacity r) (f :: lru r0) ({[f]} ∪ hashMap r0)).
Proof.
  intros H Hthr. unfold Unpin, contains. rewrite bool_decide_eq_false_2 by done.
  destruct (unpin_loop_spec (S (length (lru r))) r Hthr) as (r0 & Hloop & Hlru); [lia|].
  exists r0. rewrite Hloop. repeat split; try done.
  by rewrite (unpin_loop_capacity _ _ _ Hloop).
Qed.

Lemma Unpin_diverges f r :
  f ∉ hashMap r -> size_t_wrap (capacity r - 1) = 0 -> Unpin f r = None.
Proof.
  intros H Hthr. unfold Unpin, contains. rewrite bool_decide_eq_false_2 by done.
  by rewrite unpin_loop_diverges.
Qed.

(** [None] is a loop that never ends: no fuel is enough. *)
Lemma Unpin_None_diverges f r :
  Unpin f r = None -> ∀ fuel, unpin_loop fuel r = None.
Proof.
  intros H fuel. apply unpin_loop_diverges.
  destruct (decide (size_t_wrap (capacity r - 1) = 0)) as [|Hnz]; [done|].
  destruct (decide (f ∈ hashMap r)) as [Hin|Hout].
  - by rewrite Unpin_present in H.
  - pose proof (size_t_wrap_nonneg (capacity r - 1)).
    destruct (Unpin_absent f r Hout) as (r0 & _ & _ & Hr0); [lia|congruence].
Qed.


(** What [Unpin] leaves, whenever it returns: the capacity is kept, the
    candidates are the frame itself, at the front, and a front part of
    the candidates of before. *)
Lemma Unpin_result f r r' :
  synced r -> Unpin f r = Some r' ->
  capacity r' = capacity r ∧ synced r'
  ∧ ((f ∈ lru r ∧ r' = r) ∨ ((f ∉ lru r) ∧ ∃ k, lru r' = f :: take k (lru r))).
Proof.
  intros Hs H. destruct (decide (f ∈ hashMap r)) as [Hin|Hout].
  - rewrite Unpin_present in H by done. injection H as <-.
    repeat split; try apply Hs. left. split; [|done]. by apply synced_elem.
  - destruct (decide (size_t_wrap (capacity r - 1) = 0)) as [Hz|Hnz].
    + by rewrite Unpin_diverges in H.
    + pose proof (size_t_wrap_nonneg (capacity r - 1)).
      destruct (Unpin_absent f r Hout) as (r0 & Hloop & Hlru & Hr0); [lia|].
      rewrite Hr0 in H. injection H as <-. simpl.
      assert (Hout' : f ∉ lru r) by (by rewrite <- synced_elem).
      destruct (unpin_loop_synced _ _ _ Hs Hloop) as [Hnd0 Hmap0].
      split; [done|]. split; [|right; split; [done|]; rewrite Hlru; eauto].
      split; simpl.
      * apply NoDup_cons. split; [|done]. rewrite Hlru. intros Hf.
        by apply Hout', (subseteq_take (Z.to_nat (size_t_wrap (capacity r - 1)) - 1)).
      * by rewrite Hmap0.
Qed.

End Unpin.

Section Pin.

Lemma erase_node_subseteq f l : erase_node f l ⊆ l.
Proof.
  induction l as [|x l IH]; simpl; [done|].
  destruct (decide (x = f)) as [_|_]; intros y Hy.
  - by right.
  - apply elem_of_cons in Hy as [->|Hy]; [by left|]. right. by apply IH.
Qed.

Lemma erase_node_NoDup f l : NoDup l -> NoDup (erase_node f l).
Proof.
  induction 1 as [|x l Hx Hl IH]; simpl; [constructor|].
  destruct (decide (x = f)); [done|]. constructor; [|done].
  intros Hin. apply Hx. by apply (erase_node_subseteq f).
Qed.

Lemma erase_node_not_elem f l : NoDup l -> f ∉ erase_node f l.
Proof.
  induction 1 as [|x l Hx Hl IH]; simpl; [apply not_elem_of_nil|].
  destruct (decide (x = f)) as [->|Hne]; [done|].
  apply not_elem_of_cons. split; [congruence|done].
Qed.

Lemma erase_node_other f g l : g ≠ f -> g ∈ l -> g ∈ erase_node f l.
Proof.
  intros Hne. induction l as [|x l IH]; simpl; [done|].
  intros [->|Hg]%elem_of_cons; destruct (decide (x = f)) as [Heq|_].
  - done.
  - by left.
  - done.
  - right. by apply IH.
Qed.

Lemma erase_node_to_set f l :
  NoDup l -> (list_to_set (erase_node f l) : gset nat) = list_to_set l ∖ {[f]}.
Proof.
  intros Hnd. apply set_eq. intros x.
  rewrite elem_of_difference, !elem_of_list_to_set, elem_of_singleton.
  split.
  - intros Hx. split; [by apply (erase_node_subseteq f)|].
    intros ->. by apply (erase_node_not_elem f l).
  - intros [Hx Hne]. by apply erase_node_other.
Qed.

Lemma Pin_subseteq f r : lru (Pin f r) ⊆ lru r.
Proof.
  unfold Pin. destruct (contains r f); simpl; [apply erase_node_subseteq|done].
Qed.

Lemma Pin_capacity f r : capacity (Pin f r) = capacity r.
Proof. unfold Pin. by destruct (contains r f). Qed.

Lemma Pin_synced f r : synced r -> synced (Pin f r).
Proof.
  intros [Hnd Hmap]. unfold Pin. destruct (contains r f); [|done].
  split; simpl; [by apply erase_node_NoDup|].
  by rewrite Hmap, erase_node_to_set.
Qed.

Lemma Pin_not_elem f r : synced r -> f ∉ lru (Pin f r).
Proof.
  intros Hs. unfold Pin. destruct (contains r f) eqn:E; simpl.
  - apply erase_node_not_elem, Hs.
  - by apply contains_false.
Qed.

Lemma Pin_absent f r : synced r -> f ∉ lru r -> Pin f r = r.
Proof. intros Hs H. unfold Pin. by rewrite (proj2 (contains_false r f Hs) H). Qed.

End Pin.

End LRUFacts.

(** * Reasoning about operations *)

Section Monad.
Context {A B : Type}.

Lemma bind_Ret (m : M A) (k : A -> M B) s b s' :
  (m ≫= k) s = Ret b s' -> ∃ a s1, m s = Ret a s1 ∧ k a s1 = Ret b s'.
Proof.
  unfold mbind, M_bind. destruct (m s) as [a s1|w]; [eauto|done].
Qed.

Lemma bind_eq (m : M A) (k : A -> M B) s a s1 :
  m s = Ret a s1 -> (m ≫= k) s = k a s1.
Proof. unfold mbind, M_bind. by intros ->. Qed.


End Monad.

Lemma page_Ret f s pg s' : page f s = Ret pg s' -> pages_ s !! f = Some pg ∧ s' = s.
Proof. unfold page. destruct (pages_ s !! f); [|done]. by intros [= <- <-]. Qed.

Lemma page_eq f s pg : pages_ s !! f = Some pg -> page f s = Ret pg s.
Proof. unfold page. by intros ->. Qed.

Lemma update_page_Ret f g s u s' :
  update_page f g s = Ret u s' ->
  ∃ pg, pages_ s !! f = Some pg ∧ s' = set_pages (<[f := g pg]> (pages_ s)) s.
Proof.
  unfold update_page. intros (pg & s1 & [Hpg ->]%page_Ret & H)%bind_Ret.
  injection H as <-. eauto.
Qed.

Lemma update_page_eq f g s pg :
  pages_ s !! f = Some pg ->
  update_page f g s = Ret tt (set_pages (<[f := g pg]> (pages_ s)) s).
Proof. intros H. unfold update_page. by rewrite (bind_eq _ _ _ _ _ (page_eq _ _ _ H)). Qed.

Lemma lock_Ret s u s' : lock s = Ret u s' -> latch_ s = false ∧ s' = set_latch true s.
Proof. unfold lock. destruct (latch_ s); [done|]. by intros [= <-]. Qed.

Lemma lock_eq s : latch_ s = false -> lock s = Ret tt (set_latch true s).
Proof. unfold lock. by intros ->. Qed.

Lemma replacer_Unpin_Ret f s u s' :
  replacer_Unpin f s = Ret u s' ->
  ∃ r, LRUReplacer.Unpin f (replacer_ s) = Some r ∧ s' = set_replacer r s.
Proof.
  unfold replacer_Unpin. destruct (LRUReplacer.Unpin f (replacer_ s)); [|done].
  intros [= <-]. eauto.
Qed.

(** Undoing [lock] gives the state back. *)
Lemma unlock_lock s : latch_ s = false -> set_latch false (set_latch true s) = s.
Proof. destruct s; simpl. by intros ->. Qed.

(** Inversion of a hypothesis [H : m s = Ret a s'] along the binds of
    [m]. *)
Ltac inv_prim H :=
  lazymatch type of H with
  | lock _ = Ret _ _ => apply lock_Ret in H as [? ->]
  | unlock _ = Ret _ _ => unfold unlock, modify in H; injection H as <- <-
  | get _ = Ret _ _ => unfold get in H; injection H as <- <-
  | modify _ _ = Ret _ _ => unfold modify in H; injection H as <- <-
  | emit _ _ = Ret _ _ => unfold emit, modify in H; injection H as <- <-
  | mret _ _ = Ret _ _ => unfold mret, M_ret in H; injection H as <- <-
  | table_set _ _ _ = Ret _ _ => unfold table_set, modify in H; injection H as <- <-
  | replacer_Pin _ _ = Ret _ _ => unfold replacer_Pin, modify in H; injection H as <- <-
  | DeallocatePage _ _ = Ret _ _ => unfold DeallocatePage, emit, modify in H; injection H as <- <-
  | page _ _ = Ret _ _ => apply page_Ret in H as [? ->]
  | update_page _ _ _ = Ret _ _ => apply update_page_Ret in H as (? & ? & ->)
  | replacer_Unpin _ _ = Ret _ _ => apply replacer_Unpin_Ret in H as (? & ? & ->)
  | stuck _ _ = Ret _ _ => discriminate H
  | Stuck _ = Ret _ _ => discriminate H
  end.

Ltac inv_step H :=
  first
    [ inv_prim H
    | let a := fresh "a" in
      let s := fresh "s" in
      let H1 := fresh "Hstep" in
      apply bind_Ret in H as (a & s & H1 & H); try inv_prim H1 ].

Ltac inv_M H := repeat inv_step H.

#[global] Arguments FindReplacePolicy : simpl never.
#[global] Arguments AllocatePage : simpl never.
#[global] Arguments FlushPgImp : simpl never.
#[global] Arguments evict_state : simpl never.

(** Forward evaluation of the steps that always return. *)
Ltac mred_in H :=
  unfold DeallocatePage, table_erase, emit, unlock, lock, table_set, replacer_Pin,
         replacer_Unpin, update_page, page,
         modify, get, stuck, mbind, M_bind, mret, M_ret in H;
  cbn in H.
Ltac mred :=
  unfold DeallocatePage, table_erase, emit, unlock, lock, table_set, replacer_Pin,
         replacer_Unpin, update_page, page,
         modify, get, stuck, mbind, M_bind, mret, M_ret;
  cbn.

(** * The invariant is kept by every change of the state *)

Section Consistency.
Import LRUReplacer.
Implicit Types (s : BufferPoolManagerInstance) (f g : frame_id_t) (p : page_id_t).

Lemma insert_page_lookup (pages : list Page) f g pg' x :
  <[f := pg']> pages !! g = Some x ->
  (g = f ∧ x = pg') ∨ (g ≠ f ∧ pages !! g = Some x).
Proof.
  intros H. destruct (decide (g = f)) as [->|Hne].
  - left. split; [done|].
    destruct (decide (f < length pages)%nat) as [Hlt|Hge].
    + rewrite list_lookup_insert_eq in H by done. by injection H.
    + rewrite list_insert_ge in H by lia.
      apply lookup_lt_Some in H. lia.
  - right. by rewrite list_lookup_insert_ne in H.
Qed.

Lemma insert_page_is_Some (pages : list Page) f g pg' x :
  pages !! g = Some x ->
  ∃ y, <[f := pg']> pages !! g = Some y ∧ (g = f -> y = pg') ∧ (g ≠ f -> y = x).
Proof.
  intros H. destruct (decide (g = f)) as [->|Hne].
  - exists pg'. rewrite list_lookup_insert_eq by (by eapply lookup_lt_Some).
    split; [done|]. split; [done|congruence].
  - exists x. rewrite list_lookup_insert_ne by done.
    split; [done|]. split; [congruence|done].
Qed.

Lemma consistent_set_latch b s : consistent s -> consistent (set_latch b s).
Proof. intros []. by constructor. Qed.

Lemma consistent_set_trace tr s : consistent s -> consistent (set_trace tr s).
Proof. intros []. by constructor. Qed.

Lemma consistent_set_next s :
  consistent s ->
  consistent (set_next_page_id (next_page_id_ s + num_instances_ s) s).
Proof.
  intros []. constructor; try done. simpl.
  destruct c_alloc0 as (HN & Hi & Hmod & Hle).
  repeat split; try lia.
  replace (next_page_id_ s + num_instances_ s)
    with (next_page_id_ s + 1 * num_instances_ s) by lia.
  by rewrite Z_mod_plus_full.
Qed.

Lemma consistent_free_pop s f rest :
  consistent s -> free_list_ s = f :: rest -> consistent (set_free_list rest s).
Proof.
  intros [] Hfree. constructor; try done; simpl.
  - rewrite Hfree in c_free_NoDup0. by apply NoDup_cons_1_2 in c_free_NoDup0.
  - intros g Hg. apply c_free0. rewrite Hfree. by apply elem_of_cons; right.
Qed.

Lemma consistent_free_push s f pg :
  consistent s ->
  f ∉ free_list_ s ->
  pages_ s !! f = Some pg -> pin_count_ pg = 0 ->
  (∀ p, page_table_ s !! p ≠ Some f) ->
  consistent (set_free_list (free_list_ s ++ [f]) s).
Proof.
  intros [] Hnew Hpg Hpin Htable. constructor; try done; simpl.
  - apply NoDup_app. split; [done|]. split; [|apply NoDup_singleton].
    intros g Hg ->%list_elem_of_singleton. done.
  - intros g [Hg| ->%list_elem_of_singleton]%elem_of_app; [by apply c_free0|].
    split; [eauto|done].
Qed.

Lemma consistent_table_delete s p :
  consistent s -> consistent (set_page_table (delete p (page_table_ s)) s).
Proof.
  intros []. constructor; try done; simpl.
  - intros f Hf. destruct (c_free0 f Hf) as [Hpg Hno]. split; [done|].
    intros q Hq. apply lookup_delete_Some in Hq as [_ Hq]. by apply (Hno q).
  - intros q f Hq. apply lookup_delete_Some in Hq as [_ Hq]. by apply c_table0.
  - intros Hone. destruct (c_one0 Hone) as [Hl Hpins]. split; [done|].
    intros q f pg Hq. apply lookup_delete_Some in Hq as [_ Hq]. by apply (Hpins q).
Qed.

Lemma consistent_table_insert s p f pg :
  consistent s ->
  pages_ s !! f = Some pg -> page_id_ pg = p ->
  f ∉ free_list_ s ->
  (pool_size_ s = 1%nat -> 1 ≤ pin_count_ pg) ->
  consistent (set_page_table (<[p := f]> (page_table_ s)) s).
Proof.
  intros [] Hpg Hid Hfree Hpin. constructor; try done; simpl.
  - intros g Hg. destruct (c_free0 g Hg) as [Hg' Hno]. split; [done|].
    intros q Hq. apply lookup_insert_Some in Hq as [[_ ->]|[_ Hq]]; [done|].
    by apply (Hno q).
  - intros q g Hq. apply lookup_insert_Some in Hq as [[<- <-]|[_ Hq]]; [eauto|].
    by apply c_table0.
  - intros Hone. destruct (c_one0 Hone) as [Hl Hpins]. split; [done|].
    intros q g pg' Hq Hg. apply lookup_insert_Some in Hq as [[<- <-]|[_ Hq]].
    + rewrite Hpg in Hg. injection Hg as <-. by apply Hpin.
    + by eapply Hpins.
Qed.

Lemma consistent_set_replacer s r :
  consistent s ->
  capacity r = capacity (replacer_ s) ->
  synced r ->
  (∀ g, g ∈ lru r -> ∃ pg, pages_ s !! g = Some pg ∧ pin_count_ pg = 0) ->
  (pool_size_ s = 1%nat -> lru r = []) ->
  consistent (set_replacer r s).
Proof.
  intros [] Hcap Hnd Hpins Hone. constructor; try done; simpl.
  - by rewrite Hcap.
  - intros H1. split; [by apply Hone|]. by apply c_one0.
Qed.

Lemma consistent_set_page s f pg' :
  consistent s ->
  0 ≤ pin_count_ pg' ->
  (f ∈ free_list_ s -> pin_count_ pg' = 0) ->
  (f ∈ lru (replacer_ s) -> pin_count_ pg' = 0) ->
  (∀ p, page_table_ s !! p = Some f ->
        page_id_ pg' = p ∧ (pool_size_ s = 1%nat -> 1 ≤ pin_count_ pg')) ->
  consistent (set_pages (<[f := pg']> (pages_ s)) s).
Proof.
  intros [] Hpin Hfree Hlru Htable. constructor; try done; simpl.
  - by rewrite length_insert.
  - intros g Hg. destruct (c_free0 g Hg) as [(x & Hx & Hx0) Hno]. split; [|done].
    destruct (insert_page_is_Some _ f g pg' x Hx) as (y & Hy & Heq & Hne).
    exists y. split; [done|].
    destruct (decide (g = f)) as [->|Hgf].
    + rewrite (Heq eq_refl). by apply Hfree.
    + by rewrite (Hne Hgf).
  - intros p g Hp. destruct (c_table0 p g Hp) as (x & Hx & Hxid).
    destruct (insert_page_is_Some _ f g pg' x Hx) as (y & Hy & Heq & Hne).
    exists y. split; [done|].
    destruct (decide (g = f)) as [->|Hgf].
    + rewrite (Heq eq_refl). by destruct (Htable p Hp).
    + by rewrite (Hne Hgf).
  - intros g Hg. destruct (c_lru0 g Hg) as (x & Hx & Hx0).
    destruct (insert_page_is_Some _ f g pg' x Hx) as (y & Hy & Heq & Hne).
    exists y. split; [done|].
    destruct (decide (g = f)) as [->|Hgf].
    + rewrite (Heq eq_refl). by apply Hlru.
    + by rewrite (Hne Hgf).
  - intros g x Hx. apply insert_page_lookup in Hx as [[-> ->]|[_ Hx]]; [done|].
    by eapply c_pin0.
  - intros Hone. destruct (c_one0 Hone) as [Hl Hpins]. split; [done|].
    intros p g x Hp Hx. apply insert_page_lookup in Hx as [[-> ->]|[_ Hx]].
    + destruct (Htable p Hp) as [_ H1]. by apply H1.
    + by eapply Hpins.
Qed.

End Consistency.

(** The lemmas above, applied to a goal about a state that an operation
    has built. *)
Ltac c_step :=
  lazymatch goal with
  | |- consistent (set_latch ?b ?s) => refine (consistent_set_latch b s _)
  | |- consistent (set_trace ?t ?s) => refine (consistent_set_trace t s _)
  | |- consistent (set_page_table (delete ?p _) ?s) =>
      refine (consistent_table_delete s p _)
  | |- consistent (set_page_table (<[?p := ?f]> _) ?s) =>
      refine (consistent_table_insert s p f _ _ _ _ _ _)
  | |- consistent (set_pages (<[?f := ?pg]> _) ?s) =>
      refine (consistent_set_page s f pg _ _ _ _ _)
  | |- consistent (set_replacer ?r ?s) =>
      refine (consistent_set_replacer s r _ _ _ _ _)
  | |- consistent (set_next_page_id _ ?s) =>
      refine (consistent_set_next s _)
  end.

(** * What each operation does *)

Section FindReplace.
Import LRUReplacer.

(** The four ways [FindReplacePolicy] returns. *)
Lemma FindReplacePolicy_cases s r s' :
  FindReplacePolicy s = Ret r s' ->
  (∃ f rest, free_list_ s = f :: rest ∧ r = Some f ∧ s' = set_free_list rest s)
  ∨ (free_list_ s = [] ∧ lru (replacer_ s) = [] ∧ r = None ∧ s' = s)
  ∨ (∃ f l, free_list_ s = [] ∧ lru (replacer_ s) = l ++ [f]
            ∧ find_page_of (page_table_ s) f = -1
            ∧ r = None ∧ s' = set_replacer (Victim (replacer_ s)).2 s)
  ∨ (∃ f l pg, free_list_ s = [] ∧ lru (replacer_ s) = l ++ [f]
               ∧ find_page_of (page_table_ s) f ≠ -1
               ∧ pages_ s !! f = Some pg
               ∧ r = Some f ∧ s' = evict_state s f pg).
Proof.
  intros H. unfold FindReplacePolicy in H. mred_in H.
  destruct (free_list_ s) as [|f rest] eqn:Hfree.
  - destruct (Victim (replacer_ s)) as [[f|] r0] eqn:Hv.
    + destruct (LRUFacts.Victim_some _ _ _ Hv) as [Hl Hr0].
      mred_in H.
      destruct (decide (find_page_of (page_table_ s) f ≠ -1)) as [Hfound|Hnot].
      * right. right. right. cbn in H.
        destruct (pages_ s !! f) as [pg|] eqn:Hpg; [|done].
        exists f, (lru r0), pg. repeat (split; [done|]).
        unfold evict_state. rewrite Hv. cbn in H.
        destruct (is_dirty_ pg) eqn:Hd; cbn in H.
        -- rewrite Hpg in H. injection H as <- <-. split; [done|]. cbn. by rewrite Hd.
        -- injection H as <- <-. by split.
      * right. right. left. injection H as <- <-.
        exists f, (lru r0). repeat (split; [done|]).
        split; [by apply dec_stable|]. by split.
    + right. left. injection H as <- <-. repeat (split; [done|]).
      by apply LRUFacts.Victim_none in Hv as [? _].
  - left. injection H as <- <-. eauto.
Qed.

Lemma snoc_not_nil {X} (l : list X) x : l ++ [x] ≠ [].
Proof. by destruct l. Qed.

(** The replacer after [Victim], in a consistent state. *)
Lemma consistent_Victim s :
  consistent s -> consistent (set_replacer (Victim (replacer_ s)).2 s).
Proof.
  intros Hc. apply consistent_set_replacer; try done.
  - apply LRUFacts.Victim_capacity.
  - apply LRUFacts.Victim_synced, (c_synced _ Hc).
  - intros g Hg. apply (c_lru _ Hc). rewrite LRUFacts.Victim_lru in Hg.
    rewrite LRUFacts.removelast_take in Hg. by eapply subseteq_take.
  - intros Hone. destruct (c_one _ Hc Hone) as [Hnil _].
    by rewrite LRUFacts.Victim_lru, Hnil.
Qed.

(** [FindReplacePolicy] keeps the invariant, and the frame it returns
    is free for the caller to use. *)
Lemma FindReplacePolicy_consistent s r s' :
  consistent s -> FindReplacePolicy s = Ret r s' ->
  consistent s' ∧ latch_ s' = latch_ s ∧ ∀ f, r = Some f -> taken f s'.
Proof.
  intros Hc H.
  apply FindReplacePolicy_cases in H
    as [(f & rest & Hfree & -> & ->)
       |[(Hfree & Hl & -> & ->)
        |[(f & l & Hfree & Hl & Hnot & -> & ->)
         |(f & l & pg & Hfree & Hl & Hfound & Hpg & -> & ->)]]].
  - split; [by eapply consistent_free_pop|]. split; [done|].
    intros ? [= <-]. pose proof (c_free_NoDup _ Hc) as Hnd.
    rewrite Hfree in Hnd. apply NoDup_cons in Hnd as [Hf _].
    destruct (c_free _ Hc f) as [Hpin Htab]; [rewrite Hfree; by left|].
    by repeat split.
  - done.
  - split; [|done]. by apply consistent_Victim.
  - assert (Hmore : pool_size_ s ≠ 1%nat).
    { intros Hone. destruct (c_one _ Hc Hone) as [Hnil _].
      rewrite Hl in Hnil. by apply snoc_not_nil in Hnil. }
    assert (Hf0 : pin_count_ pg = 0).
    { destruct (c_lru _ Hc f) as (x & Hx & Hx0).
      - rewrite Hl. apply elem_of_app; right. by apply list_elem_of_singleton.
      - congruence. }
    assert (Hid : ∀ p, page_table_ s !! p = Some f -> page_id_ pg = p).
    { intros p Hp. destruct (c_table _ Hc p f Hp) as (x & Hx & Hxid). congruence. }
    pose proof (consistent_Victim s Hc) as Hc1.
    split; [|split; [unfold evict_state; by destruct (is_dirty_ pg)|]].
    + unfold evict_state. cbv zeta.
      destruct (is_dirty_ pg); do 2 c_step; [|done].
      c_step; simpl; try done.
      * by c_step.
      * intros p Hp. split; [by apply Hid|done].
    + intros ? [= <-]. unfold taken, evict_state. simpl. split; [|split].
      * destruct (is_dirty_ pg); simpl; rewrite Hfree; apply not_elem_of_nil.
      * intros p Hp.
        assert (page_table_ s !! p = Some f ∧ p ≠ page_id_ pg) as [Hp' Hne].
        { destruct (is_dirty_ pg); simpl in Hp;
            apply lookup_delete_Some in Hp as [? ?]; done. }
        by apply Hne, eq_sym, Hid.
      * destruct (is_dirty_ pg); simpl; [|eauto].
        eexists. split; [apply list_lookup_insert_eq; by eapply lookup_lt_Some|].
        reflexivity.
Qed.

End FindReplace.

(** * Every operation keeps the invariant *)

Section Preservation.
Import LRUReplacer.

Lemma FlushPgImp_cases p s b s' :
  FlushPgImp p s = Ret b s' ->
  latch_ s = false
  ∧ ((b = false ∧ s' = s ∧ (page_table_ s !! p = None ∨ p = INVALID_PAGE_ID))
     ∨ (∃ f pg, b = true ∧ page_table_ s !! p = Some f ∧ p ≠ INVALID_PAGE_ID
                ∧ pages_ s !! f = Some pg
                ∧ s' = set_trace (trace_ s ++ [EvWritePage p (data_ pg)]) s)).
Proof.
  intros H. unfold FlushPgImp in H. mred_in H.
  destruct (latch_ s) eqn:Hlatch; [done|]. split; [done|]. cbn in H.
  destruct (page_table_ s !! p) as [f|] eqn:Hp; cbn in H.
  - destruct (decide (p = INVALID_PAGE_ID)) as [->|Hne]; cbn in H.
    + injection H as <- <-. left. rewrite unlock_lock by done. eauto.
    + destruct (pages_ s !! f) as [pg|] eqn:Hpg; cbn in H; [|done].
      injection H as <- <-. right. exists f, pg. repeat (split; [done|]).
      destruct s; simpl in *. by subst.
  - injection H as <- <-. left. rewrite unlock_lock by done. eauto.
Qed.

Lemma FlushPgImp_wf p s b s' : wf s -> FlushPgImp p s = Ret b s' -> wf s'.
Proof.
  intros [Hc Hl] H.
  apply FlushPgImp_cases in H as [_ [(-> & -> & _)|(f & pg & -> & _ & _ & _ & ->)]].
  - done.
  - split; [by c_step|done].
Qed.

Lemma FlushAllPgs_loop_wf frames s u s' :
  wf s -> FlushAllPgs_loop frames s = Ret u s' -> wf s'.
Proof.
  revert s. induction frames as [|i frames IH]; intros s Hwf H; simpl in H.
  - mred_in H. by injection H as <- <-.
  - mred_in H. destruct (pages_ s !! i) as [pg|]; [|done]. cbn in H.
    destruct (FlushPgImp (page_id_ pg) s) as [b s1|] eqn:Hflush; [|done].
    eapply IH; [|exact H]. by eapply FlushPgImp_wf.
Qed.

Lemma FlushAllPgsImp_wf s u s' : wf s -> FlushAllPgsImp s = Ret u s' -> wf s'.
Proof.
  intros Hwf H. unfold FlushAllPgsImp in H. mred_in H.
  by eapply FlushAllPgs_loop_wf.
Qed.

Lemma client_write_wf f d s u s' : wf s -> client_write f d s = Ret u s' -> wf s'.
Proof.
  intros [Hc Hl] H. unfold client_write in H. mred_in H. injection H as <- <-.
  destruct (pages_ s !! f) as [pg|] eqn:Hpg; [|done].
  split; [|done]. c_step; simpl; try done.
  - by eapply c_pin.
  - intros Hf. destruct (c_free _ Hc f Hf) as [(x & Hx & Hx0) _]. congruence.
  - intros Hf. destruct (c_lru _ Hc f Hf) as (x & Hx & Hx0). congruence.
  - intros p Hp. destruct (c_table _ Hc p f Hp) as (x & Hx & Hxid).
    split; [congruence|]. intros Hone.
    destruct (c_one _ Hc Hone) as [_ Hpins]. by eapply Hpins.
Qed.

(** Writing the frame of a resident page. *)
Lemma consistent_set_resident s p f pg' :
  consistent s ->
  page_table_ s !! p = Some f ->
  page_id_ pg' = p ->
  0 ≤ pin_count_ pg' ->
  (f ∈ lru (replacer_ s) -> pin_count_ pg' = 0) ->
  (pool_size_ s = 1%nat -> 1 ≤ pin_count_ pg') ->
  consistent (set_pages (<[f := pg']> (pages_ s)) s).
Proof.
  intros Hc Hp Hid Hpin Hlru Hone. apply consistent_set_page; try done.
  - intros Hf. destruct (c_free _ Hc f Hf) as [_ Hno]. by destruct (Hno p).
  - intros q Hq. split; [|done].
    destruct (c_table _ Hc p f Hp) as (x & Hx & Hxid).
    destruct (c_table _ Hc q f Hq) as (y & Hy & Hyid). congruence.
Qed.

(** In a pool of one frame [Unpin] of an absent frame never returns. *)
Lemma Unpin_one_frame s f r :
  consistent s -> Unpin f (replacer_ s) = Some r ->
  f ∉ lru (replacer_ s) -> pool_size_ s ≠ 1%nat.
Proof.
  intros Hc Hu Hf Hone. destruct (c_capacity _ Hc) as [Hcap _].
  rewrite LRUFacts.Unpin_diverges in Hu; [done| |].
  - by rewrite (LRUFacts.synced_elem _ _ (c_synced _ Hc)).
  - rewrite Hcap, Hone. reflexivity.
Qed.

(** [replacer_->Unpin(f)] for a frame that is not pinned. *)
Lemma consistent_Unpin s f r pg :
  consistent s ->
  pages_ s !! f = Some pg -> pin_count_ pg = 0 ->
  Unpin f (replacer_ s) = Some r ->
  consistent (set_replacer r s).
Proof.
  intros Hc Hpg Hpin Hu.
  destruct (LRUFacts.Unpin_result _ _ _ (c_synced _ Hc) Hu)
    as (Hcap & Hs' & [[Hin ->]|[Hout [k Hk]]]).
  { by destruct s. }
  apply consistent_set_replacer; try done.
  - intros g. rewrite Hk. intros [->|Hg]%elem_of_cons; [eauto|].
    by apply (c_lru _ Hc), (subseteq_take k).
  - intros Hone. by destruct (Unpin_one_frame s f r).
Qed.

Lemma UnpinPgImp_wf p d s b s' : wf s -> UnpinPgImp p d s = Ret b s' -> wf s'.
Proof.
  intros [Hc Hl] H. unfold UnpinPgImp in H. mred_in H.
  rewrite Hl in H. cbn in H.
  destruct (page_table_ s !! p) as [f|] eqn:Hp; cbn in H;
    [|injection H as <- <-; by rewrite unlock_lock].
  destruct (c_table _ Hc p f Hp) as (pg & Hpg & Hid).
  pose proof (c_pin _ Hc f pg Hpg) as Hpin0.
  assert (Hlt : (f < length (pages_ s))%nat) by (by eapply lookup_lt_Some).
  (* the frame after the dirty flag is set *)
  set (pgd := if d then mkPage (data_ pg) (page_id_ pg) (pin_count_ pg) true else pg).
  set (s1 := if d then set_pages (<[f := pgd]> (pages_ s)) s else s).
  assert (Hc1 : consistent s1).
  { unfold s1, pgd. destruct d; [|done].
    eapply consistent_set_resident; simpl; eauto.
    - intros Hf. destruct (c_lru _ Hc f Hf) as (x & Hx & Hx0). congruence.
    - intros Hone. destruct (c_one _ Hc Hone) as [_ Hpins]. by eapply Hpins. }
  assert (Hpg1 : pages_ s1 !! f = Some pgd).
  { unfold s1, pgd. destruct d; [|done]. simpl. by apply list_lookup_insert_eq. }
  assert (Hpind : pin_count_ pgd = pin_count_ pg) by (unfold pgd; by destruct d).
  assert (Hidd : page_id_ pgd = p) by (unfold pgd; by destruct d).
  assert (Hp1 : page_table_ s1 !! p = Some f) by (unfold s1; by destruct d).
  assert (Hl1 : latch_ s1 = false) by (unfold s1; by destruct d).
  assert (H' :
    (pg' ← page f;
     if decide (pin_count_ pg' = 0) then
       replacer_Unpin f;; unlock;; mret false
     else
       update_page f (fun pg => mkPage (data_ pg) (page_id_ pg) (pin_count_ pg - 1)
                                       (is_dirty_ pg));;
       pg'' ← page f;
       (if decide (pin_count_ pg'' = 0) then replacer_Unpin f else mret tt);;
       unlock;; mret true) (set_latch true s1) = Ret b s').
  { unfold s1, pgd. destruct d; mred; cbn; cbn in H.
    - rewrite Hpg in H. exact H.
    - exact H. }
  clear H. mred_in H'. rewrite Hpg1 in H'. cbn in H'. rewrite Hpind in H'.
  destruct (decide (pin_count_ pg = 0)) as [Hz|Hnz]; cbn in H'.
  - destruct (Unpin f (replacer_ s1)) as [r|] eqn:Hu; cbn in H'; [|done].
    injection H' as <- <-. split; [|done]. c_step.
    refine (consistent_Unpin (set_latch true s1) f r pgd _ Hpg1 _ Hu);
      [by c_step|congruence].
  - rewrite Hpg1 in H'. cbn in H'.
    rewrite list_lookup_insert_eq in H' by (by eapply lookup_lt_Some).
    cbn in H'. rewrite Hpind in H'.
    assert (Hnotin : f ∉ lru (replacer_ s1)).
    { intros Hf. destruct (c_lru _ Hc1 f Hf) as (x & Hx & Hx0). congruence. }
    destruct (decide (pin_count_ pg - 1 = 0)) as [Hz'|Hnz']; cbn in H'.
    + destruct (Unpin f (replacer_ s1)) as [r|] eqn:Hu; cbn in H'; [|done].
      injection H' as <- <-. split; [|done].
      pose proof (Unpin_one_frame _ _ _ Hc1 Hu Hnotin) as Hmany.
      c_step.
      refine (consistent_Unpin (set_pages _ (set_latch true s1)) f r _ _ _ _ Hu).
      * refine (consistent_set_resident (set_latch true s1) p f _ _ Hp1 _ _ _ _);
          simpl; [by c_step|done|lia|done|done].
      * simpl. apply list_lookup_insert_eq. by eapply lookup_lt_Some.
      * done.
    + injection H' as <- <-. split; [|done]. c_step.
      refine (consistent_set_resident (set_latch true s1) p f _ _ Hp1 _ _ _ _);
        simpl; [by c_step|done|lia|done|lia].
Qed.

(** A second [lock] by the thread that holds the latch: [FlushPgImp]
    called from inside another operation never returns. *)
Lemma FlushPgImp_locked p s : latch_ s = true -> FlushPgImp p s = Stuck Deadlock.
Proof. intros H. unfold FlushPgImp. mred. by rewrite H. Qed.

(** No other page maps to the frame of a resident page. *)
Lemma table_frame_unique s p q f :
  consistent s -> page_table_ s !! p = Some f -> page_table_ s !! q = Some f -> q = p.
Proof.
  intros Hc Hp Hq.
  destruct (c_table _ Hc p f Hp) as (x & Hx & Hxid).
  destruct (c_table _ Hc q f Hq) as (y & Hy & Hyid). congruence.
Qed.

Lemma DeletePgImp_wf p s b s' : wf s -> DeletePgImp p s = Ret b s' -> wf s'.
Proof.
  intros [Hc Hl] H. unfold DeletePgImp in H. mred_in H.
  rewrite Hl in H. cbn in H.
  destruct (page_table_ s !! p) as [f|] eqn:Hp; cbn in H;
    [|injection H as <- <-; by rewrite unlock_lock].
  destruct (c_table _ Hc p f Hp) as (pg & Hpg & Hid).
  rewrite Hpg in H. cbn in H.
  destruct (decide (pin_count_ pg > 0)) as [Hpos|Hzero]; cbn in H;
    [injection H as <- <-; by rewrite unlock_lock|].
  destruct (is_dirty_ pg) eqn:Hd; cbn in H.
  { by rewrite FlushPgImp_locked in H. }
  rewrite Hpg in H. cbn in H. injection H as <- <-. split; [|done].
  assert (Hfree : f ∉ free_list_ s).
  { intros Hf. destruct (c_free _ Hc f Hf) as [_ Hno]. by destruct (Hno p). }
  assert (Hgone : ∀ q, delete p (page_table_ s) !! q ≠ Some f).
  { intros q [Hne Hq]%lookup_delete_Some.
    apply Hne. symmetry. by eapply table_frame_unique. }
  c_step.
  refine (consistent_free_push
            (set_pages _ (set_page_table _ (set_trace _ (set_latch true s))))
            f (mkPage (data_ pg) INVALID_PAGE_ID 0 false) _ Hfree _ _ Hgone);
    simpl; [|apply list_lookup_insert_eq; by eapply lookup_lt_Some|done].
  c_step; simpl; try done.
  - do 2 c_step. by c_step.
  - intros q Hq. by destruct (Hgone q).
Qed.

(** [replacer_->Pin(f)] *)
Lemma consistent_Pin s f :
  consistent s -> consistent (set_replacer (Pin f (replacer_ s)) s).
Proof.
  intros Hc. apply consistent_set_replacer; try done.
  - apply LRUFacts.Pin_capacity.
  - apply LRUFacts.Pin_synced, (c_synced _ Hc).
  - intros g Hg. by apply (c_lru _ Hc), (LRUFacts.Pin_subseteq f).
  - intros Hone. destruct (c_one _ Hc Hone) as [Hnil _].
    pose proof (LRUFacts.Pin_subseteq f (replacer_ s)) as Hsub.
    rewrite Hnil in Hsub. destruct (lru (Pin f (replacer_ s))) as [|x l]; [done|].
    destruct (not_elem_of_nil x). apply Hsub. by left.
Qed.

Lemma AllocatePage_cases s p s' :
  AllocatePage s = Ret p s' ->
  p = next_page_id_ s
  ∧ next_page_id_ s `mod` num_instances_ s = instance_index_ s
  ∧ s' = set_next_page_id (next_page_id_ s + num_instances_ s) s.
Proof.
  unfold AllocatePage, ValidatePageId. mred. intros H.
  destruct (decide (next_page_id_ s `mod` num_instances_ s = instance_index_ s));
    [|done].
  by injection H as <- <-.
Qed.

Lemma AllocatePage_eq s :
  next_page_id_ s `mod` num_instances_ s = instance_index_ s ->
  AllocatePage s
  = Ret (next_page_id_ s) (set_next_page_id (next_page_id_ s + num_instances_ s) s).
Proof.
  intros H. unfold AllocatePage, ValidatePageId. mred.
  by rewrite decide_True.
Qed.

(** The first loop of [NewPgImp] only reads. *)
Lemma all_pinned_loop_state frames s b s' :
  all_pinned_loop frames s = Ret b s' -> s' = s.
Proof.
  revert s. induction frames as [|i frames IH]; intros s H; simpl in H; mred_in H.
  - by injection H as <- <-.
  - destruct (pages_ s !! i) as [pg|]; cbn in H; [|done].
    destruct (decide (pin_count_ pg = 0)); [by injection H as <- <-|].
    by apply IH.
Qed.

Lemma FetchPgImp_wf p s r s' : wf s -> FetchPgImp p s = Ret r s' -> wf s'.
Proof.
  intros [Hc Hl] H. unfold FetchPgImp in H. mred_in H.
  rewrite Hl in H. cbn in H.
  destruct (page_table_ s !! p) as [f|] eqn:Hp; cbn in H.
  - (* the page is resident *)
    destruct (c_table _ Hc p f Hp) as (pg & Hpg & Hid).
    rewrite Hpg in H. cbn in H. injection H as <- <-. split; [|done].
    pose proof (c_pin _ Hc f pg Hpg) as Hpin.
    pose proof (consistent_Pin (set_latch true s) f (consistent_set_latch _ _ Hc)) as HA.
    assert (HB := consistent_set_resident _ p f
             (mkPage (data_ pg) (page_id_ pg) (pin_count_ pg + 1) (is_dirty_ pg))
             HA Hp Hid).
    c_step. apply HB; simpl; [lia| |lia].
    intros Hin. by destruct (LRUFacts.Pin_not_elem f _ (c_synced _ Hc)).
  - (* the page is read into a frame *)
    destruct (FindReplacePolicy (set_latch true s)) as [[f|] s1|] eqn:Hfind;
      cbn in H; [| |done].
    2:{ injection H as <- <-.
        apply FindReplacePolicy_consistent in Hfind as (Hc1 & _ & _);
          [|by c_step].
        split; [by c_step|done]. }
    apply FindReplacePolicy_consistent in Hfind as (Hc1 & _ & Htaken);
      [|by c_step].
    destruct (Htaken f eq_refl) as (Hfree & Hnone & pg & Hpg & Hpin).
    rewrite Hpg in H. cbn in H.
    assert (H' : ∃ tr tr',
      s' = set_latch false
             (set_replacer (Pin f (replacer_ s1))
                (set_pages (<[f := mkPage (disk_contents tr' p) p (pin_count_ pg + 1) false]>
                              (pages_ s1))
                   (set_trace tr'
                      (set_page_table (<[p := f]> (delete (page_id_ pg) (page_table_ s1)))
                         (set_trace tr s1)))))).
    { destruct (is_dirty_ pg); cbn in H; rewrite Hpg in H; cbn in H;
        injection H as <- <-; eauto. }
    clear H. destruct H' as (tr & tr' & ->). split; [|done].
    pose proof (consistent_Pin s1 f Hc1) as HA.
    pose proof (consistent_table_delete _ (page_id_ pg) HA) as HB.
    assert (HC := consistent_set_page _ f
                    (mkPage (disk_contents tr' p) p (pin_count_ pg + 1) false) HB).
    simpl in HC.
    assert (HD := consistent_table_insert _ p f
                    (mkPage (disk_contents tr' p) p (pin_count_ pg + 1) false)
                    (HC ltac:(lia) ltac:(done)
                        ltac:(intros Hin;
                              by destruct (LRUFacts.Pin_not_elem f _ (c_synced _ Hc1)))
                        ltac:(intros q [_ Hq]%lookup_delete_Some;
                              by destruct (Hnone q)))).
    simpl in HD.
    c_step.
    refine (consistent_set_trace tr' _ (consistent_set_trace tr _ (HD _ _ _ _))).
    + apply list_lookup_insert_eq. by eapply lookup_lt_Some.
    + done.
    + done.
    + lia.
Qed.

Lemma NewPgImp_wf s r s' : wf s -> NewPgImp s = Ret r s' -> wf s'.
Proof.
  intros [Hc Hl] H. unfold NewPgImp in H. mred_in H.
  rewrite Hl in H. cbn in H.
  destruct (AllocatePage (set_latch true s)) as [new_page_id s1|] eqn:Halloc;
    cbn in H; [|done].
  apply AllocatePage_cases in Halloc as (-> & _ & ->). cbn in H.
  match type of H with
  | context [all_pinned_loop ?l ?s0] =>
      destruct (all_pinned_loop l s0) as [is_all s1|] eqn:Hloop; cbn in H; [|done]
  end.
  apply all_pinned_loop_state in Hloop as ->.
  assert (Hc0 : consistent
                  (set_next_page_id (next_page_id_ s + num_instances_ s)
                     (set_latch true s))).
  { refine (consistent_set_next (set_latch true s) _). by c_step. }
  destruct is_all; cbn in H.
  { injection H as <- <-. split; [by c_step|done]. }
  match type of H with
  | context [FindReplacePolicy ?s0] =>
      destruct (FindReplacePolicy s0) as [[f|] s1|] eqn:Hfind; cbn in H; [| |done]
  end.
  2:{ injection H as <- <-.
      apply FindReplacePolicy_consistent in Hfind as (Hc1 & _ & _); [|done].
      split; [by c_step|done]. }
  apply FindReplacePolicy_consistent in Hfind as (Hc1 & _ & Htaken); [|done].
  destruct (Htaken f eq_refl) as (Hfree & Hnone & pg & Hpg & Hpin).
  assert (Hlt : (f < length (pages_ s1))%nat) by (by eapply lookup_lt_Some).
  rewrite Hpg in H. cbn in H.
  rewrite list_lookup_insert_eq in H by done. cbn in H.
  rewrite list_lookup_insert_eq in H by (by rewrite length_insert). cbn in H.
  injection H as <- <-. split; [|done].
  set (pg1 := mkPage (data_ pg) (next_page_id_ s) (pin_count_ pg + 1) (is_dirty_ pg)).
  set (pg2 := mkPage (data_ pg) (next_page_id_ s) (pin_count_ pg + 1) false).
  pose proof (consistent_Pin s1 f Hc1) as HA.
  assert (Hnotin : f ∉ lru (Pin f (replacer_ s1)))
    by apply LRUFacts.Pin_not_elem, (c_synced _ Hc1).
  assert (HB : consistent
                 (set_pages (<[f := pg1]> (pages_ s1))
                    (set_replacer (Pin f (replacer_ s1)) s1))).
  { refine (consistent_set_page _ f pg1 HA _ _ _ _); simpl; [lia|done|done|].
    intros q Hq. by destruct (Hnone q). }
  assert (HC : consistent
                 (set_page_table (<[next_page_id_ s := f]> (page_table_ s1))
                    (set_pages (<[f := pg1]> (pages_ s1))
                       (set_replacer (Pin f (replacer_ s1)) s1)))).
  { refine (consistent_table_insert _ _ f pg1 HB _ _ _ _); simpl;
      [by apply list_lookup_insert_eq|done|done|lia]. }
  assert (HD := consistent_set_resident _ (next_page_id_ s) f pg2 HC).
  simpl in HD. c_step. c_step.
  apply HD; [apply lookup_insert_eq|done|lia|done|lia].
Qed.

Lemma exec_wf o s a s' : wf s -> exec o s = Ret a s' -> wf s'.
Proof.
  intros Hwf H. destruct o; simpl in H; unfold mbind, M_bind in H.
  - destruct (FetchPgImp page_id s) eqn:E; [|done].
    injection H as <- <-. by eapply FetchPgImp_wf.
  - destruct (NewPgImp s) eqn:E; [|done].
    injection H as <- <-. by eapply NewPgImp_wf.
  - destruct (UnpinPgImp page_id is_dirty s) eqn:E; [|done].
    injection H as <- <-. by eapply UnpinPgImp_wf.
  - destruct (FlushPgImp page_id s) eqn:E; [|done].
    injection H as <- <-. by eapply FlushPgImp_wf.
  - destruct (DeletePgImp page_id s) eqn:E; [|done].
    injection H as <- <-. by eapply DeletePgImp_wf.
  - destruct (FlushAllPgsImp s) eqn:E; [|done].
    injection H as <- <-. by eapply FlushAllPgsImp_wf.
  - destruct (client_write frame_id data s) eqn:E; [|done].
    injection H as <- <-. by eapply client_write_wf.
Qed.

Lemma create_wf (pool_size : nat) (num_instances instance_index : Z) s :
  Z.of_nat pool_size < 2 ^ 64 -> 0 ≤ instance_index ->
  create pool_size num_instances instance_index = Some s -> wf s.
Proof.
  intros Hsize Hidx H. unfold create in H.
  destruct (decide (num_instances > 0 ∧ instance_index < num_instances))
    as [[HN Hi]|]; [|done].
  injection H as <-. split; [|done]. constructor; simpl.
  - apply length_replicate.
  - done.
  - repeat split; try lia. apply Z.mod_small. lia.
  - apply NoDup_seq.
  - intros f Hf%elem_of_seq. split; [|intros p; by rewrite lookup_empty].
    exists new_Page. split; [|done]. apply lookup_replicate_2. lia.
  - intros p f. by rewrite lookup_empty.
  - split; [constructor|done].
  - intros f Hf. by apply elem_of_nil in Hf.
  - intros f pg [-> _]%lookup_replicate. done.
  - intros _. split; [done|]. intros p f pg. by rewrite lookup_empty.
Qed.

(** Every state an instance goes through satisfies the invariant. *)
Lemma reachable_wf s : reachable s -> wf s.
Proof.
  induction 1 as [ps N i s Hsize Hidx Hcreate|o s a s' _ IH Hexec].
  - by eapply create_wf.
  - by eapply exec_wf.
Qed.

End Preservation.

(** * The replacer on [Unpin] *)

Section UnpinCandidates.
Import LRUReplacer.




End UnpinCandidates.

(** * Scenarios *)

(** C1.  Scenario S1 on the code: a pool of three frames, three new
    pages 0, 1, 2, unpinned in that order.  The third [Unpin] finds two
    candidates, which is [capacity - 1], and drops the oldest (frame 0)
    before it inserts frame 2; the next new page 3 then takes frame 1
    and evicts page 1, while page 0, the least recently unpinned, stays
    resident in frame 0 and is no candidate any more. *)
Theorem fill_and_evict_S1 :
  ∃ s6 s7,
    boot 3 1 0 [OpNew; OpNew; OpNew;
                OpUnpin 0 false; OpUnpin 1 false; OpUnpin 2 false]
    = Ret [ANew (Some (0, 0%nat)); ANew (Some (1, 1%nat)); ANew (Some (2, 2%nat));
           ABool true; ABool true; ABool true] s6
    ∧ candidates s6 = [2; 1]%nat
    ∧ exec OpNew s6 = Ret (ANew (Some (3, 1%nat))) s7
    ∧ page_table_ s7 !! 0 = Some 0%nat
    ∧ page_table_ s7 !! 1 = None
    ∧ page_table_ s7 !! 3 = Some 1%nat
    ∧ candidates s7 = [2]%nat.
Proof.
  eexists _, _. split; [vm_compute; reflexivity|].
  split; [reflexivity|]. split; [vm_compute; reflexivity|].
  repeat split; vm_compute; reflexivity.
Qed.

(** C3.  [DeletePgImp] on the code: a new page 0 is unpinned (frame 0
    becomes a candidate) and deleted.  The call returns [true], the
    entry is gone and frame 0 is at the back of the free list, but it is
    still a candidate of the replacer.  When the page is dirty the call
    never returns: [FlushPgImp] locks the latch that [DeletePgImp]
    holds. *)
Theorem delete_leaves_candidate :
  (∃ s',
     boot 3 1 0 [OpNew; OpUnpin 0 false; OpDelete 0]
     = Ret [ANew (Some (0, 0%nat)); ABool true; ABool true] s'
     ∧ page_table_ s' !! 0 = None
     ∧ free_list_ s' = [1; 2; 0]%nat
     ∧ candidates s' = [0]%nat)
  ∧ boot 3 1 0 [OpNew; OpUnpin 0 true; OpDelete 0] = Stuck Deadlock.
Proof.
  split; [|vm_compute; reflexivity].
  eexists. split; [vm_compute; reflexivity|].
  repeat split; vm_compute; reflexivity.
Qed.

(** The sentinel in [FlushPgImp] and [DeletePgImp]: the first tests for
    it and returns [false]; the second has no test, and returns [true]
    as for any page that is not resident. *)
Lemma flush_invalid_page_id s :
  latch_ s = false -> FlushPgImp INVALID_PAGE_ID s = Ret false s.
Proof.
  intros Hl. unfold FlushPgImp. mred. rewrite Hl. cbn.
  destruct (page_table_ s !! INVALID_PAGE_ID); cbn;
    f_equal; destruct s; simpl in *; by subst.
Qed.

Lemma delete_absent_page s p :
  latch_ s = false -> page_table_ s !! p = None -> DeletePgImp p s = Ret true s.
Proof.
  intros Hl Hp. unfold DeletePgImp. mred. rewrite Hl. cbn. rewrite Hp. cbn.
  f_equal. destruct s; simpl in *; by subst.
Qed.

(** C8.  [FetchPgImp] has no test for [INVALID_PAGE_ID]: on a fresh pool
    the sentinel is a miss like any other, a free frame is taken, the
    disk manager is asked for page -1 and the sentinel becomes a key of
    the page table, pinned in frame 0.  The parallel pool does not stop
    it either: with two instances the sentinel, as a [size_t], is odd,
    and the fetch is done by instance 1. *)
Theorem fetch_invalid_page_id :
  (∃ s',
     boot 3 1 0 [OpFetch INVALID_PAGE_ID] = Ret [AFrame (Some 0%nat)] s'
     ∧ page_table_ s' !! INVALID_PAGE_ID = Some 0%nat
     ∧ free_list_ s' = [1; 2]%nat
     ∧ (pin_count_ <$> pages_ s' !! 0%nat) = Some 1
     ∧ trace_ s' = [EvTableErase INVALID_PAGE_ID; EvReadPage INVALID_PAGE_ID])
  ∧ (∃ p0 p' s1,
       Parallel.create 2 3 0 = Some p0
       ∧ Parallel.FetchPgImp INVALID_PAGE_ID p0 = Ret (Some 0%nat) p'
       ∧ Parallel.buffer_vec_ p' !! 1%nat = Some s1
       ∧ page_table_ s1 !! INVALID_PAGE_ID = Some 0%nat).
Proof.
  split.
  - eexists. split; [vm_compute; reflexivity|].
    repeat split; vm_compute; reflexivity.
  - eexists _, _, _. split; [vm_compute; reflexivity|].
    split; [vm_compute; reflexivity|].
    split; vm_compute; reflexivity.
Qed.

(** * The allocator *)

Section Allocator.


(** Only [AllocatePage] moves [next_page_id_]: the other steps of the
    operations leave it alone. *)
Lemma FindReplacePolicy_next s r s' :
  FindReplacePolicy s = Ret r s' -> next_page_id_ s' = next_page_id_ s.
Proof.
  intros H. apply FindReplacePolicy_cases in H
    as [(f & rest & _ & _ & ->)|[(_ & _ & _ & ->)
       |[(f & l & _ & _ & _ & _ & ->)|(f & l & pg & _ & _ & _ & _ & _ & ->)]]];
    try done.
  unfold evict_state. by destruct (is_dirty_ pg).
Qed.

Lemma FlushPgImp_next p s b s' :
  FlushPgImp p s = Ret b s' -> next_page_id_ s' = next_page_id_ s.
Proof.
  intros H. apply FlushPgImp_cases in H
    as [_ [(_ & -> & _)|(f & pg & _ & _ & _ & _ & ->)]]; done.
Qed.

Lemma FlushAllPgs_loop_next frames s u s' :
  FlushAllPgs_loop frames s = Ret u s' -> next_page_id_ s' = next_page_id_ s.
Proof.
  revert s. induction frames as [|i frames IH]; intros s H; simpl in H; mred_in H.
  - by injection H as <- <-.
  - destruct (pages_ s !! i) as [pg|]; [|done]. cbn in H.
    destruct (FlushPgImp (page_id_ pg) s) as [b s1|] eqn:Hflush; [|done].
    apply FlushPgImp_next in Hflush. apply IH in H. congruence.
Qed.

(** [NewPgImp] is the one operation that moves [next_page_id_]: by
    [num_instances_], whether it returns a page or not; the page it
    returns has the identifier [next_page_id_] stood at. *)
Lemma exec_next_page_id o s a s' :
  exec o s = Ret a s' ->
  match o with
  | OpNew =>
      next_page_id_ s' = next_page_id_ s + num_instances_ s
      ∧ ∀ p f, a = ANew (Some (p, f)) -> p = next_page_id_ s
  | _ => next_page_id_ s' = next_page_id_ s
  end.
Proof.
  intros H. destruct o; simpl in H; apply bind_Ret in H as (r & s1 & H & Hret);
    unfold mret, M_ret in Hret; injection Hret as <- <-.
  - (* FetchPgImp *)
    unfold FetchPgImp in H. mred_in H.
    destruct (latch_ s); [done|]. cbn in H.
    destruct (page_table_ s !! page_id) as [f|]; cbn in H.
    + destruct (pages_ s !! f); cbn in H; [|done]. by injection H as <- <-.
    + destruct (FindReplacePolicy (set_latch true s)) as [[f|] s2|] eqn:Hfind;
        cbn in H; [| |done]; apply FindReplacePolicy_next in Hfind;
        [|injection H as <- <-; done].
      destruct (pages_ s2 !! f) as [pg|]; cbn in H; [|done].
      destruct (is_dirty_ pg); cbn in H;
        (destruct (pages_ s2 !! f); cbn in H; [|done]);
        injection H as <- <-; done.
  - (* NewPgImp *)
    unfold NewPgImp in H. mred_in H.
    destruct (latch_ s); [done|]. cbn in H.
    destruct (AllocatePage (set_latch true s)) as [p s2|] eqn:Halloc; cbn in H; [|done].
    apply AllocatePage_cases in Halloc as (-> & _ & ->). cbn in H.
    match type of H with
    | context [all_pinned_loop ?l ?s0] =>
        destruct (all_pinned_loop l s0) as [is_all s2|] eqn:Hloop; cbn in H; [|done]
    end.
    apply all_pinned_loop_state in Hloop as ->.
    destruct is_all; cbn in H; [by injection H as <- <-|].
    match type of H with
    | context [FindReplacePolicy ?s0] =>
        destruct (FindReplacePolicy s0) as [[f|] s2|] eqn:Hfind; cbn in H; [| |done]
    end; apply FindReplacePolicy_next in Hfind; [|by injection H as <- <-].
    destruct (pages_ s2 !! f) as [pg|]; cbn in H; [|done].
    repeat match type of H with
    | context [<[f := ?x]> ?y !! f] =>
        destruct (<[f := x]> y !! f); cbn in H; [|done]
    end.
    injection H as <- <-. split; [done|]. by intros ? ? [= <- _].
  - (* UnpinPgImp *)
    unfold UnpinPgImp in H. mred_in H.
    destruct (latch_ s); [done|]. cbn in H.
    destruct (page_table_ s !! page_id) as [f|]; cbn in H;
      [|by injection H as <- <-].
    repeat (match type of H with
            | context [match ?x with _ => _ end] =>
                lazymatch x with
                | context [match _ with _ => _ end] => fail
                | _ => destruct x eqn:?; cbn in H; try done
                end
            end).
    all: by injection H as <- <-.
  - by apply FlushPgImp_next in H.
  - (* DeletePgImp *)
    unfold DeletePgImp in H. mred_in H.
    destruct (latch_ s) eqn:Hl; [done|]. cbn in H.
    destruct (page_table_ s !! page_id) as [f|]; cbn in H;
      [|by injection H as <- <-].
    destruct (pages_ s !! f) as [pg|] eqn:Hpg; cbn in H; [|done].
    destruct (decide (pin_count_ pg > 0)); cbn in H; [by injection H as <- <-|].
    destruct (is_dirty_ pg); cbn in H.
    + by rewrite FlushPgImp_locked in H.
    + rewrite Hpg in H. cbn in H. by injection H as <- <-.
  - unfold FlushAllPgsImp in H. mred_in H. by apply FlushAllPgs_loop_next in H.
  - unfold client_write in H. mred_in H. injection H as <- <-.
    by destruct (pages_ s !! frame_id).
Qed.

End Allocator.



(** * Routing in the parallel pool *)

Section Routing.

(** [GetBufferPoolManager] finds an instance for every page identifier,
    the sentinel included: the index is the residue of the identifier,
    read as a [size_t], modulo the number of instances. *)
Lemma GetBufferPoolManager_total (page_id : page_id_t) (p : Parallel.t) :
  0 < Parallel.num_instances_ p < 2 ^ 32 ->
  Z.of_nat (length (Parallel.buffer_vec_ p)) = Parallel.num_instances_ p ->
  ∃ s,
    Parallel.GetBufferPoolManager page_id p
    = Ret (Z.to_nat (size_t_wrap page_id `mod` Parallel.num_instances_ p), s) p.
Proof.
  intros HN Hlen. unfold Parallel.GetBufferPoolManager.
  rewrite decide_False by lia.
  pose proof (Z.mod_pos_bound (size_t_wrap page_id) (Parallel.num_instances_ p)
                ltac:(lia)) as Hk.
  rewrite (Z.mod_small _ (2 ^ 32)) by lia.
  destruct (lookup_lt_is_Some_2 (Parallel.buffer_vec_ p)
              (Z.to_nat (size_t_wrap page_id `mod` Parallel.num_instances_ p)))
    as [s Hs]; [lia|].
  exists s. by rewrite Hs.
Qed.

End Routing.

(** * Reachable states *)

Section Reachable.

Lemma run_reachable ops s l s' :
  reachable s -> run ops s = Ret l s' -> reachable s'.
Proof.
  revert s l. induction ops as [|o ops IH]; intros s l Hr H; simpl in H.
  - unfold mret, M_ret in H. by injection H as <- <-.
  - unfold mbind, M_bind in H.
    destruct (exec o s) as [a s1|] eqn:Hexec; [|done].
    destruct (run ops s1) as [l1 s2|] eqn:Hrun; [|done].
    unfold mret, M_ret in H. injection H as <- <-.
    eapply IH; [|exact Hrun]. by eapply reachable_exec.
Qed.

Lemma state_after_reachable pool_size N i ops s :
  Z.of_nat pool_size < 2 ^ 64 -> 0 ≤ i ->
  state_after pool_size N i ops = Some s -> reachable s.
Proof.
  intros Hsize Hi H. unfold state_after in H.
  destruct (create pool_size N i) as [s0|] eqn:Hcreate; [|done].
  destruct (run ops s0) as [l s1|] eqn:Hrun; [|done].
  injection H as <-. eapply run_reachable; [|exact Hrun].
  by eapply reachable_create.
Qed.

(** The first loop of [NewPgImp] when every frame is pinned. *)
Lemma all_pinned_loop_true frames s :
  (∀ i, i ∈ frames -> ∃ pg, pages_ s !! i = Some pg ∧ pin_count_ pg ≠ 0) ->
  all_pinned_loop frames s = Ret true s.
Proof.
  induction frames as [|i frames IH]; intros H; simpl; [done|].
  destruct (H i) as (pg & Hpg & Hpin); [by left|].
  rewrite (bind_eq _ _ _ _ _ (page_eq _ _ _ Hpg)).
  rewrite decide_False by done. apply IH. intros j Hj. apply H. by right.
Qed.

(** The first loop of [NewPgImp] when some frame is not pinned. *)
Lemma all_pinned_loop_false frames s f pg :
  (∀ i, i ∈ frames -> is_Some (pages_ s !! i)) ->
  f ∈ frames -> pages_ s !! f = Some pg -> pin_count_ pg = 0 ->
  all_pinned_loop frames s = Ret false s.
Proof.
  induction frames as [|i frames IH]; intros Hin Hf Hpg Hpin; simpl.
  { by apply elem_of_nil in Hf. }
  destruct (Hin i) as [x Hx]; [by left|].
  rewrite (bind_eq _ _ _ _ _ (page_eq _ _ _ Hx)).
  destruct (decide (pin_count_ x = 0)); [done|].
  apply IH; try done.
  - intros j Hj. apply Hin. by right.
  - apply elem_of_cons in Hf as [->|Hf]; [|done]. congruence.
Qed.

Lemma frames_in_range s i :
  consistent s -> i ∈ seq 0 (pool_size_ s) -> is_Some (pages_ s !! i).
Proof.
  intros Hc Hi%elem_of_seq. apply lookup_lt_is_Some.
  rewrite (c_length _ Hc). lia.
Qed.

End Reachable.

(** C10.  When every frame of a reachable instance has pin count above
    zero, [NewPgImp] returns [nullptr], and the state it leaves differs
    from the one it found only in [next_page_id_], which has advanced by
    [num_instances_]: the identifier taken by [AllocatePage] before the
    test is skipped; the page table, the frames, the free list and the
    replacer are as they were. *)
Theorem new_page_all_pinned (s : BufferPoolManagerInstance) :
  reachable s ->
  (∀ f pg, pages_ s !! f = Some pg -> pin_count_ pg > 0) ->
  NewPgImp s
  = Ret None (set_next_page_id (next_page_id_ s + num_instances_ s) s).
Proof.
  intros [Hc Hl]%reachable_wf Hpinned.
  destruct (c_alloc _ Hc) as (_ & _ & Hmod & _).
  unfold NewPgImp.
  rewrite (bind_eq _ _ _ _ _ (lock_eq _ Hl)).
  rewrite (bind_eq _ _ _ _ _ (AllocatePage_eq (set_latch true s) Hmod)).
  mred.
  rewrite all_pinned_loop_true; cbn.
  - f_equal. destruct s; simpl in *. by subst.
  - intros i Hi. destruct (frames_in_range s i Hc Hi) as [pg Hpg].
    exists pg. split; [done|]. specialize (Hpinned i pg Hpg). lia.
Qed.

Lemma new_page_all_pinned_witness :
  ∃ s, state_after 1 1 0 [OpNew] = Some s
       ∧ NewPgImp s
         = Ret None (set_next_page_id (next_page_id_ s + num_instances_ s) s).
Proof.
  eexists. split; [vm_compute; reflexivity|].
  apply new_page_all_pinned.
  - apply (state_after_reachable 1 1 0 [OpNew]); [lia|lia|vm_compute; reflexivity].
  - intros [|f] pg H; simpl in H; [|done].
    injection H as <-. vm_compute. reflexivity.
Defined.

(** C4.  In every state an instance goes through, a frame whose pin
    count is above zero is not a candidate of the replacer. *)
Theorem pinned_frame_not_candidate (s : BufferPoolManagerInstance)
    (f : frame_id_t) (pg : Page) :
  reachable s ->
  pages_ s !! f = Some pg -> pin_count_ pg > 0 ->
  f ∉ candidates s.
Proof.
  intros [Hc _]%reachable_wf Hpg Hpin Hf.
  destruct (c_lru _ Hc f Hf) as (x & Hx & Hx0).
  rewrite Hpg in Hx. injection Hx as <-. lia.
Qed.

Lemma pinned_frame_not_candidate_witness :
  ∃ s pg,
    state_after 3 1 0 [OpNew; OpNew; OpNew; OpUnpin 1 false; OpUnpin 2 true] = Some s
    ∧ pages_ s !! 0%nat = Some pg
    ∧ candidates s = [2; 1]%nat
    ∧ 0%nat ∉ candidates s.
Proof.
  eexists _, _. split; [vm_compute; reflexivity|].
  split; [vm_compute; reflexivity|]. split; [vm_compute; reflexivity|].
  eapply pinned_frame_not_candidate.
  - apply (state_after_reachable 3 1 0
             [OpNew; OpNew; OpNew; OpUnpin 1 false; OpUnpin 2 true]);
      [lia|lia|vm_compute; reflexivity].
  - vm_compute. reflexivity.
  - vm_compute. reflexivity.
Defined.

(** * Unpinning *)

Section Unpin.
Import LRUReplacer.


End Unpin.



(** * Dirty frames *)

Section Dirty.
Import LRUReplacer.


Lemma evict_state_dirty_trace s f pg :
  is_dirty_ pg = true ->
  trace_ (evict_state s f pg)
  = trace_ s ++ [EvWritePage (page_id_ pg) (data_ pg); EvTableErase (page_id_ pg)].
Proof.
  intros Hd. unfold evict_state. rewrite Hd. simpl. by rewrite <- app_assoc.
Qed.

(** A delete of a dirty page that is not pinned never returns:
    [FlushPgImp] locks the latch that [DeletePgImp] holds. *)
Lemma DeletePgImp_dirty_deadlock s p f pg :
  latch_ s = false ->
  page_table_ s !! p = Some f -> pages_ s !! f = Some pg ->
  is_dirty_ pg = true -> pin_count_ pg ≤ 0 ->
  DeletePgImp p s = Stuck Deadlock.
Proof.
  intros Hl Hp Hpg Hd Hpin. unfold DeletePgImp. mred. rewrite Hl. cbn.
  rewrite Hp. cbn. rewrite Hpg. cbn.
  rewrite decide_False by lia. rewrite Hd. cbn.
  by rewrite FlushPgImp_locked.
Qed.

End Dirty.



(** * New page, then delete *)

Section NewDelete.
Import LRUReplacer.

Lemma FindReplacePolicy_free s f rest :
  free_list_ s = f :: rest ->
  FindReplacePolicy s = Ret (Some f) (set_free_list rest s).
Proof. intros H. unfold FindReplacePolicy. mred. by rewrite H. Qed.


(** [DeletePgImp] on a pinned page. *)
Lemma DeletePgImp_pinned s p f pg :
  latch_ s = false ->
  page_table_ s !! p = Some f -> pages_ s !! f = Some pg -> pin_count_ pg > 0 ->
  DeletePgImp p s = Ret false s.
Proof.
  intros Hl Hp Hpg Hpin. unfold DeletePgImp. mred. rewrite Hl. cbn.
  rewrite Hp. cbn. rewrite Hpg. cbn. rewrite decide_True by done. cbn.
  by rewrite unlock_lock.
Qed.



Lemma run_cons o ops s a s1 l s2 :
  exec o s = Ret a s1 -> run ops s1 = Ret l s2 -> run (o :: ops) s = Ret (a :: l) s2.
Proof.
  intros Hexec Hrun. simpl. rewrite (bind_eq _ _ _ _ _ Hexec).
  by rewrite (bind_eq _ _ _ _ _ Hrun).
Qed.

Lemma exec_New s r s' : NewPgImp s = Ret r s' -> exec OpNew s = Ret (ANew r) s'.
Proof. intros H. simpl. by rewrite (bind_eq _ _ _ _ _ H). Qed.

Lemma exec_Unpin p d s b s' :
  UnpinPgImp p d s = Ret b s' -> exec (OpUnpin p d) s = Ret (ABool b) s'.
Proof. intros H. simpl. by rewrite (bind_eq _ _ _ _ _ H). Qed.

Lemma exec_Delete p s b s' :
  DeletePgImp p s = Ret b s' -> exec (OpDelete p) s = Ret (ABool b) s'.
Proof. intros H. simpl. by rewrite (bind_eq _ _ _ _ _ H). Qed.

End NewDelete.



(** * The replacer, call by call *)

Section ReplacerCalls.
Import LRUReplacer.

Lemma filter_ne_id (f : nat) (l : list nat) :
  f ∉ l -> filter (fun g => g ≠ f) l = l.
Proof.
  induction l as [|x l IH]; [done|].
  intros [Hne Hl]%not_elem_of_cons.
  rewrite filter_cons_True by congruence. by rewrite IH.
Qed.

Lemma erase_node_filter (f : nat) (l : list nat) :
  NoDup l -> erase_node f l = filter (fun g => g ≠ f) l.
Proof.
  induction 1 as [|x l Hx Hl IH]; simpl; [done|].
  destruct (decide (x = f)) as [->|Hne].
  - rewrite filter_cons_False by (intros H; by apply H).
    by rewrite filter_ne_id.
  - rewrite filter_cons_True by done. by rewrite IH.
Qed.


(** [Unpin] of an absent frame where there is room: the frame goes to
    the front and nothing else moves. *)
Lemma Unpin_room (f : nat) (r : t) :
  synced r -> f ∉ lru r ->
  Z.of_nat (length (lru r)) + 1 < capacity r < 2 ^ 64 ->
  Unpin f r = Some (mk (capacity r) (f :: lru r) ({[f]} ∪ hashMap r)).
Proof.
  intros Hs Hout Hroom.
  unfold Unpin. rewrite (proj2 (LRUFacts.contains_false r f Hs) Hout).
  simpl. rewrite bool_decide_eq_false_2; [done|].
  unfold size_t_wrap. rewrite Z.mod_small by lia. lia.
Qed.

Lemma Pin_lru_filter (f : nat) (r : t) :
  synced r -> lru (Pin f r) = filter (fun g => g ≠ f) (lru r).
Proof.
  intros Hs. unfold Pin. destruct (contains r f) eqn:E; simpl.
  - apply erase_node_filter, Hs.
  - symmetry. apply filter_ne_id. by apply LRUFacts.contains_false.
Qed.

(** X1.  [Victim] on a replacer with candidates returns the back of the
    list, the least recently unpinned one, and removes exactly it: the
    other candidates keep their order, the size goes down by one and the
    frame is no longer known to the replacer.  On an empty replacer it
    returns [false] and changes nothing. *)
Theorem victim_removes_back (r : t) :
  synced r ->
  match Victim r with
  | (Some f, r') =>
      lru r = lru r' ++ [f]
      ∧ contains r' f = false
      ∧ Size r = S (Size r')
      ∧ synced r'
      ∧ capacity r' = capacity r
  | (None, r') => Size r = 0%nat ∧ r' = r
  end.
Proof.
  intros Hs. destruct (Victim r) as [[f|] r'] eqn:E.
  - apply LRUFacts.Victim_some in E as [Hl Hr'].
    assert (Hs' : synced r').
    { rewrite Hr'. by apply LRUFacts.Victim_synced. }
    split; [done|]. split; [|split; [|split; [done|]]].
    + apply LRUFacts.contains_false; [done|]. intros Hin.
      destruct Hs as [Hnd _]. rewrite Hl in Hnd.
      apply NoDup_app in Hnd as (_ & Hsep & _).
      apply (Hsep f Hin). by apply list_elem_of_singleton.
    + unfold Size. rewrite Hl, length_app. simpl. lia.
    + rewrite Hr'. apply LRUFacts.Victim_capacity.
  - apply LRUFacts.Victim_none in E as [Hl ->].
    split; [|done]. unfold Size. by rewrite Hl.
Qed.

Lemma victim_removes_back_witness :
  match Victim (of_list 4 [2; 1; 0]%nat) with
  | (Some f, r') =>
      lru (of_list 4 [2; 1; 0]%nat) = lru r' ++ [f]
      ∧ contains r' f = false
      ∧ Size (of_list 4 [2; 1; 0]%nat) = S (Size r')
      ∧ synced r'
      ∧ capacity r' = capacity (of_list 4 [2; 1; 0]%nat)
  | (None, r') => Size (of_list 4 [2; 1; 0]%nat) = 0%nat ∧ r' = of_list 4 [2; 1; 0]%nat
  end.
Proof.
  apply (victim_removes_back (of_list 4 [2; 1; 0]%nat)).
  apply LRUFacts.synced_of_list.
  apply (bool_decide_unpack (NoDup [2; 1; 0]%nat)). vm_compute. exact I.
Defined.

(** X2.  [Pin] removes the frame from the candidates and nothing else:
    the other candidates keep their order; a frame that is not a
    candidate leaves the replacer as it is. *)
Theorem pin_removes_frame (r : t) (f : frame_id_t) :
  synced r ->
  lru (Pin f r) = filter (fun g => g ≠ f) (lru r)
  ∧ contains (Pin f r) f = false
  ∧ synced (Pin f r)
  ∧ capacity (Pin f r) = capacity r
  ∧ (f ∉ lru r -> Pin f r = r).
Proof.
  intros Hs. split; [|split; [|split; [|split]]].
  - by apply Pin_lru_filter.
  - apply LRUFacts.contains_false; [by apply LRUFacts.Pin_synced|].
    by apply LRUFacts.Pin_not_elem.
  - by apply LRUFacts.Pin_synced.
  - apply LRUFacts.Pin_capacity.
  - by apply LRUFacts.Pin_absent.
Qed.

Lemma pin_removes_frame_witness :
  lru (Pin 1 (of_list 4 [2; 1; 0]%nat)) = [2; 0]%nat
  ∧ contains (Pin 1 (of_list 4 [2; 1; 0]%nat)) 1 = false
  ∧ synced (Pin 1 (of_list 4 [2; 1; 0]%nat)).
Proof.
  destruct (pin_removes_frame (of_list 4 [2; 1; 0]%nat) 1%nat) as (H1 & H2 & H3 & _).
  - apply LRUFacts.synced_of_list.
    apply (bool_decide_unpack (NoDup [2; 1; 0]%nat)). vm_compute. exact I.
  - split; [|split]; [exact H1|exact H2|exact H3].
Defined.

(** X3.  A second [Unpin] of a frame changes nothing: a frame that is
    already a candidate keeps its place in the list, its recency is not
    refreshed. *)
Theorem unpin_again_is_noop (r r' : t) (f : frame_id_t) :
  synced r ->
  Unpin f r = Some r' ->
  Unpin f r' = Some r' ∧ (f ∈ lru r -> r' = r).
Proof.
  intros Hs H.
  destruct (LRUFacts.Unpin_result _ _ _ Hs H) as (_ & Hs' & [[Hin ->]|[Hout [k Hk]]]).
  - split; [|done]. by apply LRUFacts.Unpin_present, LRUFacts.synced_elem.
  - split; [|done]. apply LRUFacts.Unpin_present, LRUFacts.synced_elem; [done|].
    rewrite Hk. by left.
Qed.

Lemma unpin_again_is_noop_witness :
  Unpin 0 (of_list 4 [1; 0]%nat) = Some (of_list 4 [1; 0]%nat)
  ∧ (0%nat ∈ lru (of_list 4 [1; 0]%nat) -> of_list 4 [1; 0]%nat = of_list 4 [1; 0]%nat).
Proof.
  apply (unpin_again_is_noop (of_list 4 [1; 0]%nat) (of_list 4 [1; 0]%nat) 0%nat).
  - apply LRUFacts.synced_of_list.
    apply (bool_decide_unpack (NoDup [1; 0]%nat)). vm_compute. exact I.
  - vm_compute. reflexivity.
Defined.

(** X4.  [Unpin] and then [Pin] of the same frame give the replacer
    back, when the frame was not a candidate and there was room for it
    (fewer than [capacity - 1] candidates). *)
Theorem unpin_pin_round_trip (r : t) (f : frame_id_t) :
  synced r ->
  f ∉ lru r ->
  Z.of_nat (length (lru r)) + 1 < capacity r < 2 ^ 64 ->
  ∃ r', Unpin f r = Some r' ∧ lru r' = f :: lru r ∧ Pin f r' = r.
Proof.
  intros Hs Hout Hroom. eexists. split; [by apply Unpin_room|].
  split; [done|].
  unfold Pin, contains. simpl.
  rewrite bool_decide_eq_true_2 by (apply elem_of_union_l; by apply elem_of_singleton).
  rewrite decide_True by done.
  destruct r as [c l h]. simpl in *. f_equal.
  assert (Hh : f ∉ h).
  { intros Hin. apply Hout. by apply (LRUFacts.synced_elem (mk c l h)). }
  apply set_eq. intros x.
  rewrite elem_of_difference, elem_of_union, elem_of_singleton.
  split; [intros [[->|Hx] Hne]; done|].
  intros Hx. split; [by right|]. intros ->. done.
Qed.

Lemma unpin_pin_round_trip_witness :
  ∃ r', Unpin 2 (of_list 4 [1; 0]%nat) = Some r'
        ∧ lru r' = 2%nat :: lru (of_list 4 [1; 0]%nat)
        ∧ Pin 2 r' = of_list 4 [1; 0]%nat.
Proof.
  apply (unpin_pin_round_trip (of_list 4 [1; 0]%nat) 2%nat).
  - apply LRUFacts.synced_of_list.
    apply (bool_decide_unpack (NoDup [1; 0]%nat)). vm_compute. exact I.
  - apply (bool_decide_unpack (2%nat ∉ [1; 0]%nat)). vm_compute. exact I.
  - simpl. lia.
Defined.




Lemma unpin_all_room (c : Z) (fs l : list nat) :
  NoDup (fs ++ l) ->
  Z.of_nat (length fs) + Z.of_nat (length l) < c < 2 ^ 64 ->
  unpin_all fs (of_list c l) = Some (of_list c (reverse fs ++ l)).
Proof.
  revert l. induction fs as [|f fs IH]; intros l Hnd Hlen; [done|].
  simpl in Hnd. apply NoDup_cons in Hnd as [Hf Hnd].
  apply not_elem_of_app in Hf as [Hf1 Hf2].
  simpl. rewrite Unpin_room; simpl.
  - change (mk c (f :: l) ({[f]} ∪ list_to_set l)) with (of_list c (f :: l)).
    rewrite IH.
    + by rewrite reverse_cons, <- app_assoc.
    + apply NoDup_app. apply NoDup_app in Hnd as (Hnd1 & Hsep & Hnd2).
      split; [done|]. split.
      * intros x Hx [->|Hxl]%elem_of_cons; [done|]. by apply (Hsep x).
      * by apply NoDup_cons.
    + simpl in *. lia.
  - apply LRUFacts.synced_of_list. by apply NoDup_app in Hnd as (_ & _ & ?).
  - done.
  - simpl in *. lia.
Qed.

Lemma victims_back (c : Z) (fs pre : list nat) :
  NoDup (pre ++ reverse fs) ->
  victims (length fs) (of_list c (pre ++ reverse fs)) = (Some <$> fs, of_list c pre).
Proof.
  revert pre. induction fs as [|f fs IH]; intros pre Hnd; simpl.
  - by rewrite app_nil_r.
  - rewrite reverse_cons, app_assoc in Hnd |- *.
    apply NoDup_app in Hnd as (Hnd & Hsep & _).
    rewrite LRUFacts.Victim_back.
    + simpl. by rewrite IH.
    + intros Hin. apply (Hsep f Hin). by apply list_elem_of_singleton.
Qed.

(** X6.  First unpinned, first evicted: after [Unpin] of distinct
    frames [f1, ..., fk] on an empty replacer built for more than [k]
    frames, the next [k] calls of [Victim] return [f1, ..., fk] in that
    order and leave the replacer empty. *)
Theorem unpin_then_victims_fifo (c : Z) (fs : list frame_id_t) :
  NoDup fs ->
  Z.of_nat (length fs) < c < 2 ^ 64 ->
  ∃ r, unpin_all fs (init c) = Some r
       ∧ lru r = reverse fs
       ∧ victims (length fs) r = (Some <$> fs, init c).
Proof.
  intros Hnd Hlen. exists (of_list c (reverse fs)). split; [|split; [done|]].
  - change (init c) with (of_list c []).
    rewrite unpin_all_room; [by rewrite app_nil_r|by rewrite app_nil_r|simpl; lia].
  - change (init c) with (of_list c []).
    apply (victims_back c fs []). simpl. by rewrite reverse_Permutation.
Qed.

Lemma unpin_then_victims_fifo_witness :
  ∃ r, unpin_all [4; 0; 2]%nat (init 4) = Some r
       ∧ lru r = reverse [4; 0; 2]%nat
       ∧ victims (length [4; 0; 2]%nat) r = (Some <$> [4; 0; 2]%nat, init 4).
Proof.
  apply (unpin_then_victims_fifo 4 [4; 0; 2]%nat).
  - apply (bool_decide_unpack (NoDup [4; 0; 2]%nat)). vm_compute. exact I.
  - simpl. lia.
Defined.

End ReplacerCalls.
(** * The instance, operation by operation *)

Section InstanceFacts.
Import LRUReplacer.

(** [FindReplacePolicy] returns in every consistent state. *)
Lemma FindReplacePolicy_returns s :
  consistent s -> ∃ r s', FindReplacePolicy s = Ret r s'.
Proof.
  intros Hc. unfold FindReplacePolicy. mred.
  destruct (free_list_ s) as [|f rest] eqn:Hfree; cbn; [|eauto].
  destruct (Victim (replacer_ s)) as [[f|] r] eqn:Hv; cbn; [|eauto].
  destruct (decide (find_page_of (page_table_ s) f ≠ -1)); cbn; [|eauto].
  apply LRUFacts.Victim_some in Hv as [Hl _].
  destruct (c_lru _ Hc f) as (pg & Hpg & _).
  { rewrite Hl. apply elem_of_app. right. by apply list_elem_of_singleton. }
  rewrite Hpg. cbn. destruct (is_dirty_ pg); cbn; [rewrite Hpg; cbn|]; eauto.
Qed.

Lemma FindReplacePolicy_static s r s' :
  FindReplacePolicy s = Ret r s' -> same_static s s'.
Proof.
  intros H. apply FindReplacePolicy_cases in H
    as [(f & rest & _ & _ & ->)|[(_ & _ & _ & ->)
       |[(f & l & _ & _ & _ & _ & ->)|(f & l & pg & _ & _ & _ & _ & _ & ->)]]];
    try done.
  unfold evict_state. by destruct (is_dirty_ pg).
Qed.

Lemma FlushPgImp_static p s b s' :
  FlushPgImp p s = Ret b s' -> same_static s s'.
Proof.
  intros H. apply FlushPgImp_cases in H
    as [_ [(_ & -> & _)|(f & pg & _ & _ & _ & _ & ->)]]; done.
Qed.

Lemma FlushAllPgs_loop_static frames s u s' :
  FlushAllPgs_loop frames s = Ret u s' -> same_static s s'.
Proof.
  revert s. induction frames as [|i frames IH]; intros s H; simpl in H; mred_in H.
  - by injection H as <- <-.
  - destruct (pages_ s !! i) as [pg|]; [|done]. cbn in H.
    destruct (FlushPgImp (page_id_ pg) s) as [b s1|] eqn:Hflush; [|done].
    apply FlushPgImp_static in Hflush as (? & ? & ?).
    apply IH in H as (? & ? & ?). unfold same_static. by repeat split; congruence.
Qed.

Lemma exec_static o s a s' : exec o s = Ret a s' -> same_static s s'.
Proof.
  intros H. destruct o; simpl in H; apply bind_Ret in H as (r & s1 & H & Hret);
    unfold mret, M_ret in Hret; injection Hret as <- <-.
  - (* FetchPgImp *)
    unfold FetchPgImp in H. mred_in H.
    destruct (latch_ s); [done|]. cbn in H.
    destruct (page_table_ s !! page_id) as [f|]; cbn in H.
    + destruct (pages_ s !! f); cbn in H; [|done]. by injection H as <- <-.
    + destruct (FindReplacePolicy (set_latch true s)) as [[f|] s2|] eqn:Hfind;
        cbn in H; [| |done]; apply FindReplacePolicy_static in Hfind;
        [|injection H as <- <-; done].
      destruct (pages_ s2 !! f) as [pg|]; cbn in H; [|done].
      destruct (is_dirty_ pg); cbn in H;
        (destruct (pages_ s2 !! f); cbn in H; [|done]);
        injection H as <- <-; done.
  - (* NewPgImp *)
    unfold NewPgImp in H. mred_in H.
    destruct (latch_ s); [done|]. cbn in H.
    destruct (AllocatePage (set_latch true s)) as [p s2|] eqn:Halloc; cbn in H; [|done].
    apply AllocatePage_cases in Halloc as (-> & _ & ->). cbn in H.
    match type of H with
    | context [all_pinned_loop ?l ?s0] =>
        destruct (all_pinned_loop l s0) as [is_all s2|] eqn:Hloop; cbn in H; [|done]
    end.
    apply all_pinned_loop_state in Hloop as ->.
    destruct is_all; cbn in H; [by injection H as <- <-|].
    match type of H with
    | context [FindReplacePolicy ?s0] =>
        destruct (FindReplacePolicy s0) as [[f|] s2|] eqn:Hfind; cbn in H; [| |done]
    end; apply FindReplacePolicy_static in Hfind; [|by injection H as <- <-].
    destruct (pages_ s2 !! f) as [pg|]; cbn in H; [|done].
    repeat match type of H with
    | context [<[f := ?x]> ?y !! f] =>
        destruct (<[f := x]> y !! f); cbn in H; [|done]
    end.
    by injection H as <- <-.
  - (* UnpinPgImp *)
    unfold UnpinPgImp in H. mred_in H.
    destruct (latch_ s); [done|]. cbn in H.
    destruct (page_table_ s !! page_id) as [f|]; cbn in H;
      [|by injection H as <- <-].
    repeat (match type of H with
            | context [match ?x with _ => _ end] =>
                lazymatch x with
                | context [match _ with _ => _ end] => fail
                | _ => destruct x eqn:?; cbn in H; try done
                end
            end).
    all: by injection H as <- <-.
  - by apply FlushPgImp_static in H.
  - (* DeletePgImp *)
    unfold DeletePgImp in H. mred_in H.
    destruct (latch_ s) eqn:Hl; [done|]. cbn in H.
    destruct (page_table_ s !! page_id) as [f|]; cbn in H;
      [|by injection H as <- <-].
    destruct (pages_ s !! f) as [pg|] eqn:Hpg; cbn in H; [|done].
    destruct (decide (pin_count_ pg > 0)); cbn in H; [by injection H as <- <-|].
    destruct (is_dirty_ pg); cbn in H.
    + by rewrite FlushPgImp_locked in H.
    + rewrite Hpg in H. cbn in H. by injection H as <- <-.
  - unfold FlushAllPgsImp in H. mred_in H. by apply FlushAllPgs_loop_static in H.
  - unfold client_write in H. mred_in H. injection H as <- <-.
    by destruct (pages_ s !! frame_id).
Qed.

Lemma table_frame_in_range s p f :
  consistent s -> page_table_ s !! p = Some f -> (f < pool_size_ s)%nat.
Proof.
  intros Hc Hp. destruct (c_table _ Hc p f Hp) as (pg & Hpg & _).
  rewrite <- (c_length _ Hc). by eapply lookup_lt_Some.
Qed.

End InstanceFacts.

(** X7.  In every state an instance goes through, an entry of the page
    table names a frame of the pool that holds that very page and is
    not in the free list, and no other page is mapped to that frame. *)
Theorem page_table_entry_owns_frame (s : BufferPoolManagerInstance)
    (p q : page_id_t) (f : frame_id_t) :
  reachable s ->
  page_table_ s !! p = Some f ->
  (f < pool_size_ s)%nat
  ∧ (∃ pg, pages_ s !! f = Some pg ∧ page_id_ pg = p)
  ∧ (f ∉ free_list_ s)
  ∧ (page_table_ s !! q = Some f -> q = p).
Proof.
  intros [Hc _]%reachable_wf Hp.
  split; [by eapply table_frame_in_range|].
  split; [by apply (c_table _ Hc)|]. split.
  - intros Hin. destruct (c_free _ Hc f Hin) as [_ Hnone]. by apply (Hnone p).
  - intros Hq. by apply (table_frame_unique s p q f).
Qed.

Lemma page_table_entry_owns_frame_witness :
  ∃ s,
    state_after 3 1 0 [OpNew; OpNew; OpUnpin 0 false] = Some s
    ∧ (1 < pool_size_ s)%nat
    ∧ (∃ pg, pages_ s !! 1%nat = Some pg ∧ page_id_ pg = 1)
    ∧ (1%nat ∉ free_list_ s)
    ∧ (page_table_ s !! 1 = Some 1%nat -> 1 = 1).
Proof.
  eexists. split; [vm_compute; reflexivity|].
  apply (page_table_entry_owns_frame _ 1 1 1%nat).
  - apply (state_after_reachable 3 1 0 [OpNew; OpNew; OpUnpin 0 false]);
      [lia|lia|vm_compute; reflexivity].
  - vm_compute. reflexivity.
Defined.

(** X8.  In every state an instance goes through, the free list holds
    each frame at most once, and a frame in it is a frame of the pool,
    is not pinned, and has no entry in the page table. *)
Theorem free_frames_are_unused (s : BufferPoolManagerInstance) (f : frame_id_t) :
  reachable s ->
  f ∈ free_list_ s ->
  NoDup (free_list_ s)
  ∧ (f < pool_size_ s)%nat
  ∧ (∃ pg, pages_ s !! f = Some pg ∧ pin_count_ pg = 0)
  ∧ (∀ p, page_table_ s !! p ≠ Some f).
Proof.
  intros [Hc _]%reachable_wf Hin.
  destruct (c_free _ Hc f Hin) as [(pg & Hpg & Hpin) Hnone].
  split; [apply (c_free_NoDup _ Hc)|]. split.
  - rewrite <- (c_length _ Hc). by eapply lookup_lt_Some.
  - split; [by exists pg|done].
Qed.

Lemma free_frames_are_unused_witness :
  ∃ s,
    state_after 3 1 0 [OpNew; OpNew; OpUnpin 0 false; OpDelete 0] = Some s
    ∧ free_list_ s = [2; 0]%nat
    ∧ NoDup (free_list_ s)
    ∧ (0 < pool_size_ s)%nat
    ∧ (∃ pg, pages_ s !! 0%nat = Some pg ∧ pin_count_ pg = 0)
    ∧ (∀ p, page_table_ s !! p ≠ Some 0%nat).
Proof.
  eexists. split; [vm_compute; reflexivity|]. split; [vm_compute; reflexivity|].
  apply (free_frames_are_unused _ 0%nat).
  - apply (state_after_reachable 3 1 0 [OpNew; OpNew; OpUnpin 0 false; OpDelete 0]);
      [lia|lia|vm_compute; reflexivity].
  - simpl. rewrite !elem_of_cons. auto.
Defined.

(** X9.  Between two operations the latch of the instance is free, the
    frame array has [pool_size_] frames, no pin count is negative, and
    the pool size and the instance numbers are those the constructor
    was given: every operation that returns has released the latch it
    took, on every path. *)
Theorem latch_released_and_pins_not_negative (pool_size : nat) (N i : Z)
    (ops : list op) (s : BufferPoolManagerInstance) :
  Z.of_nat pool_size < 2 ^ 64 -> 0 ≤ i ->
  state_after pool_size N i ops = Some s ->
  latch_ s = false
  ∧ length (pages_ s) = pool_size
  ∧ pool_size_ s = pool_size ∧ num_instances_ s = N ∧ instance_index_ s = i
  ∧ (∀ f pg, pages_ s !! f = Some pg -> 0 ≤ pin_count_ pg).
Proof.
  intros Hsize Hi Hafter.
  pose proof (state_after_reachable _ _ _ _ _ Hsize Hi Hafter) as [Hc Hl]%reachable_wf.
  assert (Hstatic : ∀ ops s0 l s1, run ops s0 = Ret l s1 -> same_static s0 s1).
  { clear. induction ops as [|o ops IH]; intros s0 l s1 H; simpl in H.
    - unfold mret, M_ret in H. by injection H as <- <-.
    - apply bind_Ret in H as (a & s2 & Hexec & H).
      apply bind_Ret in H as (l' & s3 & Hrun & H).
      unfold mret, M_ret in H. injection H as <- <-.
      apply exec_static in Hexec as (? & ? & ?).
      apply IH in Hrun as (? & ? & ?). unfold same_static.
      by repeat split; congruence. }
  unfold state_after, create in Hafter.
  destruct (decide (N > 0 ∧ i < N)); [|done].
  destruct (run ops _) as [l s1|] eqn:Hrun; [|done]. injection Hafter as ->.
  apply Hstatic in Hrun as (Hps & HN & Hidx). simpl in *.
  split; [done|]. split; [by rewrite (c_length _ Hc)|].
  repeat split; try done. apply (c_pin _ Hc).
Qed.

Lemma latch_released_and_pins_not_negative_witness :
  ∃ s,
    state_after 2 4 3 [OpNew; OpFetch 7; OpUnpin 3 true; OpFlushAll] = Some s
    ∧ latch_ s = false
    ∧ length (pages_ s) = 2%nat
    ∧ pool_size_ s = 2%nat ∧ num_instances_ s = 4 ∧ instance_index_ s = 3
    ∧ (∀ f pg, pages_ s !! f = Some pg -> 0 ≤ pin_count_ pg).
Proof.
  eexists. split; [vm_compute; reflexivity|].
  apply (latch_released_and_pins_not_negative 2 4 3
           [OpNew; OpFetch 7; OpUnpin 3 true; OpFlushAll]);
    [lia|lia|vm_compute; reflexivity].
Defined.
(** * Flushing *)

Section Flush.

Lemma set_trace_id s : set_trace (trace_ s) s = s.
Proof. by destruct s. Qed.

(** [FlushPgImp], forwards. *)
Lemma FlushPgImp_eq p s :
  latch_ s = false ->
  (∀ f, page_table_ s !! p = Some f -> is_Some (pages_ s !! f)) ->
  FlushPgImp p s
  = Ret (match flush_event s p with [] => false | _ => true end)
        (set_trace (trace_ s ++ flush_event s p) s).
Proof.
  intros Hl Hrange. unfold FlushPgImp, flush_event. mred. rewrite Hl. cbn.
  destruct (page_table_ s !! p) as [f|] eqn:Hp; cbn.
  - destruct (decide (p = INVALID_PAGE_ID)); cbn.
    + rewrite app_nil_r, set_trace_id. by rewrite unlock_lock.
    + destruct (Hrange f eq_refl) as [pg Hpg]. rewrite Hpg. cbn.
      f_equal. destruct s; simpl in *. by subst.
  - rewrite app_nil_r, set_trace_id. by rewrite unlock_lock.
Qed.

Lemma flush_event_set_trace tr s p : flush_event (set_trace tr s) p = flush_event s p.
Proof. done. Qed.

Lemma FlushAllPgs_loop_eq frames s tr :
  latch_ s = false ->
  (∀ p f, page_table_ s !! p = Some f -> is_Some (pages_ s !! f)) ->
  (∀ i, i ∈ frames -> is_Some (pages_ s !! i)) ->
  FlushAllPgs_loop frames (set_trace tr s)
  = Ret tt (set_trace (tr ++ flush_events s frames) s).
Proof.
  intros Hl Htable. revert tr.
  induction frames as [|i frames IH]; intros tr Hframes; simpl.
  - unfold flush_events. simpl. by rewrite app_nil_r.
  - destruct (Hframes i) as [pg Hpg]; [by left|].
    unfold flush_events. simpl. rewrite Hpg.
    mred. rewrite Hpg. cbn.
    rewrite (FlushPgImp_eq (page_id_ pg) (set_trace tr s)); [|done|].
    2:{ intros f Hf. by apply (Htable (page_id_ pg)). }
    cbn. rewrite flush_event_set_trace.
    change (set_trace (tr ++ flush_event s (page_id_ pg)) (set_trace tr s))
      with (set_trace (tr ++ flush_event s (page_id_ pg)) s).
    rewrite IH.
    + by rewrite <- app_assoc.
    + intros j Hj. apply Hframes. by right.
Qed.

Lemma FlushAllPgsImp_eq s :
  wf s ->
  FlushAllPgsImp s
  = Ret tt (set_trace (trace_ s ++ flush_events s (seq 0 (pool_size_ s))) s).
Proof.
  intros [Hc Hl]. unfold FlushAllPgsImp. mred.
  transitivity (FlushAllPgs_loop (seq 0 (pool_size_ s)) (set_trace (trace_ s) s));
    [by rewrite set_trace_id|].
  apply FlushAllPgs_loop_eq; [done| |].
  - intros p f Hp. destruct (c_table _ Hc p f Hp) as (pg & Hpg & _). by exists pg.
  - intros i Hi. by apply frames_in_range.
Qed.

Lemma elem_of_concat {X} (x : X) (ls : list (list X)) :
  x ∈ concat ls ↔ ∃ l, x ∈ l ∧ l ∈ ls.
Proof.
  induction ls as [|l ls IH]; simpl.
  - split; [by intros ?%elem_of_nil|]. by intros (l & _ & ?%elem_of_nil).
  - rewrite elem_of_app, IH. split.
    + intros [Hx|(l' & Hx & Hl')].
      * exists l. split; [done|]. by left.
      * exists l'. split; [done|]. by right.
    + intros (l' & Hx & [->|Hl']%elem_of_cons); [by left|].
      right. by exists l'.
Qed.

Lemma flush_events_elem s frames e :
  e ∈ flush_events s frames ->
  ∃ i pg f pg',
    i ∈ frames ∧ pages_ s !! i = Some pg
    ∧ page_table_ s !! page_id_ pg = Some f ∧ page_id_ pg ≠ INVALID_PAGE_ID
    ∧ pages_ s !! f = Some pg'
    ∧ e = EvWritePage (page_id_ pg) (data_ pg').
Proof.
  unfold flush_events. intros Hin.
  apply elem_of_concat in Hin as (evs & He & Hevs).
  apply list_elem_of_fmap in Hevs as (i & -> & Hi).
  destruct (pages_ s !! i) as [pg|] eqn:Hpg; [|by apply elem_of_nil in He].
  unfold flush_event in He.
  destruct (page_table_ s !! page_id_ pg) as [f|] eqn:Hp; [|by apply elem_of_nil in He].
  destruct (decide (page_id_ pg = INVALID_PAGE_ID)); [by apply elem_of_nil in He|].
  destruct (pages_ s !! f) as [pg'|] eqn:Hpg'; [|by apply elem_of_nil in He].
  apply list_elem_of_singleton in He. by exists i, pg, f, pg'.
Qed.

Lemma flush_events_resident s frames p f pg :
  page_table_ s !! p = Some f -> p ≠ INVALID_PAGE_ID ->
  pages_ s !! f = Some pg -> page_id_ pg = p -> f ∈ frames ->
  EvWritePage p (data_ pg) ∈ flush_events s frames.
Proof.
  intros Hp Hne Hpg Hid Hf. unfold flush_events.
  apply elem_of_concat. exists [EvWritePage p (data_ pg)].
  split; [by apply list_elem_of_singleton|].
  apply list_elem_of_fmap. exists f. split; [|done].
  rewrite Hpg. unfold flush_event. rewrite Hid, Hp.
  rewrite decide_False by done. by rewrite Hpg.
Qed.

End Flush.

(** X10.  [FlushPgImp] on a resident page other than the sentinel
    returns [true] after one [WritePage] of the bytes of its frame;
    nothing else changes: the frame keeps its dirty flag and its pin
    count.  On a page that is not resident, or on the sentinel, it
    returns [false] and changes nothing. *)
Theorem flush_writes_frame_and_keeps_dirty (s : BufferPoolManagerInstance)
    (p : page_id_t) :
  reachable s ->
  (∀ f pg, page_table_ s !! p = Some f -> pages_ s !! f = Some pg ->
           p ≠ INVALID_PAGE_ID ->
     FlushPgImp p s = Ret true (set_trace (trace_ s ++ [EvWritePage p (data_ pg)]) s)
     ∧ pages_ (set_trace (trace_ s ++ [EvWritePage p (data_ pg)]) s) !! f = Some pg)
  ∧ (page_table_ s !! p = None ∨ p = INVALID_PAGE_ID -> FlushPgImp p s = Ret false s).
Proof.
  intros [Hc Hl]%reachable_wf.
  assert (Hrange : ∀ f, page_table_ s !! p = Some f -> is_Some (pages_ s !! f)).
  { intros f Hp. destruct (c_table _ Hc p f Hp) as (pg & Hpg & _). by exists pg. }
  split.
  - intros f pg Hp Hpg Hne. rewrite FlushPgImp_eq by done.
    unfold flush_event. rewrite Hp, decide_False by done. by rewrite Hpg.
  - intros Hnone. rewrite FlushPgImp_eq by done.
    assert (flush_event s p = []) as ->.
    { unfold flush_event. destruct Hnone as [->| ->]; [done|].
      by destruct (page_table_ s !! INVALID_PAGE_ID). }
    by rewrite app_nil_r, set_trace_id.
Qed.

Lemma flush_writes_frame_and_keeps_dirty_witness :
  ∃ s,
    state_after 3 1 0 [OpNew; OpClientWrite 0 [Byte.x2a]; OpUnpin 0 true] = Some s
    ∧ (is_dirty_ <$> pages_ s !! 0%nat) = Some true
    ∧ FlushPgImp 0 s = Ret true (set_trace (trace_ s ++ [EvWritePage 0 [Byte.x2a]]) s)
    ∧ FlushPgImp 5 s = Ret false s.
Proof.
  eexists. split; [vm_compute; reflexivity|]. split; [vm_compute; reflexivity|].
  match goal with
  | |- FlushPgImp 0 ?s = _ ∧ _ =>
      assert (Hr : reachable s);
      [apply (state_after_reachable 3 1 0
                [OpNew; OpClientWrite 0 [Byte.x2a]; OpUnpin 0 true]);
         [lia|lia|vm_compute; reflexivity]|];
      destruct (flush_writes_frame_and_keeps_dirty s 0 Hr) as [Hyes _];
      destruct (flush_writes_frame_and_keeps_dirty s 5 Hr) as [_ Hno]
  end.
  split.
  - refine (proj1 (Hyes 0%nat (mkPage [Byte.x2a] 0 0 true) _ _ _));
      [vm_compute; reflexivity|vm_compute; reflexivity|done].
  - apply Hno. left. vm_compute. reflexivity.
Defined.

(** X11.  [FlushAllPgsImp] returns in every state an instance goes
    through, and does nothing but call [WritePage]: each call writes a
    resident page with the bytes of the frame the page table gives for
    it, and every resident page other than the sentinel is written.  No
    dirty flag is cleared. *)
Theorem flush_all_writes_every_resident_page (s : BufferPoolManagerInstance) :
  reachable s ->
  ∃ evs,
    FlushAllPgsImp s = Ret tt (set_trace (trace_ s ++ evs) s)
    ∧ (∀ e, e ∈ evs ->
         ∃ p f pg, e = EvWritePage p (data_ pg) ∧ p ≠ INVALID_PAGE_ID
                   ∧ page_table_ s !! p = Some f ∧ pages_ s !! f = Some pg)
    ∧ (∀ p f pg, page_table_ s !! p = Some f -> p ≠ INVALID_PAGE_ID ->
                 pages_ s !! f = Some pg ->
         EvWritePage p (data_ pg) ∈ evs).
Proof.
  intros Hwf%reachable_wf. pose proof Hwf as [Hc Hl].
  exists (flush_events s (seq 0 (pool_size_ s))).
  split; [by apply FlushAllPgsImp_eq|]. split.
  - intros e He.
    apply flush_events_elem in He as (i & pg & f & pg' & _ & _ & Hp & Hne & Hpg' & ->).
    by exists (page_id_ pg), f, pg'.
  - intros p f pg Hp Hne Hpg.
    destruct (c_table _ Hc p f Hp) as (pg0 & Hpg0 & Hid).
    rewrite Hpg in Hpg0. injection Hpg0 as <-.
    apply (flush_events_resident s _ p f pg); try done.
    apply elem_of_seq. pose proof (table_frame_in_range s p f Hc Hp). lia.
Qed.

Lemma flush_all_writes_every_resident_page_witness :
  ∃ s,
    state_after 2 1 0 [OpNew; OpNew; OpClientWrite 1 [Byte.x2a]; OpUnpin 1 true] = Some s
    ∧ ∃ evs,
        FlushAllPgsImp s = Ret tt (set_trace (trace_ s ++ evs) s)
        ∧ (∀ p f pg, page_table_ s !! p = Some f -> p ≠ INVALID_PAGE_ID ->
                     pages_ s !! f = Some pg ->
             EvWritePage p (data_ pg) ∈ evs).
Proof.
  eexists. split; [vm_compute; reflexivity|].
  match goal with
  | |- ∃ evs, FlushAllPgsImp ?s = _ ∧ _ =>
      destruct (flush_all_writes_every_resident_page s) as (evs & Hrun & _ & Hall)
  end.
  { apply (state_after_reachable 2 1 0
             [OpNew; OpNew; OpClientWrite 1 [Byte.x2a]; OpUnpin 1 true]);
      [lia|lia|vm_compute; reflexivity]. }
  exists evs. split; [exact Hrun|exact Hall].
Defined.
(** * Fetching *)

Section Fetch.
Import LRUReplacer.

(** What [FindReplacePolicy] leaves of the frames and of the history:
    the bytes, the page identifier and the dirty flag of every frame,
    and the history up to the events it adds. *)
Lemma FindReplacePolicy_frames s r s' :
  FindReplacePolicy s = Ret r s' ->
  (∃ tr, trace_ s' = trace_ s ++ tr)
  ∧ page_table_ s' ⊆ page_table_ s
  ∧ ∀ g pg, pages_ s !! g = Some pg ->
      ∃ pg', pages_ s' !! g = Some pg'
             ∧ data_ pg' = data_ pg ∧ page_id_ pg' = page_id_ pg
             ∧ is_dirty_ pg' = is_dirty_ pg.
Proof.
  intros H. apply FindReplacePolicy_cases in H
    as [(f & rest & _ & _ & ->)|[(_ & _ & _ & ->)
       |[(f & l & _ & _ & _ & _ & ->)|(f & l & pg0 & _ & _ & _ & Hpg0 & _ & ->)]]].
  - split; [exists []; by rewrite app_nil_r|]. split; [done|]. eauto.
  - split; [exists []; by rewrite app_nil_r|]. split; [done|]. eauto.
  - split; [exists []; by rewrite app_nil_r|]. split; [done|]. eauto.
  - unfold evict_state. destruct (is_dirty_ pg0) eqn:Hd; simpl.
    + split; [eexists; by rewrite <- app_assoc|]. split; [apply delete_subseteq|].
      intros g pg Hpg. destruct (decide (g = f)) as [->|Hne].
      * rewrite list_lookup_insert_eq by (by eapply lookup_lt_Some).
        rewrite Hpg0 in Hpg. injection Hpg as <-. eexists. split; [done|]. by simpl.
      * rewrite list_lookup_insert_ne by done. eauto.
    + split; [by eexists|]. split; [apply delete_subseteq|]. eauto.
Qed.

(** [FetchPgImp] on a resident page. *)
Lemma FetchPgImp_hit s p f pg :
  latch_ s = false ->
  page_table_ s !! p = Some f -> pages_ s !! f = Some pg ->
  FetchPgImp p s
  = Ret (Some f)
        (set_replacer (Pin f (replacer_ s))
           (set_pages (<[f := mkPage (data_ pg) (page_id_ pg) (pin_count_ pg + 1)
                                     (is_dirty_ pg)]> (pages_ s)) s)).
Proof.
  intros Hl Hp Hpg. unfold FetchPgImp. mred. rewrite Hl. cbn. rewrite Hp. cbn.
  rewrite Hpg. cbn. f_equal. destruct s; simpl in *. by subst.
Qed.

Lemma exec_Fetch p s r s' :
  FetchPgImp p s = Ret r s' -> exec (OpFetch p) s = Ret (AFrame r) s'.
Proof. intros H. simpl. by rewrite (bind_eq _ _ _ _ _ H). Qed.

(** [UnpinPgImp] on a page that stays pinned. *)
Lemma UnpinPgImp_still_pinned s p f pg :
  latch_ s = false ->
  page_table_ s !! p = Some f -> pages_ s !! f = Some pg -> 1 < pin_count_ pg ->
  UnpinPgImp p false s
  = Ret true (set_pages (<[f := mkPage (data_ pg) (page_id_ pg) (pin_count_ pg - 1)
                                       (is_dirty_ pg)]> (pages_ s)) s).
Proof.
  intros Hl Hp Hpg Hpin.
  assert (Hlt : (f < length (pages_ s))%nat) by (by eapply lookup_lt_Some).
  unfold UnpinPgImp. mred. rewrite Hl. cbn. rewrite Hp. cbn.
  rewrite Hpg. cbn. rewrite decide_False by lia. cbn.
  rewrite Hpg. cbn. rewrite list_lookup_insert_eq by done. cbn.
  rewrite decide_False by lia. cbn.
  f_equal. destruct s; simpl in *. by subst.
Qed.

End Fetch.

(** X12.  [FetchPgImp] on a resident page returns its frame with the pin
    count one higher, and takes the frame out of the candidates of the
    replacer; it touches neither the disk, nor the bytes and the dirty
    flag of the frame, nor the page table, nor the free list. *)
Theorem fetch_resident_page_pins_it (s : BufferPoolManagerInstance)
    (p : page_id_t) (f : frame_id_t) (pg : Page) :
  reachable s ->
  page_table_ s !! p = Some f -> pages_ s !! f = Some pg ->
  ∃ s',
    FetchPgImp p s = Ret (Some f) s'
    ∧ pages_ s' = <[f := mkPage (data_ pg) p (pin_count_ pg + 1) (is_dirty_ pg)]> (pages_ s)
    ∧ candidates s' = filter (fun g => g ≠ f) (candidates s)
    ∧ page_table_ s' = page_table_ s
    ∧ free_list_ s' = free_list_ s
    ∧ trace_ s' = trace_ s.
Proof.
  intros [Hc Hl]%reachable_wf Hp Hpg.
  destruct (c_table _ Hc p f Hp) as (pg0 & Hpg0 & Hid).
  rewrite Hpg in Hpg0. injection Hpg0 as <-.
  eexists. split; [by apply FetchPgImp_hit|]. simpl.
  split; [by rewrite Hid|]. split; [|done].
  unfold candidates. simpl.
  apply (Pin_lru_filter _ _ (c_synced _ Hc)).
Qed.

Lemma fetch_resident_page_pins_it_witness :
  ∃ s pg,
    state_after 3 1 0 [OpNew; OpNew; OpUnpin 0 true; OpUnpin 1 false] = Some s
    ∧ pages_ s !! 0%nat = Some pg
    ∧ candidates s = [1; 0]%nat
    ∧ ∃ s',
        FetchPgImp 0 s = Ret (Some 0%nat) s'
        ∧ pages_ s' = <[0%nat := mkPage (data_ pg) 0 (pin_count_ pg + 1) (is_dirty_ pg)]>
                        (pages_ s)
        ∧ candidates s' = filter (fun g => g ≠ 0%nat) (candidates s)
        ∧ page_table_ s' = page_table_ s
        ∧ free_list_ s' = free_list_ s
        ∧ trace_ s' = trace_ s.
Proof.
  eexists _, _. split; [vm_compute; reflexivity|].
  split; [vm_compute; reflexivity|]. split; [vm_compute; reflexivity|].
  apply (fetch_resident_page_pins_it _ 0 0%nat).
  - apply (state_after_reachable 3 1 0 [OpNew; OpNew; OpUnpin 0 true; OpUnpin 1 false]);
      [lia|lia|vm_compute; reflexivity].
  - vm_compute. reflexivity.
  - vm_compute. reflexivity.
Defined.

(** X13.  A [FetchPgImp] of a page that is resident and pinned, followed
    by [UnpinPgImp] of it with [is_dirty = false], leaves the instance
    exactly as it was. *)
Theorem fetch_then_unpin_restores (s : BufferPoolManagerInstance)
    (p : page_id_t) (f : frame_id_t) (pg : Page) :
  reachable s ->
  page_table_ s !! p = Some f -> pages_ s !! f = Some pg -> 0 < pin_count_ pg ->
  run [OpFetch p; OpUnpin p false] s = Ret [AFrame (Some f); ABool true] s.
Proof.
  intros [Hc Hl]%reachable_wf Hp Hpg Hpin.
  assert (Hlt : (f < length (pages_ s))%nat) by (by eapply lookup_lt_Some).
  assert (Hout : f ∉ LRUReplacer.lru (replacer_ s)).
  { intros Hin. destruct (c_lru _ Hc f Hin) as (pg0 & Hpg0 & Hzero).
    rewrite Hpg in Hpg0. injection Hpg0 as <-. lia. }
  eapply run_cons; [apply exec_Fetch; by apply FetchPgImp_hit|].
  rewrite (LRUFacts.Pin_absent f _ (c_synced _ Hc) Hout).
  eapply run_cons; [|reflexivity].
  apply exec_Unpin.
  rewrite (UnpinPgImp_still_pinned _ p f
             (mkPage (data_ pg) (page_id_ pg) (pin_count_ pg + 1) (is_dirty_ pg)));
    simpl; try done; try lia.
  - f_equal. rewrite list_insert_insert_eq.
    replace (pin_count_ pg + 1 - 1) with (pin_count_ pg) by lia.
    destruct s as [? ? ? ? pages ? ? ? ? ?]; simpl in *.
    unfold set_replacer, set_pages; simpl. f_equal.
    apply list_insert_id. by destruct pg.
  - by apply list_lookup_insert_eq.
Qed.

Lemma fetch_then_unpin_restores_witness :
  ∃ s,
    state_after 3 1 0 [OpNew; OpNew; OpUnpin 1 true] = Some s
    ∧ run [OpFetch 0; OpUnpin 0 false] s = Ret [AFrame (Some 0%nat); ABool true] s.
Proof.
  eexists. split; [vm_compute; reflexivity|].
  apply (fetch_then_unpin_restores _ 0 0%nat (mkPage zero_page 0 1 false)).
  - apply (state_after_reachable 3 1 0 [OpNew; OpNew; OpUnpin 1 true]);
      [lia|lia|vm_compute; reflexivity].
  - vm_compute. reflexivity.
  - vm_compute. reflexivity.
  - simpl. lia.
Defined.

(** [FetchPgImp] on a page that is not resident. *)
Lemma FetchPgImp_miss (s : BufferPoolManagerInstance) (p : page_id_t) :
  wf s ->
  page_table_ s !! p = None ->
  ∃ r s',
    FetchPgImp p s = Ret r s'
    ∧ (∀ f0 rest, free_list_ s = f0 :: rest -> r = Some f0)
    ∧ match r with
      | Some f =>
          page_table_ s' !! p = Some f
          ∧ pages_ s' !! f = Some (mkPage (disk_contents (trace_ s') p) p 1 false)
          ∧ (f ∉ candidates s')
          ∧ (f ∉ free_list_ s')
          ∧ ∃ tr, trace_ s' = trace_ s ++ tr ++ [EvReadPage p]
      | None =>
          free_list_ s = []
          ∧ pages_ s' = pages_ s
          ∧ page_table_ s' = page_table_ s
          ∧ trace_ s' = trace_ s
      end.
Proof.
  intros [Hc Hl] Hp.
  assert (Hc0 : consistent (set_latch true s)) by (by c_step).
  destruct (FindReplacePolicy_returns _ Hc0) as (r & s1 & Hfind).
  pose proof (FindReplacePolicy_consistent _ _ _ Hc0 Hfind) as (Hc1 & Hl1 & Htaken).
  pose proof (FindReplacePolicy_frames _ _ _ Hfind) as ([tr1 Htr1] & _ & _).
  assert (Hfirst : ∀ f0 rest, free_list_ s = f0 :: rest -> r = Some f0).
  { intros f0 rest Hfree.
    rewrite (FindReplacePolicy_free (set_latch true s) f0 rest) in Hfind by done.
    by injection Hfind as <- _. }
  unfold FetchPgImp. mred. rewrite Hl. cbn. rewrite Hp. cbn.
  rewrite Hfind. cbn. destruct r as [f|]; cbn.
  - destruct (Htaken f eq_refl) as (Hfree & Hnone & pg & Hpg & Hpin).
    assert (Hlt : (f < length (pages_ s1))%nat) by (by eapply lookup_lt_Some).
    rewrite Hpg. cbn.
    assert (Hout : f ∉ LRUReplacer.lru (LRUReplacer.Pin f (replacer_ s1))).
    { apply LRUFacts.Pin_not_elem, (c_synced _ Hc1). }
    simpl in Htr1.
    destruct (is_dirty_ pg); cbn; rewrite Hpg; cbn;
      (eexists _, _; split; [reflexivity|]; split; [done|]; cbn;
       split; [apply lookup_insert_eq|];
       split; [rewrite list_lookup_insert_eq by done; by rewrite Hpin|];
       split; [done|]; split; [done|]).
    + exists (tr1 ++ [EvWritePage (page_id_ pg) (data_ pg); EvTableErase (page_id_ pg)]).
      rewrite Htr1. by rewrite <- !app_assoc.
    + exists (tr1 ++ [EvTableErase (page_id_ pg)]).
      rewrite Htr1. by rewrite <- !app_assoc.
  - eexists _, _. split; [reflexivity|]. split; [done|]. cbn.
    apply FindReplacePolicy_cases in Hfind
      as [(f & rest & _ & ? & _)|[(Hfree & _ & _ & ->)
         |[(f & l & Hfree & _ & _ & _ & ->)|(f & l & pg0 & _ & _ & _ & _ & ? & _)]]];
      done.
Qed.

(** X14.  [FetchPgImp] on a page that is not resident returns in every
    state an instance goes through.  When it returns a frame, the page
    table maps the page to it, the frame holds the page, pinned once
    and clean, and is neither a candidate nor free; the last call to
    the disk manager is the [ReadPage] of the page.  The first free
    frame is used when there is one.  When it returns [nullptr], the
    free list was empty, and the frames, the page table and the disk
    are as they were. *)
Theorem fetch_miss_reads_page_from_disk (s : BufferPoolManagerInstance)
    (p : page_id_t) :
  reachable s ->
  page_table_ s !! p = None ->
  ∃ r s',
    FetchPgImp p s = Ret r s'
    ∧ (∀ f0 rest, free_list_ s = f0 :: rest -> r = Some f0)
    ∧ match r with
      | Some f =>
          page_table_ s' !! p = Some f
          ∧ (page_id_ <$> pages_ s' !! f) = Some p
          ∧ (pin_count_ <$> pages_ s' !! f) = Some 1
          ∧ (is_dirty_ <$> pages_ s' !! f) = Some false
          ∧ (f ∉ candidates s')
          ∧ (f ∉ free_list_ s')
          ∧ ∃ tr, trace_ s' = trace_ s ++ tr ++ [EvReadPage p]
      | None =>
          free_list_ s = []
          ∧ pages_ s' = pages_ s
          ∧ page_table_ s' = page_table_ s
          ∧ trace_ s' = trace_ s
      end.
Proof.
  intros Hr%reachable_wf Hp.
  destruct (FetchPgImp_miss s p Hr Hp) as (r & s' & Hrun & Hfirst & Hres).
  exists r, s'. split; [done|]. split; [done|].
  destruct r as [f|]; [|done].
  destruct Hres as (Htable & Hpg & Hout & Hfree & Htr).
  split; [done|]. rewrite Hpg. by repeat split.
Qed.

Lemma fetch_miss_reads_page_from_disk_witness :
  ∃ s,
    state_after 3 1 0
      [OpNew; OpClientWrite 0 [Byte.x2a]; OpUnpin 0 true; OpNew; OpUnpin 1 false;
       OpNew; OpNew] = Some s
    ∧ page_table_ s !! 0 = None
    ∧ ∃ r s',
        FetchPgImp 0 s = Ret r s'
        ∧ (∀ f0 rest, free_list_ s = f0 :: rest -> r = Some f0)
        ∧ match r with
          | Some f =>
              page_table_ s' !! 0 = Some f
              ∧ (page_id_ <$> pages_ s' !! f) = Some 0
              ∧ (pin_count_ <$> pages_ s' !! f) = Some 1
              ∧ (is_dirty_ <$> pages_ s' !! f) = Some false
              ∧ (f ∉ candidates s')
              ∧ (f ∉ free_list_ s')
              ∧ ∃ tr, trace_ s' = trace_ s ++ tr ++ [EvReadPage 0]
          | None =>
              free_list_ s = []
              ∧ pages_ s' = pages_ s
              ∧ page_table_ s' = page_table_ s
              ∧ trace_ s' = trace_ s
          end.
Proof.
  eexists. split; [vm_compute; reflexivity|]. split; [vm_compute; reflexivity|].
  apply fetch_miss_reads_page_from_disk.
  - apply (state_after_reachable 3 1 0
             [OpNew; OpClientWrite 0 [Byte.x2a]; OpUnpin 0 true; OpNew; OpUnpin 1 false;
              OpNew; OpNew]);
      [lia|lia|vm_compute; reflexivity].
  - vm_compute. reflexivity.
Defined.
(** * New pages *)

Section NewPage.
Import LRUReplacer.

Lemma all_pinned_loop_returns frames s :
  (∀ i, i ∈ frames -> is_Some (pages_ s !! i)) ->
  all_pinned_loop frames s = Ret true s ∨ all_pinned_loop frames s = Ret false s.
Proof.
  induction frames as [|i frames IH]; intros Hframes; simpl; [by left|].
  destruct (Hframes i) as [pg Hpg]; [by left|].
  mred. rewrite Hpg. cbn. destruct (decide (pin_count_ pg = 0)); cbn; [by right|].
  apply IH. intros j Hj. apply Hframes. by right.
Qed.

(** [NewPgImp] when every frame is pinned. *)
Lemma NewPgImp_all_pinned s :
  wf s ->
  (∀ f pg, pages_ s !! f = Some pg -> pin_count_ pg > 0) ->
  NewPgImp s = Ret None (set_next_page_id (next_page_id_ s + num_instances_ s) s).
Proof.
  intros [Hc Hl] Hpinned.
  destruct (c_alloc _ Hc) as (_ & _ & Hmod & _).
  unfold NewPgImp.
  rewrite (bind_eq _ _ _ _ _ (lock_eq _ Hl)).
  rewrite (bind_eq _ _ _ _ _ (AllocatePage_eq (set_latch true s) Hmod)).
  mred.
  rewrite all_pinned_loop_true; cbn.
  - f_equal. destruct s; simpl in *. by subst.
  - intros i Hi. destruct (frames_in_range s i Hc Hi) as [pg Hpg].
    exists pg. split; [done|]. specialize (Hpinned i pg Hpg). lia.
Qed.

(** [NewPgImp] when the free list is not empty: the state it leaves. *)
Lemma NewPgImp_free_state s f rest pg :
  wf s -> free_list_ s = f :: rest -> pages_ s !! f = Some pg ->
  NewPgImp s
  = Ret (Some (next_page_id_ s, f))
        (mkBPI (pool_size_ s) (num_instances_ s) (instance_index_ s)
               (next_page_id_ s + num_instances_ s)
               (<[f := mkPage (data_ pg) (next_page_id_ s) 1 false]> (pages_ s))
               (Pin f (replacer_ s)) rest
               (<[next_page_id_ s := f]> (page_table_ s)) false
               (trace_ s ++ [EvWritePage (next_page_id_ s) (data_ pg)])).
Proof.
  intros [Hc Hl] Hfree Hpg.
  destruct (c_alloc _ Hc) as (_ & _ & Hmod & _).
  destruct (c_free _ Hc f) as [(pg0 & Hpg0 & Hpin) _]; [rewrite Hfree; by left|].
  rewrite Hpg in Hpg0. injection Hpg0 as <-.
  assert (Hlt : (f < length (pages_ s))%nat) by (by eapply lookup_lt_Some).
  unfold NewPgImp.
  rewrite (bind_eq _ _ _ _ _ (lock_eq _ Hl)).
  rewrite (bind_eq _ _ _ _ _ (AllocatePage_eq (set_latch true s) Hmod)).
  mred.
  rewrite (all_pinned_loop_false _ _ f pg); cbn; try done.
  2:{ intros i Hi. by apply frames_in_range. }
  2:{ apply elem_of_seq. rewrite <- (c_length _ Hc). lia. }
  rewrite (FindReplacePolicy_free _ f rest) by done. cbn.
  rewrite Hpg. cbn.
  rewrite list_lookup_insert_eq by done. cbn.
  rewrite list_lookup_insert_eq by (by rewrite length_insert). cbn.
  rewrite list_insert_insert_eq, Hpin. done.
Qed.

(** [NewPgImp] in a well-formed state. *)
Lemma NewPgImp_result s :
  wf s ->
  ∃ r s',
    NewPgImp s = Ret r s'
    ∧ next_page_id_ s' = next_page_id_ s + num_instances_ s
    ∧ (∀ f0 rest, free_list_ s = f0 :: rest -> r = Some (next_page_id_ s, f0))
    ∧ match r with
      | Some (p, f) =>
          p = next_page_id_ s
          ∧ p `mod` num_instances_ s = instance_index_ s
          ∧ page_table_ s' !! p = Some f
          ∧ (∃ pg, pages_ s !! f = Some pg
                   ∧ pages_ s' !! f = Some (mkPage (data_ pg) p 1 false)
                   ∧ ∃ tr, trace_ s' = trace_ s ++ tr ++ [EvWritePage p (data_ pg)])
          ∧ (f ∉ lru (replacer_ s'))
          ∧ (f ∉ free_list_ s')
      | None =>
          free_list_ s = []
          ∧ pages_ s' = pages_ s
          ∧ page_table_ s' = page_table_ s
          ∧ trace_ s' = trace_ s
      end.
Proof.
  intros Hwf. pose proof Hwf as [Hc Hl].
  destruct (c_alloc _ Hc) as (_ & _ & Hmod & _).
  assert (Hfirst : ∀ r s' f0 rest,
            NewPgImp s = Ret r s' -> free_list_ s = f0 :: rest ->
            r = Some (next_page_id_ s, f0)).
  { intros r s' f0 rest Hrun Hfree.
    destruct (c_free _ Hc f0) as [(pg & Hpg & _) _]; [rewrite Hfree; by left|].
    rewrite (NewPgImp_free_state s f0 rest pg) in Hrun by done.
    by injection Hrun as <- _. }
  assert (Hnil : ∀ r s', NewPgImp s = Ret r s' -> r = None -> free_list_ s = []).
  { intros r s' Hrun ->. destruct (free_list_ s) as [|f0 rest] eqn:Hfree; [done|].
    by specialize (Hfirst _ _ f0 rest Hrun eq_refl). }
  assert (Hrun : ∃ r s',
    NewPgImp s = Ret r s'
    ∧ next_page_id_ s' = next_page_id_ s + num_instances_ s
    ∧ match r with
      | Some (p, f) =>
          p = next_page_id_ s
          ∧ page_table_ s' !! p = Some f
          ∧ (∃ pg, pages_ s !! f = Some pg
                   ∧ pages_ s' !! f = Some (mkPage (data_ pg) p 1 false)
                   ∧ ∃ tr, trace_ s' = trace_ s ++ tr ++ [EvWritePage p (data_ pg)])
          ∧ (f ∉ lru (replacer_ s'))
          ∧ (f ∉ free_list_ s')
      | None =>
          pages_ s' = pages_ s
          ∧ page_table_ s' = page_table_ s
          ∧ trace_ s' = trace_ s
      end).
  { unfold NewPgImp.
    rewrite (bind_eq _ _ _ _ _ (lock_eq _ Hl)).
    rewrite (bind_eq _ _ _ _ _ (AllocatePage_eq (set_latch true s) Hmod)).
    mred.
    match goal with
    | |- context [all_pinned_loop ?l ?s0] =>
        assert (Hc0 : consistent s0)
          by (refine (consistent_set_next (set_latch true s) _); by c_step);
        destruct (all_pinned_loop_returns l s0) as [Hb|Hb];
          [intros i Hi; by apply (frames_in_range s0)|rewrite Hb; cbn|rewrite Hb; cbn]
    end.
    { eexists _, _. split; [reflexivity|]. by cbn. }
    match goal with
    | |- context [FindReplacePolicy ?s0] =>
        destruct (FindReplacePolicy_returns s0 Hc0) as (v & s1 & Hfind);
        pose proof (FindReplacePolicy_consistent _ _ _ Hc0 Hfind) as (Hc1 & Hl1 & Htaken);
        pose proof (FindReplacePolicy_frames _ _ _ Hfind) as ([tr1 Htr1] & _ & Hdata);
        pose proof (FindReplacePolicy_next _ _ _ Hfind) as Hnext;
        rewrite Hfind; cbn
    end.
    destruct v as [f|]; cbn.
    - destruct (Htaken f eq_refl) as (Hfree & Hnone & pg1 & Hpg1 & Hpin).
      assert (Hlt : (f < length (pages_ s1))%nat) by (by eapply lookup_lt_Some).
      destruct (frames_in_range s f Hc) as [pg Hpg].
      { apply elem_of_seq. pose proof Hlt as Hlt'. rewrite (c_length _ Hc1) in Hlt'.
        apply FindReplacePolicy_static in Hfind as (Hps & _). simpl in Hps. lia. }
      destruct (Hdata f pg Hpg) as (pg1' & Hpg1' & Hd & _).
      rewrite Hpg1 in Hpg1'. injection Hpg1' as <-.
      rewrite Hpg1. cbn.
      rewrite list_lookup_insert_eq by done. cbn.
      rewrite list_lookup_insert_eq by (by rewrite length_insert). cbn.
      eexists _, _. split; [reflexivity|]. cbn. split; [done|]. split; [done|].
      split; [apply lookup_insert_eq|]. split.
      + exists pg. split; [done|]. split.
        * rewrite list_lookup_insert_eq by (by rewrite length_insert).
          by rewrite Hpin, Hd.
        * exists tr1. simpl in Htr1. rewrite Htr1, Hd. by rewrite <- app_assoc.
      + split; [|done]. apply LRUFacts.Pin_not_elem, (c_synced _ Hc1).
    - eexists _, _. split; [reflexivity|]. cbn. split; [done|].
      apply FindReplacePolicy_cases in Hfind
        as [(f & rest & _ & ? & _)|[(_ & _ & _ & ->)
           |[(f & l & _ & _ & _ & _ & ->)|(f & l & pg0 & _ & _ & _ & _ & ? & _)]]];
        done. }
  destruct Hrun as (r & s' & Hrun & Hnext & Hres).
  exists r, s'. split; [done|]. split; [done|]. split; [by eauto|].
  destruct r as [[p f]|].
  - destruct Hres as (-> & Hres). split; [done|]. split; [done|]. done.
  - split; [by eapply Hnil|done].
Qed.

Lemma run_static ops s l s' : run ops s = Ret l s' -> same_static s s'.
Proof.
  revert s l s'. induction ops as [|o ops IH]; intros s l s' H; simpl in H.
  - unfold mret, M_ret in H. by injection H as <- <-.
  - apply bind_Ret in H as (a & s2 & Hexec & H).
    apply bind_Ret in H as (l' & s3 & Hrun & H).
    unfold mret, M_ret in H. injection H as <- <-.
    apply exec_static in Hexec as (? & ? & ?).
    apply IH in Hrun as (? & ? & ?). unfold same_static.
    by repeat split; congruence.
Qed.

End NewPage.





(** X17.  [NewPgImp] does not look whether the identifier it allocates
    is resident already (it is when the page was fetched before it was
    allocated).  With a free frame at hand, the new page takes the
    entry of the page table; the frame that held the identifier keeps
    it, with its pin count, but no entry of the page table names that
    frame any more, and it is not in the free list: no [UnpinPgImp] or
    [DeletePgImp] reaches it. *)
Theorem new_page_shadows_resident_id (s : BufferPoolManagerInstance)
    (f f0 : frame_id_t) (rest : list frame_id_t) :
  reachable s ->
  free_list_ s = f :: rest ->
  page_table_ s !! next_page_id_ s = Some f0 ->
  ∃ s',
    NewPgImp s = Ret (Some (next_page_id_ s, f)) s'
    ∧ f ≠ f0
    ∧ page_table_ s' !! next_page_id_ s = Some f
    ∧ pages_ s' !! f0 = pages_ s !! f0
    ∧ (page_id_ <$> pages_ s' !! f0) = Some (next_page_id_ s)
    ∧ (∀ q, page_table_ s' !! q ≠ Some f0)
    ∧ (f0 ∉ free_list_ s').
Proof.
  intros Hwf%reachable_wf Hfree Hp. pose proof Hwf as [Hc Hl].
  destruct (c_free _ Hc f) as [(pg & Hpg & Hpin) Hnone]; [rewrite Hfree; by left|].
  destruct (c_table _ Hc _ _ Hp) as (pg0 & Hpg0 & Hid).
  assert (Hne : f ≠ f0).
  { intros ->. by apply (Hnone (next_page_id_ s)). }
  assert (Hfree0 : f0 ∉ free_list_ s).
  { intros Hin. destruct (c_free _ Hc f0 Hin) as [_ Hnone0].
    by apply (Hnone0 (next_page_id_ s)). }
  eexists. split; [by apply (NewPgImp_free_state s f rest pg)|]. simpl.
  split; [done|]. split; [apply lookup_insert_eq|].
  split; [by rewrite list_lookup_insert_ne|].
  split; [rewrite list_lookup_insert_ne by done; by rewrite Hpg0; simpl; rewrite Hid|].
  split.
  - intros q Hq. destruct (decide (q = next_page_id_ s)) as [->|Hq'].
    + rewrite lookup_insert_eq in Hq. congruence.
    + rewrite lookup_insert_ne in Hq by done.
      apply Hq'. by apply (table_frame_unique s (next_page_id_ s) q f0).
  - intros Hin. apply Hfree0. rewrite Hfree. by right.
Qed.

Lemma new_page_shadows_resident_id_witness :
  ∃ s,
    state_after 3 1 0 [OpFetch 1; OpNew] = Some s
    ∧ ∃ s',
        NewPgImp s = Ret (Some (next_page_id_ s, 2%nat)) s'
        ∧ 2%nat ≠ 0%nat
        ∧ page_table_ s' !! next_page_id_ s = Some 2%nat
        ∧ pages_ s' !! 0%nat = pages_ s !! 0%nat
        ∧ (page_id_ <$> pages_ s' !! 0%nat) = Some (next_page_id_ s)
        ∧ (∀ q, page_table_ s' !! q ≠ Some 0%nat)
        ∧ (0%nat ∉ free_list_ s').
Proof.
  eexists. split; [vm_compute; reflexivity|].
  apply (new_page_shadows_resident_id _ 2%nat 0%nat []).
  - apply (state_after_reachable 3 1 0 [OpFetch 1; OpNew]);
      [lia|lia|vm_compute; reflexivity].
  - vm_compute. reflexivity.
  - vm_compute. reflexivity.
Defined.
(** * Unpinning and deleting *)

Section UnpinDelete.
Import LRUReplacer.




(** In a pool of one frame the [Unpin] that takes the last pin never
    returns. *)
Lemma UnpinPgImp_one_frame s p f pg d :
  wf s -> pool_size_ s = 1%nat ->
  page_table_ s !! p = Some f -> pages_ s !! f = Some pg -> pin_count_ pg = 1 ->
  UnpinPgImp p d s = Stuck Diverges.
Proof.
  intros [Hc Hl] Hone Hp Hpg Hpin.
  assert (Hlt : (f < length (pages_ s))%nat) by (by eapply lookup_lt_Some).
  destruct (c_one _ Hc Hone) as [Hempty _].
  assert (Hr : Unpin f (replacer_ s) = None).
  { apply LRUFacts.Unpin_diverges.
    - rewrite (LRUFacts.synced_elem _ _ (c_synced _ Hc)), Hempty. apply not_elem_of_nil.
    - destruct (c_capacity _ Hc) as [-> _]. by rewrite Hone. }
  unfold UnpinPgImp. mred. rewrite Hl. cbn. rewrite Hp. cbn.
  destruct d; cbn; rewrite Hpg; cbn.
  - rewrite list_lookup_insert_eq by done. cbn.
    rewrite decide_False by lia. cbn.
    rewrite list_lookup_insert_eq by done. cbn.
    rewrite list_lookup_insert_eq by (by rewrite length_insert). cbn.
    rewrite decide_True by lia. cbn. by rewrite Hr.
  - rewrite decide_False by lia. cbn. rewrite Hpg. cbn.
    rewrite list_lookup_insert_eq by done. cbn.
    rewrite decide_True by lia. cbn. by rewrite Hr.
Qed.


(** [DeletePgImp] on a clean page that is not pinned: the state it
    leaves. *)
Lemma DeletePgImp_clean_state s p f pg :
  latch_ s = false ->
  page_table_ s !! p = Some f -> pages_ s !! f = Some pg ->
  pin_count_ pg = 0 -> is_dirty_ pg = false ->
  DeletePgImp p s
  = Ret true
        (mkBPI (pool_size_ s) (num_instances_ s) (instance_index_ s) (next_page_id_ s)
               (<[f := mkPage (data_ pg) INVALID_PAGE_ID 0 false]> (pages_ s))
               (replacer_ s) (free_list_ s ++ [f]) (delete p (page_table_ s)) false
               (trace_ s ++ [EvDeallocatePage p; EvTableErase p])).
Proof.
  intros Hl Hp Hpg Hpin Hd. unfold DeletePgImp. mred. rewrite Hl. cbn.
  rewrite Hp. cbn. rewrite Hpg. cbn. rewrite decide_False by lia.
  rewrite Hd. cbn. rewrite Hpg. cbn. by rewrite <- app_assoc.
Qed.

End UnpinDelete.



(** X19.  In a pool of one frame a resident page is always pinned and
    the replacer is always empty; the [UnpinPgImp] that would take the
    last pin never returns: the loop of [LRUReplacer::Unpin] waits for
    the size of an empty list to fall below [capacity - 1 = 0]. *)
Theorem unpin_in_single_frame_pool_diverges (s : BufferPoolManagerInstance)
    (p : page_id_t) (f : frame_id_t) (pg : Page) (d : bool) :
  reachable s ->
  pool_size_ s = 1%nat ->
  page_table_ s !! p = Some f -> pages_ s !! f = Some pg ->
  1 ≤ pin_count_ pg
  ∧ candidates s = []
  ∧ (pin_count_ pg = 1 -> UnpinPgImp p d s = Stuck Diverges).
Proof.
  intros Hwf%reachable_wf Hone Hp Hpg. pose proof Hwf as [Hc Hl].
  destruct (c_one _ Hc Hone) as [Hempty Hpins].
  split; [by apply (Hpins p f pg)|]. split; [done|].
  intros Hpin. by apply (UnpinPgImp_one_frame s p f pg).
Qed.

Lemma unpin_in_single_frame_pool_diverges_witness :
  ∃ s pg,
    state_after 1 1 0 [OpNew] = Some s
    ∧ pages_ s !! 0%nat = Some pg
    ∧ 1 ≤ pin_count_ pg
    ∧ candidates s = []
    ∧ (pin_count_ pg = 1 -> UnpinPgImp 0 false s = Stuck Diverges).
Proof.
  eexists _, _. split; [vm_compute; reflexivity|]. split; [vm_compute; reflexivity|].
  apply (unpin_in_single_frame_pool_diverges _ 0 0%nat).
  - apply (state_after_reachable 1 1 0 [OpNew]); [lia|lia|vm_compute; reflexivity].
  - vm_compute. reflexivity.
  - vm_compute. reflexivity.
  - vm_compute. reflexivity.
Defined.

(** X20.  [DeletePgImp] where it returns.  On a page that is not
    resident it returns [true] and changes nothing; on a pinned page it
    returns [false] and changes nothing; on a clean page that is not
    pinned it returns [true] after [DeallocatePage]: the entry of the
    page table is gone, the frame holds no page (its bytes stay), it is
    at the back of the free list, and the replacer has not been told. *)
Theorem delete_result (s : BufferPoolManagerInstance) (p : page_id_t) :
  reachable s ->
  (page_table_ s !! p = None -> DeletePgImp p s = Ret true s)
  ∧ (∀ f pg, page_table_ s !! p = Some f -> pages_ s !! f = Some pg ->
             0 < pin_count_ pg -> DeletePgImp p s = Ret false s)
  ∧ (∀ f pg, page_table_ s !! p = Some f -> pages_ s !! f = Some pg ->
             pin_count_ pg = 0 -> is_dirty_ pg = false ->
     ∃ s',
       DeletePgImp p s = Ret true s'
       ∧ page_table_ s' = delete p (page_table_ s)
       ∧ pages_ s' = <[f := mkPage (data_ pg) INVALID_PAGE_ID 0 false]> (pages_ s)
       ∧ free_list_ s' = free_list_ s ++ [f]
       ∧ trace_ s' = trace_ s ++ [EvDeallocatePage p; EvTableErase p]
       ∧ replacer_ s' = replacer_ s).
Proof.
  intros [Hc Hl]%reachable_wf. split; [|split].
  - intros Hp. by apply delete_absent_page.
  - intros f pg Hp Hpg Hpin. apply (DeletePgImp_pinned s p f pg); [done|done|done|lia].
  - intros f pg Hp Hpg Hpin Hd. eexists.
    split; [by apply (DeletePgImp_clean_state s p f pg)|]. by simpl.
Qed.

Lemma delete_result_witness :
  ∃ s,
    state_after 3 1 0 [OpNew; OpNew; OpUnpin 1 false] = Some s
    ∧ DeletePgImp 7 s = Ret true s
    ∧ DeletePgImp 0 s = Ret false s
    ∧ ∃ s', DeletePgImp 1 s = Ret true s' ∧ free_list_ s' = free_list_ s ++ [1%nat].
Proof.
  eexists. split; [vm_compute; reflexivity|].
  match goal with
  | |- DeletePgImp 7 ?s = _ ∧ _ =>
      assert (Hr : reachable s);
      [apply (state_after_reachable 3 1 0 [OpNew; OpNew; OpUnpin 1 false]);
         [lia|lia|vm_compute; reflexivity]|];
      destruct (delete_result s 7 Hr) as (H7 & _ & _);
      destruct (delete_result s 0 Hr) as (_ & H0 & _);
      destruct (delete_result s 1 Hr) as (_ & _ & H1)
  end.
  split; [apply H7; vm_compute; reflexivity|].
  split.
  - apply (H0 0%nat (mkPage zero_page 0 1 false));
      [vm_compute; reflexivity|vm_compute; reflexivity|simpl; lia].
  - destruct (H1 1%nat (mkPage zero_page 1 0 false)) as (s' & Hrun & _ & _ & Hfree & _);
      [vm_compute; reflexivity|vm_compute; reflexivity|done|done|].
    exists s'. split; [exact Hrun|exact Hfree].
Defined.

(** X21.  [DeletePgImp] on a resident page that is dirty and not pinned
    never returns: it calls [FlushPgImp] while it holds [latch_], and
    [FlushPgImp] locks the same [std::mutex] again. *)
Theorem delete_dirty_page_deadlocks (s : BufferPoolManagerInstance)
    (p : page_id_t) (f : frame_id_t) (pg : Page) :
  reachable s ->
  page_table_ s !! p = Some f -> pages_ s !! f = Some pg ->
  pin_count_ pg = 0 -> is_dirty_ pg = true ->
  DeletePgImp p s = Stuck Deadlock.
Proof.
  intros [Hc Hl]%reachable_wf Hp Hpg Hpin Hd.
  apply (DeletePgImp_dirty_deadlock s p f pg); [done|done|done|done|lia].
Qed.

Lemma delete_dirty_page_deadlocks_witness :
  ∃ s,
    state_after 3 1 0 [OpNew; OpUnpin 0 true] = Some s
    ∧ DeletePgImp 0 s = Stuck Deadlock.
Proof.
  eexists. split; [vm_compute; reflexivity|].
  apply (delete_dirty_page_deadlocks _ 0 0%nat (mkPage zero_page 0 0 true)).
  - apply (state_after_reachable 3 1 0 [OpNew; OpUnpin 0 true]);
      [lia|lia|vm_compute; reflexivity].
  - vm_compute. reflexivity.
  - vm_compute. reflexivity.
  - done.
  - done.
Defined.



(** * Eviction *)

Section Evict.
Import LRUReplacer.





End Evict.




(** * The parallel pool *)

Section PoolInvariant.

Lemma FlushAllPgs_loop_table frames s u s' :
  FlushAllPgs_loop frames s = Ret u s' -> page_table_ s' = page_table_ s.
Proof.
  revert s. induction frames as [|i frames IH]; intros s H; simpl in H; mred_in H.
  - by injection H as <- <-.
  - destruct (pages_ s !! i) as [pg|]; [|done]. cbn in H.
    destruct (FlushPgImp (page_id_ pg) s) as [b s1|] eqn:Hflush; [|done].
    apply FlushPgImp_cases in Hflush
      as [_ [(_ & -> & _)|(f & pg' & _ & _ & _ & _ & ->)]]; by apply IH in H.
Qed.

(** The page identifiers an operation can add to the page table: the
    one fetched, and the one [NewPgImp] allocates. *)
Lemma exec_table_keys o s a s' q :
  exec o s = Ret a s' ->
  is_Some (page_table_ s' !! q) ->
  is_Some (page_table_ s !! q) ∨ o = OpFetch q ∨ (o = OpNew ∧ q = next_page_id_ s).
Proof.
  intros H. destruct o; simpl in H; apply bind_Ret in H as (r & s1 & H & Hret);
    unfold mret, M_ret in Hret; injection Hret as <- <-.
  - (* FetchPgImp *)
    unfold FetchPgImp in H. mred_in H.
    destruct (latch_ s); [done|]. cbn in H.
    destruct (page_table_ s !! page_id) as [f|]; cbn in H.
    + destruct (pages_ s !! f); cbn in H; [|done]. injection H as <- <-. by left.
    + destruct (FindReplacePolicy (set_latch true s)) as [[f|] s2|] eqn:Hfind;
        cbn in H; [| |done];
        apply FindReplacePolicy_frames in Hfind as (_ & Hsub & _); simpl in Hsub.
      2:{ injection H as <- <-. simpl. intros Hq. left.
          by eapply lookup_weaken_is_Some. }
      destruct (pages_ s2 !! f) as [pg|]; cbn in H; [|done].
      destruct (is_dirty_ pg); cbn in H;
        (destruct (pages_ s2 !! f); cbn in H; [|done]);
        injection H as <- <-; simpl; intros [g Hq];
        (destruct (decide (q = page_id)) as [->|Hne]; [by right; left|]);
        rewrite lookup_insert_ne in Hq by done;
        apply lookup_delete_Some in Hq as [_ Hq];
        left; exists g; by eapply lookup_weaken.
  - (* NewPgImp *)
    unfold NewPgImp in H. mred_in H.
    destruct (latch_ s); [done|]. cbn in H.
    destruct (AllocatePage (set_latch true s)) as [p s2|] eqn:Halloc; cbn in H; [|done].
    apply AllocatePage_cases in Halloc as (-> & _ & ->). cbn in H.
    match type of H with
    | context [all_pinned_loop ?l ?s0] =>
        destruct (all_pinned_loop l s0) as [is_all s2|] eqn:Hloop; cbn in H; [|done]
    end.
    apply all_pinned_loop_state in Hloop as ->.
    destruct is_all; cbn in H; [injection H as <- <-; by left|].
    match type of H with
    | context [FindReplacePolicy ?s0] =>
        destruct (FindReplacePolicy s0) as [[f|] s2|] eqn:Hfind; cbn in H; [| |done]
    end; apply FindReplacePolicy_frames in Hfind as (_ & Hsub & _); simpl in Hsub.
    2:{ injection H as <- <-. simpl. intros Hq. left.
        by eapply lookup_weaken_is_Some. }
    destruct (pages_ s2 !! f) as [pg|]; cbn in H; [|done].
    repeat match type of H with
    | context [<[f := ?x]> ?y !! f] =>
        destruct (<[f := x]> y !! f); cbn in H; [|done]
    end.
    injection H as <- <-. simpl. intros [g Hq].
    destruct (decide (q = next_page_id_ s)) as [->|Hne]; [by right; right|].
    rewrite lookup_insert_ne in Hq by done.
    left. exists g. by eapply lookup_weaken.
  - (* UnpinPgImp *)
    unfold UnpinPgImp in H. mred_in H.
    destruct (latch_ s); [done|]. cbn in H.
    destruct (page_table_ s !! page_id) as [f|]; cbn in H;
      [|injection H as <- <-; by left].
    repeat (match type of H with
            | context [match ?x with _ => _ end] =>
                lazymatch x with
                | context [match _ with _ => _ end] => fail
                | _ => destruct x eqn:?; cbn in H; try done
                end
            end).
    all: injection H as <- <-; by left.
  - apply FlushPgImp_cases in H
      as [_ [(_ & -> & _)|(f & pg' & _ & _ & _ & _ & ->)]]; by left.
  - (* DeletePgImp *)
    unfold DeletePgImp in H. mred_in H.
    destruct (latch_ s) eqn:Hl; [done|]. cbn in H.
    destruct (page_table_ s !! page_id) as [f|]; cbn in H;
      [|injection H as <- <-; by left].
    destruct (pages_ s !! f) as [pg|] eqn:Hpg; cbn in H; [|done].
    destruct (decide (pin_count_ pg > 0)); cbn in H; [injection H as <- <-; by left|].
    destruct (is_dirty_ pg); cbn in H.
    + by rewrite FlushPgImp_locked in H.
    + rewrite Hpg in H. cbn in H. injection H as <- <-. simpl. intros [g Hq].
      apply lookup_delete_Some in Hq as [_ Hq]. left. by exists g.
  - unfold FlushAllPgsImp in H. mred_in H.
    apply FlushAllPgs_loop_table in H. rewrite H. by left.
  - unfold client_write in H. mred_in H. injection H as <- <-.
    destruct (pages_ s !! frame_id); by left.
Qed.

End PoolInvariant.
Section PoolSteps.

Lemma create_instances_lookup ps N indices l :
  Parallel.create_instances ps N indices = Some l ->
  length l = length indices
  ∧ ∀ k s, l !! k = Some s ->
      ∃ i, indices !! k = Some i ∧ create ps N (Z.of_nat i) = Some s.
Proof.
  revert l. induction indices as [|i indices IH]; intros l H; simpl in H.
  - injection H as <-. split; [done|]. by intros k s Hk.
  - destruct (create ps N (Z.of_nat i)) as [s0|] eqn:Hc; [|done].
    destruct (Parallel.create_instances ps N indices) as [l0|] eqn:Hl; [|done].
    injection H as <-. destruct (IH l0 eq_refl) as [Hlen Hall].
    split; [simpl; by rewrite Hlen|].
    intros [|k] s Hk; simpl in *.
    + injection Hk as <-. by exists i.
    + by apply Hall.
Qed.

Lemma create_fields ps N i s :
  create ps N i = Some s ->
  num_instances_ s = N ∧ instance_index_ s = i ∧ pool_size_ s = ps
  ∧ page_table_ s = ∅ ∧ next_page_id_ s = i ∧ free_list_ s = seq 0 ps.
Proof. unfold create. destruct (decide _); [|done]. by intros [= <-]. Qed.

Lemma pool_create_wf N ps start P :
  0 < Z.of_nat N < 2 ^ 31 -> Z.of_nat ps < 2 ^ 64 -> 0 ≤ start < 2 ^ 64 ->
  Parallel.create N ps start = Some P ->
  pool_wf P ∧ Parallel.num_instances_ P = Z.of_nat N ∧ Parallel.pool_size_ P = ps.
Proof.
  intros HN Hps Hstart H. unfold Parallel.create in H.
  destruct (Parallel.create_instances ps (Z.of_nat N) (seq 0 N)) as [l|] eqn:Hl; [|done].
  injection H as <-. apply create_instances_lookup in Hl as [Hlen Hall].
  rewrite length_seq in Hlen.
  split; [|done]. split; [|done]. split; simpl.
  - done.
  - by rewrite Hlen.
  - done.
  - intros k s Hk. destruct (Hall k s Hk) as (i & Hi & Hc).
    apply lookup_seq in Hi as [-> _]. simpl in Hc.
    assert (Hwf : wf s) by (eapply create_wf; [exact Hps| |exact Hc]; lia).
    by apply create_fields in Hc as (? & ? & ? & _).
  - intros k s p f Hk Hp. destruct (Hall k s Hk) as (i & _ & Hc).
    apply create_fields in Hc as (_ & _ & _ & Ht & _). by rewrite Ht in Hp.
Qed.

Lemma on_instance_Ret {A} k (m : M A) P a P' :
  Parallel.on_instance k m P = Ret a P' ->
  ∃ s s', Parallel.buffer_vec_ P !! k = Some s ∧ m s = Ret a s'
          ∧ P' = Parallel.mk (Parallel.num_instances_ P) (Parallel.pool_size_ P)
                             (<[k := s']> (Parallel.buffer_vec_ P))
                             (Parallel.start_index_ P) (Parallel.latch_ P).
Proof.
  unfold Parallel.on_instance. destruct (Parallel.buffer_vec_ P !! k) as [s|]; [|done].
  destruct (m s) as [a' s'|] eqn:Hm; [|done]. intros [= <- <-]. by exists s, s'.
Qed.

Lemma on_instance_eq {A} k (m : M A) P s a s' :
  Parallel.buffer_vec_ P !! k = Some s -> m s = Ret a s' ->
  Parallel.on_instance k m P
  = Ret a (Parallel.mk (Parallel.num_instances_ P) (Parallel.pool_size_ P)
                       (<[k := s']> (Parallel.buffer_vec_ P))
                       (Parallel.start_index_ P) (Parallel.latch_ P)).
Proof. intros Hk Hm. unfold Parallel.on_instance. by rewrite Hk, Hm. Qed.

Lemma pool_consistent_set P start latch :
  pool_consistent P -> 0 ≤ start < 2 ^ 64 ->
  pool_consistent (Parallel.mk (Parallel.num_instances_ P) (Parallel.pool_size_ P)
                               (Parallel.buffer_vec_ P) start latch).
Proof. intros [? ? ? ? ?] Hstart. by split. Qed.

Lemma pool_consistent_update P k s s' :
  pool_consistent P ->
  Parallel.buffer_vec_ P !! k = Some s ->
  wf s' -> same_static s s' ->
  (∀ p, is_Some (page_table_ s' !! p) -> p < 2 ^ 64 ->
        is_Some (page_table_ s !! p) ∨ route P p = k) ->
  pool_consistent (Parallel.mk (Parallel.num_instances_ P) (Parallel.pool_size_ P)
                               (<[k := s']> (Parallel.buffer_vec_ P))
                               (Parallel.start_index_ P) (Parallel.latch_ P)).
Proof.
  intros Hc Hk Hwf (Hps & HN & Hidx) Hkeys.
  assert (Hlt : (k < length (Parallel.buffer_vec_ P))%nat) by (by eapply lookup_lt_Some).
  destruct (pc_instance _ Hc k s Hk) as (_ & HN0 & Hidx0 & Hps0).
  split; simpl.
  - apply (pc_count _ Hc).
  - rewrite length_insert. apply (pc_length _ Hc).
  - apply (pc_start _ Hc).
  - intros j x Hj. destruct (decide (j = k)) as [->|Hne].
    + rewrite list_lookup_insert_eq in Hj by done. injection Hj as <-.
      repeat split; try apply Hwf; congruence.
    + rewrite list_lookup_insert_ne in Hj by done. by apply (pc_instance _ Hc).
  - intros j x p f Hj Hp Hbound. destruct (decide (j = k)) as [->|Hne].
    + rewrite list_lookup_insert_eq in Hj by done. injection Hj as <-.
      destruct (Hkeys p) as [[g Hg]|Hroute]; [by exists f|done| |done].
      by apply (pc_routed _ Hc k s p g).
    + rewrite list_lookup_insert_ne in Hj by done. by apply (pc_routed _ Hc j x p f).
Qed.

Lemma route_new_page P k s :
  pool_consistent P -> Parallel.buffer_vec_ P !! k = Some s ->
  next_page_id_ s < 2 ^ 64 -> route P (next_page_id_ s) = k.
Proof.
  intros Hc Hk Hbound.
  destruct (pc_instance _ Hc k s Hk) as ([Hcs _] & HN & Hidx & _).
  destruct (c_alloc _ Hcs) as (_ & _ & Hmod & Hge).
  unfold route, size_t_wrap. rewrite (Z.mod_small (next_page_id_ s) (2 ^ 64)) by lia.
  rewrite <- HN, Hmod, Hidx. apply Nat2Z.id.
Qed.

(** An operation of an instance, run on the instance its page is routed
    to, keeps the pool consistent. *)
Lemma pool_consistent_exec P k s o a s' :
  pool_consistent P ->
  Parallel.buffer_vec_ P !! k = Some s ->
  exec o s = Ret a s' ->
  (∀ q, o = OpFetch q -> route P q = k) ->
  pool_consistent (Parallel.mk (Parallel.num_instances_ P) (Parallel.pool_size_ P)
                               (<[k := s']> (Parallel.buffer_vec_ P))
                               (Parallel.start_index_ P) (Parallel.latch_ P)).
Proof.
  intros Hc Hk Hexec Hfetch.
  destruct (pc_instance _ Hc k s Hk) as (Hwf & _).
  apply (pool_consistent_update P k s s'); try done.
  - by eapply exec_wf.
  - by eapply exec_static.
  - intros p Hp Hbound.
    destruct (exec_table_keys _ _ _ _ _ Hexec Hp) as [?|[->|[-> ->]]]; [by left| |].
    + right. by apply Hfetch.
    + right. by apply route_new_page.
Qed.

Lemma route_lt P p :
  pool_consistent P -> (route P p < length (Parallel.buffer_vec_ P))%nat.
Proof.
  intros Hc. pose proof (pc_count _ Hc) as HN. pose proof (pc_length _ Hc) as Hlen.
  unfold route.
  pose proof (Z.mod_pos_bound (size_t_wrap p) (Parallel.num_instances_ P) ltac:(lia)).
  lia.
Qed.

Lemma GetBufferPoolManager_route P p :
  pool_consistent P ->
  ∃ s, Parallel.buffer_vec_ P !! route P p = Some s
       ∧ Parallel.GetBufferPoolManager p P = Ret (route P p, s) P.
Proof.
  intros Hc. pose proof (pc_count _ Hc) as HN. pose proof (pc_length _ Hc) as Hlen.
  destruct (GetBufferPoolManager_total p P) as [s Hs]; [lia|done|].
  exists s. split; [|done].
  unfold Parallel.GetBufferPoolManager in Hs.
  rewrite decide_False in Hs by lia.
  destruct (Parallel.buffer_vec_ P !! _) as [s0|] eqn:Hk in Hs; [|done].
  injection Hs as Hidx <-. unfold route. by rewrite <- Hidx.
Qed.

(** A routed operation is the operation of the instance the page is
    routed to. *)
Lemma routed_eq {A} p (m : M A) P :
  pool_consistent P ->
  ∃ s, Parallel.buffer_vec_ P !! route P p = Some s
       ∧ Parallel.routed p m P
         = match m s with
           | Ret a s' =>
               Ret a (Parallel.mk (Parallel.num_instances_ P) (Parallel.pool_size_ P)
                                  (<[route P p := s']> (Parallel.buffer_vec_ P))
                                  (Parallel.start_index_ P) (Parallel.latch_ P))
           | Stuck w => Stuck w
           end.
Proof.
  intros Hc. destruct (GetBufferPoolManager_route P p Hc) as (s & Hk & Hget).
  exists s. split; [done|]. unfold Parallel.routed. rewrite Hget.
  unfold Parallel.on_instance. by rewrite Hk.
Qed.

Lemma exec_Flush p s b s' :
  FlushPgImp p s = Ret b s' -> exec (OpFlush p) s = Ret (ABool b) s'.
Proof. intros H. simpl. by rewrite (bind_eq _ _ _ _ _ H). Qed.

Lemma exec_FlushAll s u s' :
  FlushAllPgsImp s = Ret u s' -> exec OpFlushAll s = Ret AUnit s'.
Proof. intros H. simpl. by rewrite (bind_eq _ _ _ _ _ H). Qed.

Lemma exec_ClientWrite f d s u s' :
  client_write f d s = Ret u s' -> exec (OpClientWrite f d) s = Ret AUnit s'.
Proof. intros H. simpl. by rewrite (bind_eq _ _ _ _ _ H). Qed.

Lemma routed_consistent {A} p (m : M A) o (wrap : A -> answer) P a P' :
  pool_consistent P ->
  (∀ s b s', m s = Ret b s' -> exec o s = Ret (wrap b) s') ->
  (∀ q, o = OpFetch q -> q = p) ->
  Parallel.routed p m P = Ret a P' ->
  pool_consistent P' ∧ Parallel.latch_ P' = Parallel.latch_ P.
Proof.
  intros Hc Hexec Ho H.
  destruct (routed_eq p m P Hc) as (s & Hk & Heq). rewrite Heq in H.
  destruct (m s) as [b s'|] eqn:Hm; [|done]. injection H as <- <-.
  split; [|done].
  apply (pool_consistent_exec P _ s o (wrap b) s'); try done.
  - by apply Hexec.
  - by intros q ->%Ho.
Qed.

Lemma NewPg_loop_consistent rounds P r P' :
  pool_consistent P ->
  Parallel.NewPg_loop rounds P = Ret r P' ->
  pool_consistent P' ∧ Parallel.latch_ P' = Parallel.latch_ P.
Proof.
  revert P. induction rounds as [|rounds IH]; intros P Hc H; simpl in H.
  - by injection H as <- <-.
  - pose proof (pc_count _ Hc) as HN.
    rewrite decide_False in H by lia.
    destruct (Parallel.on_instance _ NewPgImp P) as [page P1|] eqn:Hon; [|done].
    apply on_instance_Ret in Hon as (s & s' & Hk & Hnew & ->). simpl in H.
    assert (Hc1 := pool_consistent_exec P _ s OpNew _ s' Hc Hk (exec_New _ _ _ Hnew)
                     ltac:(done)).
    assert (Hc2 := pool_consistent_set _
                     ((Parallel.start_index_ P + 1) `mod` Parallel.num_instances_ P)
                     (Parallel.latch_ P) Hc1).
    simpl in Hc2.
    pose proof (Z.mod_pos_bound (Parallel.start_index_ P + 1)
                  (Parallel.num_instances_ P) ltac:(lia)).
    destruct page as [page|].
    + injection H as <- <-. split; [apply Hc2; lia|done].
    + apply IH in H as [? ?]; [done|]. apply Hc2. lia.
Qed.

Lemma FlushAll_loop_consistent indices P u P' :
  pool_consistent P ->
  Parallel.FlushAll_loop indices P = Ret u P' ->
  pool_consistent P' ∧ Parallel.latch_ P' = Parallel.latch_ P.
Proof.
  revert P. induction indices as [|k indices IH]; intros P Hc H; simpl in H.
  - by injection H as <- <-.
  - destruct (Parallel.on_instance k FlushAllPgsImp P) as [x P1|] eqn:Hon; [|done].
    apply on_instance_Ret in Hon as (s & s' & Hk & Hflush & ->).
    apply IH in H as [? ?]; [done|].
    by apply (pool_consistent_exec P k s OpFlushAll _ s' Hc Hk (exec_FlushAll _ _ _ Hflush)).
Qed.

Lemma pool_exec_wf o P a P' : pool_wf P -> pool_exec o P = Ret a P' -> pool_wf P'.
Proof.
  intros [Hc Hl] H. destruct o as [p| |p d|p|p| |k f d]; simpl in H.
  - destruct (Parallel.FetchPgImp p P) as [r P1|] eqn:Hop; [|done].
    injection H as <- <-.
    apply (routed_consistent p _ (OpFetch p) AFrame) in Hop as [? ?]; try done.
    + split; [done|congruence].
    + intros s b s'. apply exec_Fetch.
    + by intros q [= ->].
  - destruct (Parallel.NewPgImp P) as [r P1|] eqn:Hop; [|done].
    injection H as <- <-. unfold Parallel.NewPgImp in Hop. rewrite Hl in Hop.
    destruct (Parallel.NewPg_loop _ _) as [r' P2|] eqn:Hloop in Hop; [|done].
    injection Hop as <- <-.
    apply NewPg_loop_consistent in Hloop as [Hc2 _].
    + split; [|done]. apply (pool_consistent_set _ _ false Hc2), (pc_start _ Hc2).
    + apply (pool_consistent_set _ _ true Hc), (pc_start _ Hc).
  - destruct (Parallel.UnpinPgImp p d P) as [r P1|] eqn:Hop; [|done].
    injection H as <- <-.
    apply (routed_consistent p _ (OpUnpin p d) ABool) in Hop as [? ?]; try done.
    + split; [done|congruence].
    + intros s b s'. apply exec_Unpin.
  - destruct (Parallel.FlushPgImp p P) as [r P1|] eqn:Hop; [|done].
    injection H as <- <-.
    apply (routed_consistent p _ (OpFlush p) ABool) in Hop as [? ?]; try done.
    + split; [done|congruence].
    + intros s b s'. apply exec_Flush.
  - destruct (Parallel.DeletePgImp p P) as [r P1|] eqn:Hop; [|done].
    injection H as <- <-.
    apply (routed_consistent p _ (OpDelete p) ABool) in Hop as [? ?]; try done.
    + split; [done|congruence].
    + intros s b s'. apply exec_Delete.
  - destruct (Parallel.FlushAllPgsImp P) as [r P1|] eqn:Hop; [|done].
    injection H as <- <-. unfold Parallel.FlushAllPgsImp in Hop.
    apply FlushAll_loop_consistent in Hop as [? ?]; [|done].
    split; [done|congruence].
  - destruct (Parallel.buffer_vec_ P !! k) as [s|] eqn:Hk.
    2:{ by injection H as <- <-. }
    destruct (Parallel.on_instance k (client_write f d) P) as [r P1|] eqn:Hop; [|done].
    injection H as <- <-.
    apply on_instance_Ret in Hop as (s0 & s' & Hk' & Hw & ->).
    split; [|done].
    by apply (pool_consistent_exec P k s0 (OpClientWrite f d) _ s' Hc Hk'
                (exec_ClientWrite _ _ _ _ _ Hw)).
Qed.

Lemma pool_reachable_wf P : pool_reachable P -> pool_wf P.
Proof.
  induction 1 as [N ps start P HN Hps Hstart Hcreate|o P a P' _ IH Hexec].
  - by apply (pool_create_wf N ps start P).
  - by eapply pool_exec_wf.
Qed.

End PoolSteps.
Section PoolFacts.

Lemma pool_run_reachable ops P l P' :
  pool_reachable P -> pool_run ops P = Ret l P' -> pool_reachable P'.
Proof.
  revert P l. induction ops as [|o ops IH]; intros P l Hr H; simpl in H.
  - by injection H as <- <-.
  - destruct (pool_exec o P) as [a P1|] eqn:Hexec; [|done].
    destruct (pool_run ops P1) as [l' P2|] eqn:Hrun; [|done].
    injection H as <- <-. eapply IH; [|exact Hrun].
    by eapply pool_reachable_exec.
Qed.

Lemma pool_state_after_reachable N ps start ops P :
  0 < Z.of_nat N < 2 ^ 31 -> Z.of_nat ps < 2 ^ 64 -> 0 ≤ start < 2 ^ 64 ->
  pool_state_after N ps start ops = Some P -> pool_reachable P.
Proof.
  intros HN Hps Hstart H. unfold pool_state_after in H.
  destruct (Parallel.create N ps start) as [P0|] eqn:Hcreate; [|done].
  destruct (pool_run ops P0) as [l P1|] eqn:Hrun; [|done].
  injection H as <-. eapply pool_run_reachable; [|exact Hrun].
  by eapply pool_reachable_create.
Qed.


(** One round of the loop of [NewPgImp] of the pool. *)
Lemma NewPg_round P s s' r :
  pool_consistent P ->
  Parallel.buffer_vec_ P
    !! Z.to_nat (Parallel.start_index_ P `mod` Parallel.num_instances_ P) = Some s ->
  NewPgImp s = Ret r s' ->
  pool_consistent
    (Parallel.mk (Parallel.num_instances_ P) (Parallel.pool_size_ P)
       (<[Z.to_nat (Parallel.start_index_ P `mod` Parallel.num_instances_ P) := s']>
          (Parallel.buffer_vec_ P))
       ((Parallel.start_index_ P + 1) `mod` Parallel.num_instances_ P)
       (Parallel.latch_ P)).
Proof.
  intros Hc Hk Hnew. pose proof (pc_count _ Hc) as HN.
  assert (Hc1 := pool_consistent_exec P _ s OpNew _ s' Hc Hk (exec_New _ _ _ Hnew)
                   ltac:(done)).
  apply (pool_consistent_set _
           ((Parallel.start_index_ P + 1) `mod` Parallel.num_instances_ P)
           (Parallel.latch_ P)) in Hc1; [done|].
  pose proof (Z.mod_pos_bound (Parallel.start_index_ P + 1)
                (Parallel.num_instances_ P) ltac:(lia)).
  lia.
Qed.

(** The loop of [NewPgImp] of the pool, when it ends with a page. *)
Lemma NewPg_loop_Some rounds P p f P' :
  pool_consistent P ->
  Parallel.NewPg_loop rounds P = Ret (Some (p, f)) P' ->
  ∃ k s pg,
    Parallel.buffer_vec_ P' !! k = Some s
    ∧ page_table_ s !! p = Some f
    ∧ pages_ s !! f = Some (mkPage (data_ pg) p 1 false)
    ∧ p `mod` Parallel.num_instances_ P = Z.of_nat k
    ∧ Parallel.start_index_ P' = (Z.of_nat k + 1) `mod` Parallel.num_instances_ P
    ∧ Parallel.num_instances_ P' = Parallel.num_instances_ P.
Proof.
  revert P. induction rounds as [|rounds IH]; intros P Hc H; simpl in H; [done|].
  pose proof (pc_count _ Hc) as HN.
  rewrite decide_False in H by lia.
  destruct (Parallel.on_instance _ NewPgImp P) as [page P1|] eqn:Hon; [|done].
  apply on_instance_Ret in Hon as (s & s' & Hk & Hnew & ->). simpl in H.
  pose proof (NewPg_round P s s' page Hc Hk Hnew) as Hc2.
  destruct page as [[p0 f0]|].
  - injection H as -> -> <-. simpl.
    destruct (pc_instance _ Hc _ s Hk) as (Hwf & HNs & Hidx & _).
    destruct (NewPgImp_result s Hwf) as (r0 & s0 & Hrun & _ & _ & Hres).
    rewrite Hnew in Hrun. injection Hrun as <- <-.
    destruct Hres as (_ & Hmod & Htable & (pg & _ & Hpg & _) & _).
    exists (Z.to_nat (Parallel.start_index_ P `mod` Parallel.num_instances_ P)), s', pg.
    split; [apply list_lookup_insert_eq; by eapply lookup_lt_Some|].
    split; [done|]. split; [done|].
    pose proof (Z.mod_pos_bound (Parallel.start_index_ P) (Parallel.num_instances_ P)
                  ltac:(lia)).
    rewrite Z2Nat.id by lia. split; [|split; [|done]].
    + transitivity (instance_index_ s); [by rewrite <- HNs|].
      rewrite Hidx. apply Z2Nat.id. lia.
    + by rewrite Zplus_mod_idemp_l.
  - apply IH in H; [|done]. simpl in H. done.
Qed.


End PoolFacts.

(** X25.  In every state a pool goes through, an instance that holds a
    page is the instance the pool routes that page to: instance [k]
    knows its index [k] and the number of instances, the page
    identifiers resident in it are those [GetBufferPoolManager] sends to
    it, and so no page is resident in two instances.  (For a page
    identifier that fits a [size_t].) *)
Theorem pool_page_is_where_it_is_routed (P : Parallel.t) (k : nat)
    (s : BufferPoolManagerInstance) (p : page_id_t) (f : frame_id_t) :
  pool_reachable P ->
  Parallel.buffer_vec_ P !! k = Some s ->
  page_table_ s !! p = Some f ->
  p < 2 ^ 64 ->
  instance_index_ s = Z.of_nat k
  ∧ num_instances_ s = Parallel.GetPoolSize P
  ∧ Parallel.GetBufferPoolManager p P = Ret (k, s) P
  ∧ ∀ k' s' f', Parallel.buffer_vec_ P !! k' = Some s' ->
                page_table_ s' !! p = Some f' -> k' = k.
Proof.
  intros [Hc _]%pool_reachable_wf Hk Hp Hbound.
  destruct (pc_instance _ Hc k s Hk) as (_ & HN & Hidx & _).
  pose proof (pc_routed _ Hc k s p f Hk Hp Hbound) as Hroute.
  split; [done|]. split; [done|]. split.
  - destruct (GetBufferPoolManager_route P p Hc) as (s0 & Hk0 & Hget).
    rewrite Hroute in Hk0, Hget. rewrite Hk in Hk0. by injection Hk0 as <-.
  - intros k' s' f' Hk' Hp'.
    rewrite <- Hroute. symmetry. by apply (pc_routed _ Hc k' s' p f').
Qed.

Lemma pool_page_is_where_it_is_routed_witness :
  ∃ P s,
    pool_state_after 3 2 0 [PoolNew; PoolNew; PoolFetch 7; PoolUnpin 0 true] = Some P
    ∧ Parallel.buffer_vec_ P !! 1%nat = Some s
    ∧ instance_index_ s = Z.of_nat 1
    ∧ num_instances_ s = Parallel.GetPoolSize P
    ∧ Parallel.GetBufferPoolManager 7 P = Ret (1%nat, s) P
    ∧ ∀ k' s' f', Parallel.buffer_vec_ P !! k' = Some s' ->
                  page_table_ s' !! 7 = Some f' -> k' = 1%nat.
Proof.
  eexists _, _. split; [vm_compute; reflexivity|]. split; [vm_compute; reflexivity|].
  apply (pool_page_is_where_it_is_routed _ 1%nat _ 7 1%nat).
  - apply (pool_state_after_reachable 3 2 0
             [PoolNew; PoolNew; PoolFetch 7; PoolUnpin 0 true]);
      [lia|lia|lia|vm_compute; reflexivity].
  - vm_compute. reflexivity.
  - vm_compute. reflexivity.
  - lia.
Defined.

(** X26.  A page that [NewPgImp] of the pool returns is found again:
    its identifier is routed to the instance that allocated it, where
    the page table maps it to the returned frame, pinned once; and the
    starting index of the pool then stands just after that instance. *)
Theorem pool_new_page_is_routed_back (P P' : Parallel.t) (p : page_id_t)
    (f : frame_id_t) :
  pool_reachable P ->
  Parallel.NewPgImp P = Ret (Some (p, f)) P' ->
  p < 2 ^ 64 ->
  ∃ s,
    Parallel.GetBufferPoolManager p P' = Ret (route P' p, s) P'
    ∧ page_table_ s !! p = Some f
    ∧ (pin_count_ <$> pages_ s !! f) = Some 1
    ∧ Parallel.start_index_ P'
      = (Z.of_nat (route P' p) + 1) `mod` Parallel.num_instances_ P'.
Proof.
  intros Hr Hnew Hbound.
  assert (Hwf' : pool_wf P').
  { apply pool_reachable_wf. apply (pool_reachable_exec PoolNew P (ANew (Some (p, f)))).
    - done.
    - simpl. by rewrite Hnew. }
  apply pool_reachable_wf in Hr as [Hc Hl]. destruct Hwf' as [Hc' _].
  unfold Parallel.NewPgImp in Hnew. rewrite Hl in Hnew.
  destruct (Parallel.NewPg_loop _ _) as [r P2|] eqn:Hloop in Hnew; [|done].
  injection Hnew as -> <-.
  apply NewPg_loop_Some in Hloop
    as (k & s & pg & Hk & Hp & Hpg & _ & Hstart & HN).
  2:{ apply (pool_consistent_set _ _ true Hc), (pc_start _ Hc). }
  simpl in *.
  pose proof (pc_routed _ Hc' k s p f Hk Hp Hbound) as Hroute.
  destruct (GetBufferPoolManager_route _ p Hc') as (s0 & Hk0 & Hget).
  rewrite Hroute in Hk0 |- *. simpl in Hk0. rewrite Hk in Hk0. injection Hk0 as <-.
  exists s. split; [by rewrite Hroute in Hget|]. split; [done|].
  split; [by rewrite Hpg|]. by rewrite HN.
Qed.

Lemma pool_new_page_is_routed_back_witness :
  ∃ P P',
    pool_state_after 3 2 1 [PoolNew; PoolNew] = Some P
    ∧ Parallel.NewPgImp P = Ret (Some (0, 0%nat)) P'
    ∧ ∃ s,
        Parallel.GetBufferPoolManager 0 P' = Ret (route P' 0, s) P'
        ∧ page_table_ s !! 0 = Some 0%nat
        ∧ (pin_count_ <$> pages_ s !! 0%nat) = Some 1
        ∧ Parallel.start_index_ P'
          = (Z.of_nat (route P' 0) + 1) `mod` Parallel.num_instances_ P'.
Proof.
  eexists _, _. split; [vm_compute; reflexivity|].
  split; [vm_compute; reflexivity|].
  eapply (pool_new_page_is_routed_back _ _ 0 0%nat).
  - apply (pool_state_after_reachable 3 2 1 [PoolNew; PoolNew]);
      [lia|lia|lia|vm_compute; reflexivity].
  - vm_compute. reflexivity.
  - lia.
Defined.

(** X27.  [NewPgImp] of the pool asks the instance at
    [start_index_ % num_instances_] first; when that instance has a free
    frame, the page comes from it, in its first free frame and with its
    next page identifier, no other instance is touched, and the starting
    index moves on by one, so that successive calls take the instances
    in turn. *)
Theorem pool_new_page_takes_turns (P : Parallel.t) (s : BufferPoolManagerInstance)
    (f : frame_id_t) (rest : list frame_id_t) :
  pool_reachable P ->
  Parallel.buffer_vec_ P
    !! Z.to_nat (Parallel.start_index_ P `mod` Parallel.num_instances_ P) = Some s ->
  free_list_ s = f :: rest ->
  ∃ P' s',
    Parallel.NewPgImp P = Ret (Some (next_page_id_ s, f)) P'
    ∧ Parallel.start_index_ P'
      = (Parallel.start_index_ P + 1) `mod` Parallel.num_instances_ P
    ∧ Parallel.buffer_vec_ P'
      = <[Z.to_nat (Parallel.start_index_ P `mod` Parallel.num_instances_ P) := s']>
          (Parallel.buffer_vec_ P)
    ∧ NewPgImp s = Ret (Some (next_page_id_ s, f)) s'
    ∧ Parallel.latch_ P' = false.
Proof.
  intros [Hc Hl]%pool_reachable_wf Hk Hfree.
  pose proof (pc_count _ Hc) as HN.
  destruct (pc_instance _ Hc _ s Hk) as (Hwf & _).
  destruct Hwf as [Hcs Hls].
  destruct (c_free _ Hcs f) as [(pg & Hpg & _) _]; [rewrite Hfree; by left|].
  pose proof (NewPgImp_free_state s f rest pg (conj Hcs Hls) Hfree Hpg) as Hnew.
  unfold Parallel.NewPgImp. rewrite Hl.
  destruct (Z.to_nat (Parallel.num_instances_ P)) as [|rounds] eqn:Hrounds; [lia|].
  simpl. rewrite decide_False by lia.
  rewrite (on_instance_eq _ _
             (Parallel.mk (Parallel.num_instances_ P) (Parallel.pool_size_ P)
                          (Parallel.buffer_vec_ P) (Parallel.start_index_ P) true)
             s _ _ Hk Hnew).
  simpl. eexists _, _. split; [reflexivity|]. simpl. split; [done|]. split; [done|].
  split; [exact Hnew|done].
Qed.

Lemma pool_new_page_takes_turns_witness :
  ∃ P s,
    pool_state_after 3 2 1 [PoolNew; PoolNew] = Some P
    ∧ Parallel.buffer_vec_ P
        !! Z.to_nat (Parallel.start_index_ P `mod` Parallel.num_instances_ P) = Some s
    ∧ ∃ P' s',
        Parallel.NewPgImp P = Ret (Some (next_page_id_ s, 0%nat)) P'
        ∧ Parallel.start_index_ P'
          = (Parallel.start_index_ P + 1) `mod` Parallel.num_instances_ P
        ∧ Parallel.buffer_vec_ P'
          = <[Z.to_nat (Parallel.start_index_ P `mod` Parallel.num_instances_ P) := s']>
              (Parallel.buffer_vec_ P)
        ∧ NewPgImp s = Ret (Some (next_page_id_ s, 0%nat)) s'
        ∧ Parallel.latch_ P' = false.
Proof.
  eexists _, _. split; [vm_compute; reflexivity|]. split; [vm_compute; reflexivity|].
  apply (pool_new_page_takes_turns _ _ 0%nat [1%nat]).
  - apply (pool_state_after_reachable 3 2 1 [PoolNew; PoolNew]);
      [lia|lia|lia|vm_compute; reflexivity].
  - vm_compute. reflexivity.
  - vm_compute. reflexivity.
Defined.
Section PoolLoops.

Lemma mod_shift_inj (N st k j : Z) :
  0 < N -> 0 ≤ k < N -> 0 ≤ j < N ->
  (k - st) `mod` N = j ↔ k = (st + j) `mod` N.
Proof.
  intros HN Hk Hj. split.
  - intros H.
    assert (Hk' : k = (st + j) + ((k - st) / N) * N).
    { pose proof (Z.div_mod (k - st) N ltac:(lia)). lia. }
    rewrite <- (Z.mod_small k N) by lia. rewrite Hk' at 1.
    apply Z_mod_plus_full.
  - intros ->. rewrite Zminus_mod_idemp_l.
    replace (st + j - st) with j by lia. apply Z.mod_small. lia.
Qed.

(** The loop of [NewPgImp] of the pool over instances in which every
    frame is pinned: [j] rounds are done, [rounds] are left. *)
Lemma NewPg_loop_all_pinned (v0 : list BufferPoolManagerInstance) (N : Z) (ps : nat)
    (st0 : Z) (latch : bool) :
  0 < N -> Z.of_nat (length v0) = N ->
  (∀ k s, v0 !! k = Some s ->
     wf s ∧ ∀ f pg, pages_ s !! f = Some pg -> pin_count_ pg > 0) ->
  ∀ (rounds j : nat) (vec : list BufferPoolManagerInstance) (start : Z),
    (j + rounds = length v0)%nat ->
    start `mod` N = (st0 + Z.of_nat j) `mod` N ->
    length vec = length v0 ->
    (∀ k s, v0 !! k = Some s ->
       vec !! k = Some (if decide ((Z.of_nat k - st0) `mod` N < Z.of_nat j)
                        then skip_page_id s else s)) ->
    ∃ start',
      Parallel.NewPg_loop rounds (Parallel.mk N ps vec start latch)
      = Ret None (Parallel.mk N ps (skip_page_id <$> v0) start' latch)
      ∧ ((rounds = 0%nat ∧ start' = start)
         ∨ start' = (st0 + Z.of_nat (length v0)) `mod` N).
Proof.
  intros HN Hlen Hall. induction rounds as [|rounds IH];
    intros j vec start Hj Hstart Hveclen Hvec.
  - exists start. split; [|by left]. simpl. do 2 f_equal.
    apply list_eq. intros k. rewrite list_lookup_fmap.
    destruct (v0 !! k) as [s|] eqn:Hk; simpl.
    + rewrite (Hvec k s Hk). rewrite decide_True; [done|].
      pose proof (Z.mod_pos_bound (Z.of_nat k - st0) N HN). lia.
    + apply lookup_ge_None. apply lookup_ge_None in Hk. lia.
  - simpl. rewrite decide_False by lia.
    pose proof (Z.mod_pos_bound start N HN) as Hidx.
    set (idx := Z.to_nat (start `mod` N)).
    assert (Hidx' : Z.of_nat idx = (st0 + Z.of_nat j) `mod` N).
    { unfold idx. rewrite Z2Nat.id by lia. done. }
    destruct (lookup_lt_is_Some_2 v0 idx) as [s Hs]; [unfold idx; lia|].
    destruct (Hall idx s Hs) as [Hwf Hpinned].
    assert (Hvs : vec !! idx = Some s).
    { rewrite (Hvec idx s Hs). rewrite decide_False; [done|].
      assert ((Z.of_nat idx - st0) `mod` N = Z.of_nat j); [|lia].
      apply mod_shift_inj; [lia|lia|lia|done]. }
    rewrite (on_instance_eq idx NewPgImp (Parallel.mk N ps vec start latch) s None
               (skip_page_id s) Hvs (NewPgImp_all_pinned s Hwf Hpinned)).
    simpl.
    destruct (IH (S j) (<[idx := skip_page_id s]> vec) ((start + 1) `mod` N))
      as (start' & Hrun & Hstart').
    + lia.
    + rewrite Z.mod_mod by lia. rewrite <- Zplus_mod_idemp_l, Hstart.
      rewrite Zplus_mod_idemp_l. f_equal. lia.
    + by rewrite length_insert.
    + intros k s' Hk. destruct (decide (k = idx)) as [->|Hne].
      * rewrite list_lookup_insert_eq by (by eapply lookup_lt_Some).
        rewrite Hs in Hk. injection Hk as <-. rewrite decide_True; [done|].
        assert ((Z.of_nat idx - st0) `mod` N = Z.of_nat j); [|lia].
        apply mod_shift_inj; [lia|lia|lia|done].
      * rewrite list_lookup_insert_ne by done. rewrite (Hvec k s' Hk).
        assert (Hkn : (k < length v0)%nat) by (by eapply lookup_lt_Some).
        assert (Hnj : (Z.of_nat k - st0) `mod` N ≠ Z.of_nat j).
        { intros Heq. apply mod_shift_inj in Heq; [|lia|lia|lia]. lia. }
        destruct (decide ((Z.of_nat k - st0) `mod` N < Z.of_nat j));
          [rewrite decide_True by lia|rewrite decide_False by lia]; done.
    + exists start'. split; [done|]. right.
      destruct Hstart' as [[-> ->]| ->]; [|done].
      rewrite <- Zplus_mod_idemp_l, Hstart, Zplus_mod_idemp_l. f_equal. lia.
Qed.

(** The loop of [FlushAllPgsImp] of the pool: the instances before [j]
    are done, those from [j] on are flushed in turn. *)
Lemma FlushAll_loop_eq (N : Z) (ps : nat) (start : Z) (latch : bool) :
  ∀ (m j : nat) (vec : list BufferPoolManagerInstance),
    length vec = (j + m)%nat ->
    (∀ k s, vec !! k = Some s -> wf s) ->
    Parallel.FlushAll_loop (seq j m) (Parallel.mk N ps vec start latch)
    = Ret tt (Parallel.mk N ps (take j vec ++ (flushed <$> drop j vec)) start latch).
Proof.
  induction m as [|m IH]; intros j vec Hlen Hwf; simpl.
  - rewrite drop_ge by lia. rewrite take_ge by lia. by rewrite app_nil_r.
  - destruct (lookup_lt_is_Some_2 vec j) as [s Hs]; [lia|].
    rewrite (on_instance_eq j FlushAllPgsImp (Parallel.mk N ps vec start latch) s tt
               (flushed s) Hs (FlushAllPgsImp_eq s (Hwf j s Hs))).
    simpl. rewrite IH.
    + do 2 f_equal.
      rewrite (take_S_r _ j (flushed s))
        by (apply list_lookup_insert_eq; by eapply lookup_lt_Some).
      rewrite take_insert_ge by lia. rewrite drop_insert_lt by lia.
      rewrite (drop_S vec s j Hs). simpl. by rewrite <- app_assoc.
    + rewrite length_insert. lia.
    + intros k s' Hk. destruct (decide (k = j)) as [->|Hne].
      * rewrite list_lookup_insert_eq in Hk by (by eapply lookup_lt_Some).
        injection Hk as <-.
        pose proof (FlushAllPgsImp_wf s tt (flushed s) (Hwf j s Hs)
                      (FlushAllPgsImp_eq s (Hwf j s Hs))).
        done.
      * rewrite list_lookup_insert_ne in Hk by done. by apply (Hwf k).
Qed.

Lemma pool_eta P :
  P = Parallel.mk (Parallel.num_instances_ P) (Parallel.pool_size_ P)
                  (Parallel.buffer_vec_ P) (Parallel.start_index_ P) (Parallel.latch_ P).
Proof. by destruct P. Qed.

Lemma FlushAllPgsImp_pool_eq P :
  pool_consistent P ->
  Parallel.FlushAllPgsImp P
  = Ret tt (Parallel.mk (Parallel.num_instances_ P) (Parallel.pool_size_ P)
                        (flushed <$> Parallel.buffer_vec_ P)
                        (Parallel.start_index_ P) (Parallel.latch_ P)).
Proof.
  intros Hc. unfold Parallel.FlushAllPgsImp.
  rewrite (pool_eta P) at 2.
  rewrite (FlushAll_loop_eq _ _ _ _ (length (Parallel.buffer_vec_ P)) 0%nat); [done|done|].
  intros k s Hk. by destruct (pc_instance _ Hc k s Hk).
Qed.

End PoolLoops.

(** X28.  When every frame of every instance is pinned, [NewPgImp] of
    the pool asks each instance once and returns [nullptr]; the starting
    index is back where it stood (reduced modulo the number of
    instances), and each instance has used up one page identifier: its
    [next_page_id_] has moved on by [num_instances_]. *)
Theorem pool_new_page_all_pinned (P : Parallel.t) :
  pool_reachable P ->
  (∀ k s f pg, Parallel.buffer_vec_ P !! k = Some s -> pages_ s !! f = Some pg ->
               pin_count_ pg > 0) ->
  Parallel.NewPgImp P
  = Ret None
        (Parallel.mk (Parallel.num_instances_ P) (Parallel.pool_size_ P)
                     (skip_page_id <$> Parallel.buffer_vec_ P)
                     (Parallel.start_index_ P `mod` Parallel.num_instances_ P) false).
Proof.
  intros [Hc Hl]%pool_reachable_wf Hpinned.
  pose proof (pc_count _ Hc) as HN. pose proof (pc_length _ Hc) as Hlen.
  unfold Parallel.NewPgImp. rewrite Hl.
  destruct (NewPg_loop_all_pinned (Parallel.buffer_vec_ P) (Parallel.num_instances_ P)
              (Parallel.pool_size_ P) (Parallel.start_index_ P) true
              ltac:(lia) Hlen) with
    (rounds := Z.to_nat (Parallel.num_instances_ P)) (j := 0%nat)
    (vec := Parallel.buffer_vec_ P) (start := Parallel.start_index_ P)
    as (start' & Hrun & Hstart').
  - intros k s Hk. destruct (pc_instance _ Hc k s Hk) as (Hwf & _).
    split; [done|]. intros f pg. by apply (Hpinned k s).
  - lia.
  - f_equal. lia.
  - done.
  - intros k s Hk. rewrite Hk. rewrite decide_False; [done|].
    pose proof (Z.mod_pos_bound (Z.of_nat k - Parallel.start_index_ P)
                  (Parallel.num_instances_ P) ltac:(lia)).
    lia.
  - rewrite Hrun. simpl. do 2 f_equal.
    destruct Hstart' as [[Hz _]| ->]; [lia|].
    rewrite Hlen. rewrite <- (Z.mul_1_l (Parallel.num_instances_ P)) at 1.
    apply Z_mod_plus_full.
Qed.

Lemma pool_new_page_all_pinned_witness :
  ∃ P,
    pool_state_after 2 1 1 [PoolNew; PoolNew] = Some P
    ∧ Parallel.NewPgImp P
      = Ret None
            (Parallel.mk (Parallel.num_instances_ P) (Parallel.pool_size_ P)
                         (skip_page_id <$> Parallel.buffer_vec_ P)
                         (Parallel.start_index_ P `mod` Parallel.num_instances_ P) false).
Proof.
  eexists. split; [vm_compute; reflexivity|].
  apply pool_new_page_all_pinned.
  - apply (pool_state_after_reachable 2 1 1 [PoolNew; PoolNew]);
      [lia|lia|lia|vm_compute; reflexivity].
  - intros [|[|k]] s [|f] pg Hk Hpg; simpl in Hk, Hpg; try done;
      injection Hk as <-; simpl in Hpg; try done;
      injection Hpg as <-; vm_compute; reflexivity.
Defined.

(** X29.  [FlushAllPgsImp] of the pool returns in every state a pool
    goes through, and is [FlushAllPgsImp] of each instance: nothing
    changes but the calls of [WritePage] each instance adds. *)
Theorem pool_flush_all_flushes_every_instance (P : Parallel.t) :
  pool_reachable P ->
  Parallel.FlushAllPgsImp P
  = Ret tt (Parallel.mk (Parallel.num_instances_ P) (Parallel.pool_size_ P)
                        (flushed <$> Parallel.buffer_vec_ P)
                        (Parallel.start_index_ P) (Parallel.latch_ P))
  ∧ ∀ k s, Parallel.buffer_vec_ P !! k = Some s ->
           FlushAllPgsImp s = Ret tt (flushed s).
Proof.
  intros [Hc Hl]%pool_reachable_wf. split; [by apply FlushAllPgsImp_pool_eq|].
  intros k s Hk. apply FlushAllPgsImp_eq. by destruct (pc_instance _ Hc k s Hk).
Qed.

Lemma pool_flush_all_flushes_every_instance_witness :
  ∃ P,
    pool_state_after 2 2 0 [PoolNew; PoolNew; PoolUnpin 1 true] = Some P
    ∧ Parallel.FlushAllPgsImp P
      = Ret tt (Parallel.mk (Parallel.num_instances_ P) (Parallel.pool_size_ P)
                            (flushed <$> Parallel.buffer_vec_ P)
                            (Parallel.start_index_ P) (Parallel.latch_ P))
    ∧ ∀ k s, Parallel.buffer_vec_ P !! k = Some s ->
             FlushAllPgsImp s = Ret tt (flushed s).
Proof.
  eexists. split; [vm_compute; reflexivity|].
  apply pool_flush_all_flushes_every_instance.
  apply (pool_state_after_reachable 2 2 0 [PoolNew; PoolNew; PoolUnpin 1 true]);
    [lia|lia|lia|vm_compute; reflexivity].
Defined.


